(** * vulcan-pkg-tool: a shallow embedding of the toolkit's pure cores

    The development follows the package layout of the Go repository:
    [bitmap], [bloom], [id], [strmap], [aes], [consistenthash] and the
    stopper of package [sync], with the parts of [strconv], [sort] and
    [crypto/cipher] they call.  Libraries outside the repository whose
    algorithm is beside the point (hashids, the AES block, murmur3,
    [sort.Sort]) are section variables with the property relied on.
    Go values are modelled as follows.

    - [int], [int64]: [Z] with the two's complement wrap-around written
      out ([Go.wrap64s]); [uint32], [uint64], [byte]: [Z] reduced modulo
      the width.
    - [[]byte] inside the bitmap: [list Z]; [[]byte] and [string] handled
      by the codecs: [list Byte.byte] and [string].
    - a call either returns, returns an error value, panics, or blocks
      forever on a mutex that is already held: the [go] monad.
    - Go maps: stdpp's [gmap]; slices indexed in place: stdpp's list
      lookup and insert with the bounds check of the runtime spelled out. *)

From Stdlib Require Import ZArith Lia Bool Strings.Byte Ascii String.
From stdpp Require Import base option list gmap strings sorting.

Local Open Scope Z_scope.

(** ** Runtime conventions *)

Module Go.

(** Outcome of a call. [Err] is a returned [error]; [Panic] an unrecovered
    run-time panic; [Blocked] a goroutine parked forever (a [sync.Mutex]
    locked while it is already held). *)
Inductive go (A : Type) : Type :=
| Ret (a : A)
| Err (e : string)
| Panic (p : string)
| Blocked.

Arguments Ret {A} a.
Arguments Err {A} e.
Arguments Panic {A} p.
Arguments Blocked {A}.

#[global] Instance go_ret : MRet go := fun A a => Ret a.

#[global] Instance go_bind : MBind go := fun A B f m =>
  match m with
  | Ret a => f a
  | Err e => Err e
  | Panic p => Panic p
  | Blocked => Blocked
  end.

Definition returns {A} (m : go A) : Prop := ∃ a, m = Ret a.

Definition panics {A} (m : go A) : Prop := ∃ p, m = Panic p.

(** Fixed-width integers. *)
Definition wrap64s (z : Z) : Z := (z + 2 ^ 63) mod 2 ^ 64 - 2 ^ 63.
Definition wrap64u (z : Z) : Z := z mod 2 ^ 64.
Definition wrap32u (z : Z) : Z := z mod 2 ^ 32.
Definition wrap8u (z : Z) : Z := z mod 2 ^ 8.

Definition is_int64 (z : Z) : Prop := - 2 ^ 63 <= z < 2 ^ 63.
Definition is_uint8 (z : Z) : Prop := 0 <= z < 2 ^ 8.

Definition MaxInt64 : Z := 2 ^ 63 - 1.
Definition MinInt64 : Z := - 2 ^ 63.

(** [make([]T, n)]: a negative length is a run-time panic. *)
Definition make {A} (zero : A) (n : Z) : go (list A) :=
  if n <? 0 then Panic "makeslice: len out of range"
  else Ret (replicate (Z.to_nat n) zero).

(** [s[i]] and [s[i] = v] on a slice, with the bounds check. *)
Definition index {A} (s : list A) (i : Z) : go A :=
  if i <? 0 then Panic "index out of range"
  else match s !! Z.to_nat i with
       | Some v => Ret v
       | None => Panic "index out of range"
       end.

Definition store {A} (s : list A) (i : Z) (v : A) : go (list A) :=
  _ ← index s i; Ret (<[Z.to_nat i := v]> s).

End Go.

Import Go.

(** ** Package bitmap *)

Module bitmap.

(** [mutex] records whether the [sync.Mutex] is held. *)
Record Bitmap : Type := mkBitmap {
  mutex : bool;
  bits : list Z;
  size : Z
}.

Definition Lock (b : Bitmap) : go Bitmap :=
  if mutex b then Blocked else Ret (mkBitmap true (bits b) (size b)).

Definition Unlock (b : Bitmap) : Bitmap := mkBitmap false (bits b) (size b).

Definition NewBitmap (size : Z) : go Bitmap :=
  if size <? 0 then Panic "bitmap size must be non-negative"
  else bs ← make 0 (Z.quot (wrap64s (size + 7)) 8);
       Ret (mkBitmap false bs size).

Definition validateIndex (b : Bitmap) (index : Z) : go unit :=
  if (index <? 0) || (index >=? size b)
  then Panic "bitmap index out of range"
  else Ret tt.

(** The byte [1 << (index % 8)]. *)
Definition bit (index : Z) : Z := wrap8u (Z.shiftl 1 (Z.rem index 8)).

Definition Set_ (b : Bitmap) (index : Z) : go Bitmap :=
  _ ← validateIndex b index;
  b1 ← Lock b;
  old ← Go.index (bits b1) (Z.quot index 8);
  bs ← store (bits b1) (Z.quot index 8) (Z.lor old (bit index));
  Ret (Unlock (mkBitmap (mutex b1) bs (size b1))).

(** [MSet] takes the mutex and then calls [Set], which takes it again. *)
Fixpoint MSet_loop (b : Bitmap) (indexes : list Z) : go Bitmap :=
  match indexes with
  | [] => Ret b
  | index :: rest => b' ← Set_ b index; MSet_loop b' rest
  end.

Definition MSet (b : Bitmap) (indexes : list Z) : go Bitmap :=
  b1 ← Lock b;
  b2 ← MSet_loop b1 indexes;
  Ret (Unlock b2).

Definition Clear (b : Bitmap) (index : Z) : go Bitmap :=
  _ ← validateIndex b index;
  b1 ← Lock b;
  old ← Go.index (bits b1) (Z.quot index 8);
  bs ← store (bits b1) (Z.quot index 8) (Z.ldiff old (bit index));
  Ret (Unlock (mkBitmap (mutex b1) bs (size b1))).

Definition IsSet (b : Bitmap) (index : Z) : go bool :=
  _ ← validateIndex b index;
  b1 ← Lock b;
  v ← Go.index (bits b1) (Z.quot index 8);
  Ret (negb (Z.land v (bit index) =? 0)).

Definition Size (b : Bitmap) : Z := size b.

(** [bits.OnesCount8]: the number of one bits of a byte. *)
Definition OnesCount8 (x : Z) : Z :=
  Z.b2z (Z.testbit x 0) + Z.b2z (Z.testbit x 1) + Z.b2z (Z.testbit x 2) +
  Z.b2z (Z.testbit x 3) + Z.b2z (Z.testbit x 4) + Z.b2z (Z.testbit x 5) +
  Z.b2z (Z.testbit x 6) + Z.b2z (Z.testbit x 7).

Definition Count (b : Bitmap) : go Z :=
  b1 ← Lock b;
  Ret (fold_left (λ count byteVal, count + OnesCount8 byteVal) (bits b1) 0).

(** The indexes at which [IsSet] answers true. *)
Definition is_set (b : Bitmap) (i : Z) : bool :=
  match IsSet b i with
  | Ret true => true
  | _ => false
  end.

Definition set_indexes (b : Bitmap) : list Z :=
  filter (λ i, is_set b i = true) (seqZ 0 (size b)).

(** Bitmaps obtained from the constructor by [Set] and [Clear]. *)
Inductive constructed (n : Z) : Bitmap → Prop :=
| constructed_new b :
    NewBitmap n = Ret b → constructed n b
| constructed_set b i b' :
    constructed n b → Set_ b i = Ret b' → constructed n b'
| constructed_clear b i b' :
    constructed n b → Clear b i = Ret b' → constructed n b'.

(** What every bitmap built by the package satisfies: the mutex is free
    between calls and the byte array has [ceil(size/8)] cells. *)
Definition wf (n : Z) (b : Bitmap) : Prop :=
  mutex b = false ∧ size b = n ∧ 0 <= n ∧
  Z.of_nat (length (bits b)) = (n + 7) / 8.

(** The bit the package stores for [i]. *)
Definition get (b : Bitmap) (i : Z) : bool :=
  Z.testbit (bits b !!! Z.to_nat (i / 8)) (i mod 8).

End bitmap.

(** ** Package bloom *)

Module bloom.

Import bitmap.

(** *** hash/fnv, 32 bit: FNV-1a ([New32a]) and FNV-1 ([New32]) *)

Definition offset32 : Z := 2166136261.
Definition prime32 : Z := 16777619.

Definition byteZ (c : Byte.byte) : Z := Z.of_N (Byte.to_N c).

Definition sum32a (data : list Byte.byte) : Z :=
  fold_left (fun hash c => wrap32u (Z.lxor hash (byteZ c) * prime32)) data offset32.

Definition sum32 (data : list Byte.byte) : Z :=
  fold_left (fun hash c => Z.lxor (wrap32u (hash * prime32)) (byteZ c)) data offset32.

(** *** Byte-keyed filter *)

Record BloomFilter : Type := mkBloomFilter {
  bitmap : Bitmap;
  hashFunc : list (list Byte.byte → Z);
  size : Z
}.

(** The two base hashes; [idx] is [i % 2]. *)
Definition base (idx : Z) (data : list Byte.byte) : Z :=
  if idx =? 0 then sum32a data else sum32 data.

Definition createHashFunctions (k : Z) : list (list Byte.byte → Z) :=
  map (fun i data => wrap32u (base (i mod 2) data * wrap32u (i / 2 + 1)))
      (seqZ 0 k).

(** [New] after [estimateParameters] has produced [(m, k)]: the
    floating-point derivation of the two numbers from [(n, p)] is not part
    of the embedding, every [uint32] pair is admitted. *)
Definition New_mk (m k : Z) : go BloomFilter :=
  let k := if k >? 8 then 8 else k in
  bm ← NewBitmap m;
  Ret (mkBloomFilter bm (createHashFunctions k) m).

(** [x % y] on [uint32]. *)
Definition umod (x y : Z) : go Z :=
  if y =? 0 then Panic "integer divide by zero" else Ret (x mod y).

Fixpoint Add_loop (fns : list (list Byte.byte → Z)) (bm : Bitmap) (sz : Z)
  (data : list Byte.byte) : go Bitmap :=
  match fns with
  | [] => Ret bm
  | fn :: rest =>
      h ← umod (fn data) sz;
      bm' ← Set_ bm h;
      Add_loop rest bm' sz data
  end.

Definition Add (bf : BloomFilter) (data : list Byte.byte) : go BloomFilter :=
  bm ← Add_loop (hashFunc bf) (bitmap bf) (size bf) data;
  Ret (mkBloomFilter bm (hashFunc bf) (size bf)).

Fixpoint Contains_loop (fns : list (list Byte.byte → Z)) (bm : Bitmap) (sz : Z)
  (data : list Byte.byte) : go bool :=
  match fns with
  | [] => Ret true
  | fn :: rest =>
      h ← umod (fn data) sz;
      b ← IsSet bm h;
      if (b : bool) then Contains_loop rest bm sz data else Ret false
  end.

Definition Contains (bf : BloomFilter) (data : list Byte.byte) : go bool :=
  Contains_loop (hashFunc bf) (bitmap bf) (size bf) data.

(** A run of [Add] calls, left to right. *)
Fixpoint AddAll (bf : BloomFilter) (ds : list (list Byte.byte)) : go BloomFilter :=
  match ds with
  | [] => Ret bf
  | d :: rest => bf' ← Add bf d; AddAll bf' rest
  end.

(** *** int64-keyed filter *)

Record Int64BloomFilter : Type := mkInt64BloomFilter {
  bitmap64 : Bitmap;
  hashFunc64 : list (Z → Z);
  size64 : Z
}.

Definition base64 (idx : Z) (data : Z) : Z :=
  if idx =? 0 then wrap32u (Z.shiftr (wrap64u data) 32)
  else if idx =? 1 then wrap32u data
  else Z.lxor (wrap32u (Z.shiftr (wrap64u data) 16)) (wrap32u data).

Definition createInt64HashFunctions (k : Z) : list (Z → Z) :=
  map (fun i data => wrap32u (base64 (i mod 3) data * wrap32u (i / 3 + 1)))
      (seqZ 0 k).

Definition NewInt64Bloom_mk (m k : Z) : go Int64BloomFilter :=
  let k := if k >? 8 then 8 else k in
  bm ← NewBitmap m;
  Ret (mkInt64BloomFilter bm (createInt64HashFunctions k) m).

Fixpoint Add64_loop (fns : list (Z → Z)) (bm : Bitmap) (sz : Z) (data : Z)
  : go Bitmap :=
  match fns with
  | [] => Ret bm
  | fn :: rest =>
      h ← umod (fn data) sz;
      bm' ← Set_ bm h;
      Add64_loop rest bm' sz data
  end.

Definition Add64 (bf : Int64BloomFilter) (data : Z) : go Int64BloomFilter :=
  bm ← Add64_loop (hashFunc64 bf) (bitmap64 bf) (size64 bf) data;
  Ret (mkInt64BloomFilter bm (hashFunc64 bf) (size64 bf)).

(** The inner loop of [AddMany]: every hash function writes the same slot
    [indexes[i]]. *)
Fixpoint AddMany_inner (fns : list (Z → Z)) (sz : Z) (d : Z) (i : Z)
  (indexes : list Z) : go (list Z) :=
  match fns with
  | [] => Ret indexes
  | fn :: rest =>
      h ← umod (fn d) sz;
      indexes' ← store indexes i h;
      AddMany_inner rest sz d i indexes'
  end.

Fixpoint AddMany_outer (fns : list (Z → Z)) (sz : Z) (data : list Z) (i : Z)
  (indexes : list Z) : go (list Z) :=
  match data with
  | [] => Ret indexes
  | d :: rest =>
      indexes' ← AddMany_inner fns sz d i indexes;
      AddMany_outer fns sz rest (i + 1) indexes'
  end.

(** The slice handed to [MSet]. *)
Definition AddMany_indexes (bf : Int64BloomFilter) (data : list Z) : go (list Z) :=
  indexes ← make 0 (Z.of_nat (length data));
  AddMany_outer (hashFunc64 bf) (size64 bf) data 0 indexes.

Definition AddMany (bf : Int64BloomFilter) (data : list Z) : go Int64BloomFilter :=
  indexes ← AddMany_indexes bf data;
  bm ← MSet (bitmap64 bf) indexes;
  Ret (mkInt64BloomFilter bm (hashFunc64 bf) (size64 bf)).

Fixpoint Contains64_loop (fns : list (Z → Z)) (bm : Bitmap) (sz : Z) (data : Z)
  : go bool :=
  match fns with
  | [] => Ret true
  | fn :: rest =>
      h ← umod (fn data) sz;
      b ← IsSet bm h;
      if (b : bool) then Contains64_loop rest bm sz data else Ret false
  end.

Definition Contains64 (bf : Int64BloomFilter) (data : Z) : go bool :=
  Contains64_loop (hashFunc64 bf) (bitmap64 bf) (size64 bf) data.

(** [Add] once for each element, left to right. *)
Fixpoint AddEach (bf : Int64BloomFilter) (ds : list Z) : go Int64BloomFilter :=
  match ds with
  | [] => Ret bf
  | d :: rest => bf' ← Add64 bf d; AddEach bf' rest
  end.

(** Filters the constructor and [Add] produce. *)
Definition wf_filter (m : Z) (bf : BloomFilter) : Prop :=
  wf m (bitmap bf) ∧ size bf = m.

(** Likewise for the int64-keyed filter, and index slices in range. *)
Definition wf_filter64 (m : Z) (bf : Int64BloomFilter) : Prop :=
  wf m (bitmap64 bf) ∧ size64 bf = m.

Definition in_range (m : Z) (indexes : list Z) : Prop :=
  Forall (λ h, 0 <= h < m) indexes.

End bloom.

(** ** Package strconv of the Go library, base 10 and 64 bits *)

Module strconv.

Definition digit (d : Z) : ascii := ascii_of_N (Z.to_N (48 + d)).

Definition code (c : ascii) : Z := Z.of_N (N_of_ascii c).

(** The digits of [formatBits], least significant first, as its loop
    [for u >= b { q := u / b; a[i] = digits[u-q*b]; u = q }] with the last
    digit after it writes them; the base 10 path of the library emits the
    same digits two at a time.  Twenty rounds cover every [uint64]. *)
Fixpoint formatBits (fuel : nat) (u : Z) (acc : string) : string :=
  match fuel with
  | O => acc
  | S fuel' =>
      if u <? 10 then String (digit u) acc
      else formatBits fuel' (u / 10) (String (digit (u mod 10)) acc)
  end.

Definition FormatUint (u : Z) : string := formatBits 20 u "".

Definition FormatInt (i : Z) : string :=
  if i <? 0 then String "-" (FormatUint (wrap64u (- i))) else FormatUint i.

Definition Itoa (i : Z) : string := FormatInt i.

Inductive NumError : Type := ErrSyntax | ErrRange.

Definition maxUint64 : Z := 2 ^ 64 - 1.

(** The loop of [ParseUint] for base 10: letters and every other byte
    are syntax errors, the two overflow checks are range errors. *)
Fixpoint ParseUint_loop (s : string) (n : Z) : NumError + Z :=
  match s with
  | EmptyString => inr n
  | String c rest =>
      if (48 <=? code c) && (code c <=? 57) then
        let d := code c - 48 in
        if n >=? maxUint64 / 10 + 1 then inl ErrRange
        else
          let n10 := wrap64u (n * 10) in
          let n1 := wrap64u (n10 + d) in
          if (n1 <? n10) || (n1 >? maxUint64) then inl ErrRange
          else ParseUint_loop rest n1
      else inl ErrSyntax
  end.

Definition ParseUint (s : string) : NumError + Z :=
  match s with
  | EmptyString => inl ErrSyntax
  | _ => ParseUint_loop s 0
  end.

Definition ParseInt (s : string) : go Z :=
  match s with
  | EmptyString => Err "strconv.ParseInt: invalid syntax"
  | String c rest =>
      let neg := bool_decide (c = "-"%char) in
      let s' := if bool_decide (c = "+"%char) || neg then rest else s in
      match ParseUint s' with
      | inl ErrSyntax => Err "strconv.ParseInt: invalid syntax"
      | inl ErrRange => Err "strconv.ParseInt: value out of range"
      | inr un =>
          let cutoff := 2 ^ 63 in
          if negb neg && (un >=? cutoff)
          then Err "strconv.ParseInt: value out of range"
          else if neg && (un >? cutoff)
          then Err "strconv.ParseInt: value out of range"
          else let n := wrap64s un in
               Ret (if neg then wrap64s (- n) else n)
      end
  end.

End strconv.

(** ** Package id *)

Module id.

Definition idStrLen : Z := 18.
Definition salt : string := "vulcan2020".
Definition zoneBit : Z := 8.
Definition MaxZone : Z := Z.shiftl 1 zoneBit - 1.

Definition CombineZoneId (zoneId zone : Z) : Z :=
  Z.land (wrap64s (Z.shiftl zoneId zoneBit)) zone.

Definition SplitId (id : Z) : Z * Z :=
  (Z.shiftr id zoneBit, wrap8u (Z.land id MaxZone)).

(** [strings.IndexRune(str, '-') == 0] *)
Definition leading_minus (str : string) : bool :=
  match str with
  | String c _ => bool_decide (c = "-"%char)
  | EmptyString => false
  end.

Section Codec.

(** The two entry points of the hashids instance [h] built by [init] with
    [salt] and [idStrLen]; the library is not part of the repository. *)
Variable EncodeInt64 : list Z → go string.
Variable DecodeInt64WithError : string → go (list Z).

Definition EncodeId (id : Z) : go string :=
  if id <? 0 then Ret (strconv.FormatInt id)
  else match EncodeInt64 [id] with
       | Ret str => Ret str
       | Err e => Err ("HashID encode failed: " +:+ e)
       | Panic p => Panic p
       | Blocked => Blocked
       end.

Definition DecodeId (str : string) : go Z :=
  if leading_minus str then strconv.ParseInt str
  else match DecodeInt64WithError str with
       | Ret [] => Err "HashID decode failed."
       | Ret (id :: _) => Ret id
       | Err e => Err ("HashID decode failed: " +:+ e)
       | Panic p => Panic p
       | Blocked => Blocked
       end.

End Codec.

(** A stand-in for the codec, enough to run [EncodeId] and [DecodeId]:
    one marker byte followed by the decimal digits. *)
Definition plain_encode (ns : list Z) : go string :=
  match ns with
  | [n] => if n <? 0 then Err "negative number not supported"
           else Ret (String "n" (strconv.FormatUint n))
  | _ => Err "exactly one number expected"
  end.

Definition plain_decode (s : string) : go (list Z) :=
  match s with
  | EmptyString => Ret []
  | String _ rest =>
      match strconv.ParseUint rest with
      | inr n => Ret [n]
      | inl _ => Err "mismatch between encode and decode"
      end
  end.

End id.

(** ** Package strmap *)

Module strmap.

Definition defaultShardCount : Z := 32.

Definition offset32 : Z := 2166136261.
Definition prime32 : Z := 16777619.

Fixpoint fnv32_loop (key : string) (hash : Z) : Z :=
  match key with
  | EmptyString => hash
  | String c rest =>
      fnv32_loop rest (wrap32u (Z.lxor hash (strconv.code c) * prime32))
  end.

Definition fnv32 (key : string) : Z := fnv32_loop key offset32.

Record Options : Type := mkOptions { ShardCount : Z }.

Section Map.

(** The values stored, [interface{}] in the source. *)
Context {V : Type}.

(** A shard; its [RWMutex] is taken and released around every access
    below and is free between calls. *)
Record mapShard : Type := mkShard { items : gmap string V }.

(** A slice of shard pointers: a write through [m[i]] is an update of
    cell [i]. *)
Definition ConcurrentMap : Type := list mapShard.

Definition NewWithOptions (opts : Options) : ConcurrentMap :=
  let shardCount :=
    if ShardCount opts >? 0 then ShardCount opts else defaultShardCount in
  replicate (Z.to_nat shardCount) (mkShard ∅).

Definition New : ConcurrentMap :=
  replicate (Z.to_nat defaultShardCount) (mkShard ∅).

(** [getShard]: the index it computes and the shard found there. *)
Definition getShard (m : ConcurrentMap) (key : string) : go (Z * mapShard) :=
  let i := fnv32 key mod defaultShardCount in
  shard ← index m i;
  Ret (i, shard).

Definition Set_ (m : ConcurrentMap) (key : string) (value : V)
  : go ConcurrentMap :=
  '(i, shard) ← getShard m key;
  store m i (mkShard (<[key := value]> (items shard))).

Definition Get (m : ConcurrentMap) (key : string) : go (option V) :=
  '(_, shard) ← getShard m key;
  Ret (items shard !! key).

Definition Has (m : ConcurrentMap) (key : string) : go bool :=
  '(_, shard) ← getShard m key;
  Ret (bool_decide (is_Some (items shard !! key))).

Definition Remove (m : ConcurrentMap) (key : string) : go ConcurrentMap :=
  '(i, shard) ← getShard m key;
  store m i (mkShard (delete key (items shard))).

Definition GetOrSet (m : ConcurrentMap) (key : string) (value : V)
  : go (V * ConcurrentMap) :=
  '(i, shard) ← getShard m key;
  match items shard !! key with
  | Some val => Ret (val, m)
  | None =>
      m' ← store m i (mkShard (<[key := value]> (items shard)));
      Ret (value, m')
  end.

Definition Upsert (m : ConcurrentMap) (key : string) (value : V)
  (cb : option V → V → V) : go (V * ConcurrentMap) :=
  '(i, shard) ← getShard m key;
  let res := cb (items shard !! key) value in
  m' ← store m i (mkShard (<[key := res]> (items shard)));
  Ret (res, m').

Definition SetIfAbsent (m : ConcurrentMap) (key : string) (value : V)
  : go (bool * ConcurrentMap) :=
  '(i, shard) ← getShard m key;
  match items shard !! key with
  | Some _ => Ret (false, m)
  | None =>
      m' ← store m i (mkShard (<[key := value]> (items shard)));
      Ret (true, m')
  end.

Definition RemoveCb (m : ConcurrentMap) (key : string)
  (cb : string → option V → bool) : go (bool * ConcurrentMap) :=
  '(i, shard) ← getShard m key;
  let remove := cb key (items shard !! key) in
  if remove && bool_decide (is_Some (items shard !! key))
  then m' ← store m i (mkShard (delete key (items shard))); Ret (remove, m')
  else Ret (remove, m).

Definition Pop (m : ConcurrentMap) (key : string)
  : go (option V * ConcurrentMap) :=
  '(i, shard) ← getShard m key;
  m' ← store m i (mkShard (delete key (items shard)));
  Ret (items shard !! key, m').

(** [for i := 0; i < defaultShardCount; i++ { count += len(m[i].items) }] *)
Fixpoint Count_loop (m : ConcurrentMap) (ixs : list Z) (count : Z) : go Z :=
  match ixs with
  | [] => Ret count
  | i :: rest =>
      shard ← index m i;
      Count_loop m rest (count + Z.of_nat (size (items shard)))
  end.

Definition Count (m : ConcurrentMap) : go Z :=
  Count_loop m (seqZ 0 defaultShardCount) 0.

Definition IsEmpty (m : ConcurrentMap) : go bool :=
  count ← Count m; Ret (count =? 0).

(** [MSet] starts one goroutine for each entry of [data], each calling
    [Set]; a [Set] holds the lock of its shard while it writes, so a run
    of [MSet] is the [Set]s of the entries in some order. *)
Fixpoint Set_each (m : ConcurrentMap) (entries : list (string * V))
  : go ConcurrentMap :=
  match entries with
  | [] => Ret m
  | (key, value) :: rest => m' ← Set_ m key value; Set_each m' rest
  end.

Definition MSet (m : ConcurrentMap) (data : gmap string V)
    (m' : ConcurrentMap) : Prop :=
  ∃ order, order ≡ₚ map_to_list data ∧ Set_each m order = Ret m'.

(** [MGet] starts one goroutine for each key; each calls [Get] and, when
    a value is there, writes it to [result] under the mutex; a run is
    those steps in some order. *)
Fixpoint Get_each (m : ConcurrentMap) (keys : list string)
    (result : gmap string V) : go (gmap string V) :=
  match keys with
  | [] => Ret result
  | key :: rest =>
      r ← Get m key;
      Get_each m rest
        (match r with Some val => <[key := val]> result | None => result end)
  end.

Definition MGet (m : ConcurrentMap) (keys : list string)
    (result : gmap string V) : Prop :=
  ∃ order, order ≡ₚ keys ∧ Get_each m order ∅ = Ret result.

(** [Clear] starts one goroutine for each shard, each giving its own
    shard a new empty map. *)
Definition Clear (m : ConcurrentMap) : ConcurrentMap :=
  (λ _, mkShard ∅) <$> m.

(** Calls that change the map, for runs of them, and what a run does to
    a plain finite map. *)
Inductive map_op : Type :=
| OpSet (key : string) (value : V)
| OpRemove (key : string)
| OpSetIfAbsent (key : string) (value : V)
| OpPop (key : string).

Definition do_op (m : ConcurrentMap) (op : map_op) : go ConcurrentMap :=
  match op with
  | OpSet key value => Set_ m key value
  | OpRemove key => Remove m key
  | OpSetIfAbsent key value => r ← SetIfAbsent m key value; Ret r.2
  | OpPop key => r ← Pop m key; Ret r.2
  end.

Fixpoint do_ops (m : ConcurrentMap) (ops : list map_op) : go ConcurrentMap :=
  match ops with
  | [] => Ret m
  | op :: rest => m' ← do_op m op; do_ops m' rest
  end.

Definition model_op (g : gmap string V) (op : map_op) : gmap string V :=
  match op with
  | OpSet key value => <[key := value]> g
  | OpRemove key => delete key g
  | OpSetIfAbsent key value =>
      match g !! key with Some _ => g | None => <[key := value]> g end
  | OpPop key => delete key g
  end.

Definition model (ops : list map_op) : gmap string V :=
  fold_left model_op ops ∅.

(** The shards a finite map [g] is spread over: shard [i] holds the keys
    whose hash selects [i]. *)
Definition shard_of (g : gmap string V) (i : nat) : mapShard :=
  mkShard (filter (λ kv, Z.to_nat (fnv32 kv.1 mod defaultShardCount) = i) g).

Definition shards_of (g : gmap string V) : ConcurrentMap :=
  shard_of g <$> seq 0 (Z.to_nat defaultShardCount).

End Map.

Arguments mapShard : clear implicits.
Arguments ConcurrentMap : clear implicits.
Arguments map_op : clear implicits.

End strmap.

(** ** Package aes *)

Module aes.

Abbreviation byte := Byte.byte.

(** [byte(n)] and [int(b)]. *)
Definition byte_of_Z (n : Z) : byte :=
  match Byte.of_N (Z.to_N (wrap8u n)) with
  | Some b => b
  | None => Byte.x00
  end.

Definition Z_of_byte (b : byte) : Z := Z.of_N (Byte.to_N b).

Definition xor_byte (a b : byte) : byte :=
  let '(a0, (a1, (a2, (a3, (a4, (a5, (a6, a7))))))) := Byte.to_bits a in
  let '(b0, (b1, (b2, (b3, (b4, (b5, (b6, b7))))))) := Byte.to_bits b in
  Byte.of_bits (xorb a0 b0, (xorb a1 b1, (xorb a2 b2, (xorb a3 b3,
               (xorb a4 b4, (xorb a5 b5, (xorb a6 b6, xorb a7 b7))))))).

(** [subtle.XORBytes]: as many bytes as the shorter operand has. *)
Definition XORBytes (x y : list byte) : list byte := zip_with xor_byte x y.

(** [cipher.Block]: the block size and the two single-block maps. *)
Record Block : Type := mkBlock {
  BlockSize : Z;
  Encrypt_block : list byte → list byte;
  Decrypt_block : list byte → list byte
}.

(** [s[:n]] on a slice whose capacity is its length. *)
Definition slice_to {A} (s : list A) (n : Z) : go (list A) :=
  if (n <? 0) || (Z.of_nat (length s) <? n)
  then Panic "slice bounds out of range"
  else Ret (take (Z.to_nat n) s).

(** [a % b] on [int]. *)
Definition irem (a b : Z) : go Z :=
  if b =? 0 then Panic "integer divide by zero" else Ret (Z.rem a b).

(** *** crypto/cipher, CBC mode *)

Record cbc : Type := mkCbc { cbc_b : Block; cbc_iv : list byte }.

Definition NewCBCEncrypter (b : Block) (iv : list byte) : go cbc :=
  if Z.of_nat (length iv) =? BlockSize b then Ret (mkCbc b iv)
  else Panic "cipher.NewCBCEncrypter: IV length must equal block size".

Definition NewCBCDecrypter (b : Block) (iv : list byte) : go cbc :=
  if Z.of_nat (length iv) =? BlockSize b then Ret (mkCbc b iv)
  else Panic "cipher.NewCBCDecrypter: IV length must equal block size".

(** The block loops; [n] is the number of blocks of [src]. *)
Fixpoint encrypt_blocks (n : nat) (b : Block) (iv src : list byte) : list byte :=
  match n with
  | O => []
  | S n' =>
      let bs := Z.to_nat (BlockSize b) in
      let c := Encrypt_block b (XORBytes (take bs src) iv) in
      c ++ encrypt_blocks n' b c (drop bs src)
  end.

Fixpoint decrypt_blocks (n : nat) (b : Block) (prev src : list byte) : list byte :=
  match n with
  | O => []
  | S n' =>
      let bs := Z.to_nat (BlockSize b) in
      let c := take bs src in
      XORBytes (Decrypt_block b c) prev ++ decrypt_blocks n' b c (drop bs src)
  end.

(** [CryptBlocks(dst, src)] with [len(dst) = len(src)]. *)
Definition CryptBlocks (enc : bool) (x : cbc) (src : list byte) : go (list byte) :=
  let len := Z.of_nat (length src) in
  r ← irem len (BlockSize (cbc_b x));
  if negb (r =? 0) then Panic "crypto/cipher: input not full blocks"
  else
    let n := Z.to_nat (len / BlockSize (cbc_b x)) in
    Ret (if enc then encrypt_blocks n (cbc_b x) (cbc_iv x) src
         else decrypt_blocks n (cbc_b x) (cbc_iv x) src).

(** *** The package *)

Definition pkcs7Padding (ciphertext : list byte) (blockSize : Z) : go (list byte) :=
  r ← irem (Z.of_nat (length ciphertext)) blockSize;
  let padding := blockSize - r in
  if padding <? 0 then Panic "bytes: negative Repeat count"
  else Ret (ciphertext ++ replicate (Z.to_nat padding) (byte_of_Z padding)).

Definition pkcs7UnPadding (origData : list byte) : go (list byte) :=
  let length := Z.of_nat (length origData) in
  last ← index origData (length - 1);
  let unPadding := Z_of_byte last in
  if (unPadding <=? 0) || (unPadding >? length)
  then Err "[aes.pkcs7UnPadding] length error"
  else slice_to origData (length - unPadding).

(** [block] is [None] for a nil interface value. *)
Definition Encrypt (key : list byte) (block : option Block) (org : list byte)
  : go (list byte) :=
  match block with
  | None => Err "[aes.Encrypt] block is nil"
  | Some block =>
      if Z.of_nat (length key) <=? 0 then Err "[aes.Encrypt] key is empty"
      else if Z.of_nat (length org) <=? 0 then Err "[aes.Encrypt] org is empty"
      else
        let blockSize := BlockSize block in
        org' ← pkcs7Padding org blockSize;
        iv ← slice_to key blockSize;
        blockMode ← NewCBCEncrypter block iv;
        CryptBlocks true blockMode org'
  end.

Definition Decrypt (key : list byte) (block : option Block) (ser : list byte)
  : go (list byte) :=
  if Z.of_nat (length key) <=? 0 then Err "[aes.Decrypt] key is empty"
  else match block with
       | None => Panic "invalid memory address or nil pointer dereference"
       | Some block =>
           let blockSize := BlockSize block in
           iv ← slice_to key blockSize;
           blockMode ← NewCBCDecrypter block iv;
           org ← CryptBlocks false blockMode ser;
           pkcs7UnPadding org
       end.

Section Cipher.

(** The AES key schedule of crypto/aes, for keys of 16, 24 or 32 bytes. *)
Variable aes_cipher : list byte → Block.

Definition NewCipher (key : list byte) : go Block :=
  let k := Z.of_nat (length key) in
  if (k =? 16) || (k =? 24) || (k =? 32) then Ret (aes_cipher key)
  else Err "crypto/aes: invalid key size".

Definition NewBlock (key : list byte) : go Block :=
  match NewCipher key with
  | Err e => Err ("[aes.NewBlock] aes.NewCipher failed: " +:+ e)
  | r => r
  end.

End Cipher.

(** What the package takes for granted of an AES block: 16-byte blocks,
    both maps keep that length, and decryption undoes encryption. *)
Definition block_valid (b : Block) : Prop :=
  BlockSize b = 16 ∧
  ∀ blk, length blk = 16%nat →
    length (Encrypt_block b blk) = 16%nat ∧
    length (Decrypt_block b blk) = 16%nat ∧
    Decrypt_block b (Encrypt_block b blk) = blk.

(** A stand-in block cipher, enough to run the package: the block xored
    with the first 16 key bytes. *)
Definition xor_cipher (key : list byte) : Block :=
  mkBlock 16 (λ blk, XORBytes blk (take 16 key)) (λ blk, XORBytes blk (take 16 key)).

End aes.

(** ** Package consistenthash *)

Module consistenthash.

Definition DefaultVirtualSpots : Z := 160.

(** [sort.Search]: the binary search of the Go library.  The interval
    [[i, j)] shrinks in every round, so [n] rounds are enough. *)
Fixpoint Search_loop (fuel : nat) (f : Z → go bool) (i j : Z) : go Z :=
  match fuel with
  | O => Ret i
  | S fuel' =>
      if i <? j then
        let h := Z.shiftr (wrap64u (i + j)) 1 in
        b ← f h;
        if (b : bool) then Search_loop fuel' f i h
        else Search_loop fuel' f (h + 1) j
      else Ret i
  end.

Definition Search (n : Z) (f : Z → go bool) : go Z :=
  Search_loop (Z.to_nat n) f 0 n.

(** Calls on a ring, for runs of them. *)
Inductive ring_op : Type :=
| OpAddNode (nodeName : string)
| OpRemoveNode (nodeName : string).

(** *** Ring with string keys *)

Module HashRing.

Record ringNode : Type := mkRingNode {
  nodeName : string;
  key : string;
  hash : Z
}.

(** [Less] of [ringNodes], non-strict. *)
Definition hash_le (a b : ringNode) : Prop := hash a <= hash b.

(** The lock and the hasher pool carry no data. *)
Record HashRing : Type := mkHashRing {
  virtualSpots : Z;
  nodes : list ringNode
}.

Section Ring.

(** [Sum64] of murmur3 and [sort.Sort] on [ringNodes]. *)
Variable Sum64 : string → Z.
Variable Sort : list ringNode → list ringNode.

(** The last four bytes of the big-endian sum. *)
Definition position (s : string) : Z := wrap32u (Sum64 s).

Definition NewRing (virtualSpots : Z) : HashRing :=
  mkHashRing (if virtualSpots <=? 0 then DefaultVirtualSpots else virtualSpots) [].

Definition virtualNode (nodeName : string) (i : Z) : ringNode :=
  let key := nodeName +:+ ":" +:+ strconv.Itoa i in
  mkRingNode nodeName key (position key).

Definition AddNode (h : HashRing) (nodeName : string) : HashRing :=
  let nodes' := virtualNode nodeName <$> seqZ 0 (virtualSpots h) in
  mkHashRing (virtualSpots h) (Sort (nodes h ++ nodes')).

Definition RemoveNode (h : HashRing) (name : string) : HashRing :=
  mkHashRing (virtualSpots h)
    (filter (λ n, nodeName n ≠ name) (nodes h)).

Definition GetNode (h : HashRing) (key : string) : go (string * bool) :=
  let len := Z.of_nat (length (nodes h)) in
  if len =? 0 then Ret (""%string, false)
  else
    let targetHash := position key in
    idx ← Search len (λ i, n ← index (nodes h) i; Ret (hash n >=? targetHash));
    let idx := if idx =? len then 0 else idx in
    n ← index (nodes h) idx;
    Ret (nodeName n, true).

Definition step (h : HashRing) (op : ring_op) : HashRing :=
  match op with
  | OpAddNode name => AddNode h name
  | OpRemoveNode name => RemoveNode h name
  end.

Definition run (virtualSpots : Z) (ops : list ring_op) : HashRing :=
  fold_left step ops (NewRing virtualSpots).

End Ring.

End HashRing.

(** *** Ring with int64 keys *)

Module Int64HashRing.

Record int64RingNode : Type := mkInt64RingNode {
  nodeName : string;
  key : Z;
  hash : Z
}.

Definition hash_le (a b : int64RingNode) : Prop := hash a <= hash b.

Record Int64HashRing : Type := mkInt64HashRing {
  virtualSpots : Z;
  nodes : list int64RingNode
}.

Section Ring.

Variable Sum64 : string → Z.
Variable Sort : list int64RingNode → list int64RingNode.

Definition NewInt64Ring (virtualSpots : Z) : Int64HashRing :=
  mkInt64HashRing
    (if virtualSpots <=? 0 then DefaultVirtualSpots else virtualSpots) [].

Definition virtualNode (nodeName : string) (i : Z) : int64RingNode :=
  let keyStr := nodeName +:+ ":" +:+ strconv.Itoa i in
  let hash64 := Sum64 keyStr in
  mkInt64RingNode nodeName (wrap64s hash64) hash64.

Definition AddNode (h : Int64HashRing) (nodeName : string) : Int64HashRing :=
  let nodes' := virtualNode nodeName <$> seqZ 0 (virtualSpots h) in
  mkInt64HashRing (virtualSpots h) (Sort (nodes h ++ nodes')).

Definition RemoveNode (h : Int64HashRing) (name : string) : Int64HashRing :=
  mkInt64HashRing (virtualSpots h)
    (filter (λ n, nodeName n ≠ name) (nodes h)).

Definition GetNode (h : Int64HashRing) (key : Z) : go (string * bool) :=
  let len := Z.of_nat (length (nodes h)) in
  if len =? 0 then Ret (""%string, false)
  else
    let targetHash := wrap64u key in
    idx ← Search len (λ i, n ← index (nodes h) i; Ret (hash n >=? targetHash));
    let idx := if idx =? len then 0 else idx in
    n ← index (nodes h) idx;
    Ret (nodeName n, true).

Definition step (h : Int64HashRing) (op : ring_op) : Int64HashRing :=
  match op with
  | OpAddNode name => AddNode h name
  | OpRemoveNode name => RemoveNode h name
  end.

Definition run (virtualSpots : Z) (ops : list ring_op) : Int64HashRing :=
  fold_left step ops (NewInt64Ring virtualSpots).

End Ring.

End Int64HashRing.

(** The owner the routing rule names for a target position, over the
    pairs [(hash, nodeName)] of a ring: a node of least hash among those
    at or after the target, or of least hash overall when none is. *)
Definition owner_of (ring : list (Z * string)) (target : Z) (owner : string)
  : Prop :=
  ∃ h, (h, owner) ∈ ring ∧
    if bool_decide (Exists (λ n, target <= n.1) ring)
    then target <= h ∧ Forall (λ n, target <= n.1 → h <= n.1) ring
    else Forall (λ n, h <= n.1) ring.

Definition ring_pairs (h : HashRing.HashRing) : list (Z * string) :=
  (λ nd, (HashRing.hash nd, HashRing.nodeName nd)) <$> HashRing.nodes h.

Definition int64_ring_pairs (h : Int64HashRing.Int64HashRing)
  : list (Z * string) :=
  (λ nd, (Int64HashRing.hash nd, Int64HashRing.nodeName nd))
    <$> Int64HashRing.nodes h.

#[global] Instance ring_hash_le_dec : RelDecision HashRing.hash_le :=
  λ a b, decide (HashRing.hash a <= HashRing.hash b).

#[global] Instance int64_ring_hash_le_dec : RelDecision Int64HashRing.hash_le :=
  λ a b, decide (Int64HashRing.hash a <= Int64HashRing.hash b).

(** The node [GetNode] settles on in a list of nodes ordered by hash: the
    first whose hash is at least the target, or the first of all when no
    hash is. *)
Definition pick {N} (hash : N → Z) (nodes : list N) (target : Z) : option N :=
  match list_find (λ nd, target <= hash nd) nodes with
  | Some (_, nd) => Some nd
  | None => head nodes
  end.

(** The names a run of calls leaves on the ring, one entry for each
    [AddNode] not undone by a later [RemoveNode]. *)
Definition live_step (names : list string) (op : ring_op) : list string :=
  match op with
  | OpAddNode name => names ++ [name]
  | OpRemoveNode name => filter (λ n, n ≠ name) names
  end.

Definition live (ops : list ring_op) : list string :=
  fold_left live_step ops [].

(** A stand-in for murmur3, enough to run the rings. *)
Definition fnv64 (s : string) : Z :=
  fold_left (λ h c, wrap64u (Z.lxor h (strconv.code c) * 1099511628211))
    (list_ascii_of_string s) 14695981039346656037.

End consistenthash.

(** ** Package sync: the stopper *)

Module sync.

(** A [chan struct{}] that is only ever closed: [true] once closed. *)
Definition chan : Type := bool.

Record Stopper : Type := mkStopper {
  stopTrigger : chan;
  stopTriggered : bool;
  stoppingChan : chan;
  isStopping : bool;
  stoppedChan : chan;
  stopTimeout : Z
}.

(** The function handed to [DoStop]: a name, and whether it returns
    before the stop timeout runs out. *)
Record StopFn : Type := mkStopFn {
  fn_name : string;
  fn_in_time : bool
}.

(** What a call does to the world outside its return value. *)
Inductive effect : Type :=
| CloseStopTrigger
| CloseStoppingChan
| Invoke (f : StopFn)
| LogTimeout
| CloseStoppedChan.

#[global] Instance StopFn_eq_dec : EqDecision StopFn.
Proof. solve_decision. Defined.

#[global] Instance effect_eq_dec : EqDecision effect.
Proof. solve_decision. Defined.

(** A stopper together with the effects performed on it so far, oldest
    first.  The two mutexes are free between calls. *)
Definition world : Type := Stopper * list effect.

Definition NewStopper (stopTimeout : Z) : world :=
  (mkStopper false false false false false stopTimeout, []).

(** [close(ch)]: closing a closed channel panics. *)
Definition close (ch : chan) : go chan :=
  if ch then Panic "close of closed channel" else Ret true.

Definition IsStopping (s : Stopper) : bool := isStopping s.

Definition isStopTriggered (s : Stopper) : bool := stopTriggered s.

Definition DoStop (w : world) (f : StopFn) : go world :=
  let '(s, tr) := w in
  if IsStopping s then Ret w
  else
    (* the closure run under [_stoppingLock]; its [return] leaves the
       closure only *)
    '(s1, tr1) ← (if IsStopping s then Ret (s, tr)
                  else
                    c ← close (stoppingChan s);
                    Ret (mkStopper (stopTrigger s) (stopTriggered s) c true
                           (stoppedChan s) (stopTimeout s),
                         tr ++ [CloseStoppingChan]));
    (* [go func() { f(); close(done) }()] and the [select] *)
    let tr2 := tr1 ++ [Invoke f] ++ (if fn_in_time f then [] else [LogTimeout]) in
    (* [defer close(s.stoppedChan)] *)
    c ← close (stoppedChan s1);
    Ret (mkStopper (stopTrigger s1) (stopTriggered s1) (stoppingChan s1)
           (isStopping s1) c (stopTimeout s1),
         tr2 ++ [CloseStoppedChan]).

Definition TriggerStop (w : world) : go world :=
  let '(s, tr) := w in
  if isStopTriggered s then Ret w
  else if isStopTriggered s then Ret w
  else
    c ← close (stopTrigger s);
    Ret (mkStopper c true (stoppingChan s) (isStopping s) (stoppedChan s)
           (stopTimeout s),
         tr ++ [CloseStopTrigger]).

Inductive call : Type :=
| CallTriggerStop
| CallDoStop (f : StopFn).

#[global] Instance call_eq_dec : EqDecision call.
Proof. solve_decision. Defined.

Definition do_call (w : world) (c : call) : go world :=
  match c with
  | CallTriggerStop => TriggerStop w
  | CallDoStop f => DoStop w f
  end.

(** A run of calls, one after the other. *)
Fixpoint calls (w : world) (cs : list call) : go world :=
  match cs with
  | [] => Ret w
  | c :: rest => w' ← do_call w c; calls w' rest
  end.

(** How often an effect occurs in a trace. *)
Definition occurrences (e : effect) (tr : list effect) : nat :=
  length (filter (λ x, x = e) tr).

Definition invocations (tr : list effect) : list StopFn :=
  omap (λ e, match e with Invoke f => Some f | _ => None end) tr.

(** The functions the [DoStop] calls of a run were given, in order. *)
Definition requested (cs : list call) : list StopFn :=
  omap (λ c, match c with CallDoStop f => Some f | _ => None end) cs.

(** What holds of a stopper between calls: each flag says whether its
    channel is closed, and the trace holds one effect per closed channel
    and one invocation if stopping has started. *)
Definition consistent (w : world) : Prop :=
  let '(s, tr) := w in
  let once (b : bool) : nat := if b then 1%nat else 0%nat in
  stopTrigger s = stopTriggered s ∧
  stoppingChan s = isStopping s ∧
  stoppedChan s = isStopping s ∧
  occurrences CloseStopTrigger tr = once (stopTriggered s) ∧
  occurrences CloseStoppingChan tr = once (isStopping s) ∧
  occurrences CloseStoppedChan tr = once (isStopping s) ∧
  length (invocations tr) = once (isStopping s).

(** [<-s.stoppedChan]: a receive from a closed channel returns at once,
    one from an open channel nobody sends on never does. *)
Definition WaitStopped (w : world) : go unit :=
  if stoppedChan w.1 then Ret tt else Blocked.

Definition StopTriggered (w : world) : chan := stopTrigger w.1.

Definition Stopping (w : world) : chan := stoppingChan w.1.

(** *** [DoStop] called from several goroutines *)

(** Where a goroutine stands in [DoStop]: before each of its steps. *)
Inductive point : Type :=
| AtOuterCheck     (* if s.IsStopping() { return } *)
| AtLock           (* s._stoppingLock.Lock() *)
| AtInnerCheck     (* if s.IsStopping() { return }, inside the closure *)
| AtCloseStopping  (* close(s.stoppingChan) *)
| AtStore          (* s.isStopping.Store(true) *)
| AtUnlock         (* the deferred Unlock, where the closure ends *)
| AtRun            (* go func() { f(); close(done) }() and the select *)
| AtCloseStopped   (* the deferred close(s.stoppedChan) *)
| Returned.

Record goroutine : Type := mkGoroutine {
  g_fn : StopFn;
  g_at : point
}.

(** The stopper, whether [_stoppingLock] is held, the effects so far and
    the goroutines inside [DoStop]. *)
Record system : Type := mkSystem {
  sys_stopper : Stopper;
  stoppingLock : bool;
  sys_trace : list effect;
  goroutines : list goroutine
}.

Definition start (w : world) (fs : list StopFn) : system :=
  mkSystem w.1 false w.2 ((λ f, mkGoroutine f AtOuterCheck) <$> fs).

(** One step of goroutine [i].  A goroutine that waits for the lock, has
    returned or does not exist leaves the system as it is. *)
Definition step (sys : system) (i : nat) : go system :=
  match goroutines sys !! i with
  | None => Ret sys
  | Some g =>
      let s := sys_stopper sys in
      let f := g_fn g in
      let goto (p : point) := <[i := mkGoroutine f p]> (goroutines sys) in
      match g_at g with
      | AtOuterCheck =>
          Ret (mkSystem s (stoppingLock sys) (sys_trace sys)
                 (goto (if IsStopping s then Returned else AtLock)))
      | AtLock =>
          if stoppingLock sys then Ret sys
          else Ret (mkSystem s true (sys_trace sys) (goto AtInnerCheck))
      | AtInnerCheck =>
          Ret (mkSystem s (stoppingLock sys) (sys_trace sys)
                 (goto (if IsStopping s then AtUnlock else AtCloseStopping)))
      | AtCloseStopping =>
          c ← close (stoppingChan s);
          Ret (mkSystem
                 (mkStopper (stopTrigger s) (stopTriggered s) c (isStopping s)
                    (stoppedChan s) (stopTimeout s))
                 (stoppingLock sys) (sys_trace sys ++ [CloseStoppingChan])
                 (goto AtStore))
      | AtStore =>
          Ret (mkSystem
                 (mkStopper (stopTrigger s) (stopTriggered s) (stoppingChan s)
                    true (stoppedChan s) (stopTimeout s))
                 (stoppingLock sys) (sys_trace sys) (goto AtUnlock))
      | AtUnlock =>
          Ret (mkSystem s false (sys_trace sys) (goto AtRun))
      | AtRun =>
          Ret (mkSystem s (stoppingLock sys)
                 (sys_trace sys ++ [Invoke f] ++
                  (if fn_in_time f then [] else [LogTimeout]))
                 (goto AtCloseStopped))
      | AtCloseStopped =>
          c ← close (stoppedChan s);
          Ret (mkSystem
                 (mkStopper (stopTrigger s) (stopTriggered s) (stoppingChan s)
                    (isStopping s) c (stopTimeout s))
                 (stoppingLock sys) (sys_trace sys ++ [CloseStoppedChan])
                 (goto Returned))
      | Returned => Ret sys
      end
  end.

(** The goroutines stepping in the order a schedule names them. *)
Fixpoint interleave (sys : system) (schedule : list nat) : go system :=
  match schedule with
  | [] => Ret sys
  | i :: rest => sys' ← step sys i; interleave sys' rest
  end.

(** *** The goroutine id read off a stack dump *)

(** [bytes.HasPrefix(stack, prefix)] and [stack[len(prefix):]] in one:
    what follows the prefix, if it is one. *)
Fixpoint after_prefix (prefix stack : string) : option string :=
  match prefix, stack with
  | EmptyString, _ => Some stack
  | String p prefix', String c stack' =>
      if bool_decide (p = c) then after_prefix prefix' stack' else None
  | String _ _, EmptyString => None
  end.

(** [bytes.IndexByte]: [-1] when the byte does not occur. *)
Fixpoint IndexByte (s : string) (c : ascii) : Z :=
  match s with
  | EmptyString => -1
  | String x rest =>
      if bool_decide (x = c) then 0
      else let i := IndexByte rest c in if i <? 0 then -1 else i + 1
  end.

(** [s[:n]] for [0 <= n <= len(s)]. *)
Fixpoint prefix_of_length (n : nat) (s : string) : string :=
  match n, s with
  | S n', String c rest => String c (prefix_of_length n' rest)
  | _, _ => EmptyString
  end.

(** The digit loop; [None] is its [return 0]. *)
Fixpoint routine_digits (s : string) (id : Z) : option Z :=
  match s with
  | EmptyString => Some id
  | String c rest =>
      if (strconv.code c <? 48) || (strconv.code c >? 57) then None
      else routine_digits rest (wrap64u (id * 10 + wrap8u (strconv.code c - 48)))
  end.

(** [RoutineId] on the text [runtime.Stack] wrote, [buf[:n]]; the test
    helper [parseRoutineID] is the same code. *)
Definition RoutineId (stack : string) : Z :=
  match after_prefix "goroutine " stack with
  | None => 0
  | Some stack' =>
      let end_ := IndexByte stack' " " in
      if end_ =? -1 then 0
      else match routine_digits (prefix_of_length (Z.to_nat end_) stack') 0 with
           | None => 0
           | Some id => id
           end
  end.

End sync.

(** * Properties *)

(** ** Runtime conventions *)

Module GoFacts.

Lemma index_Ret {A} (s : list A) (i : Z) (v : A) :
  0 <= i → s !! Z.to_nat i = Some v → index s i = Ret v.
Proof.
  intros Hi Hl. unfold index.
  destruct (Z.ltb_spec i 0); [lia|]. by rewrite Hl.
Qed.

Lemma store_Ret {A} (s : list A) (i : Z) (v w : A) :
  0 <= i → s !! Z.to_nat i = Some w →
  store s i v = Ret (<[Z.to_nat i := v]> s).
Proof. intros Hi Hl. unfold store. by rewrite (index_Ret s i w). Qed.

Lemma land_pow2_eqb (v r : Z) :
  0 <= r → negb (Z.land v (2 ^ r) =? 0) = Z.testbit v r.
Proof.
  intros Hr. destruct (Z.testbit v r) eqn:Hb.
  - apply negb_true_iff, Z.eqb_neq. intros H0.
    assert (Z.testbit (Z.land v (2 ^ r)) r = false) as Hc
      by (rewrite H0; apply Z.bits_0).
    rewrite Z.land_spec, Hb, Z.pow2_bits_true in Hc by done. done.
  - apply negb_false_iff, Z.eqb_eq. apply Z.bits_inj'. intros k Hk.
    rewrite Z.land_spec, Z.bits_0.
    destruct (decide (k = r)) as [->|Hne]; [by rewrite Hb|].
    rewrite Z.pow2_bits_false by lia. apply andb_false_r.
Qed.

End GoFacts.

(** ** Package bitmap *)

Module bitmapFacts.

Import bitmap GoFacts.

Example bitmap_run :
  (b ← NewBitmap 10; b ← Set_ b 9; b ← Set_ b 0; Clear b 0)
  = Ret (mkBitmap false [0; 2] 10) ∧
  Set_ (mkBitmap false [0; 2] 10) 10 = Panic "bitmap index out of range" ∧
  MSet (mkBitmap false [0; 2] 10) [3] = Blocked.
Proof. vm_compute. done. Qed.

Lemma bit_pow2 (i : Z) : 0 <= i → bit i = 2 ^ (i mod 8).
Proof.
  intros Hi. unfold bit, wrap8u.
  rewrite Z.rem_mod_nonneg by lia.
  rewrite Z.shiftl_1_l.
  assert (0 <= i mod 8 < 8) as Hr by (apply Z.mod_pos_bound; lia).
  apply Z.mod_small. split; [apply Z.pow_nonneg; lia|].
  apply Z.pow_lt_mono_r; lia.
Qed.

Lemma cell_lookup (n : Z) (b : Bitmap) (i : Z) :
  wf n b → 0 <= i < n →
  bits b !! Z.to_nat (i / 8) = Some (bits b !!! Z.to_nat (i / 8)).
Proof.
  intros (_ & _ & Hn & Hlen) Hi.
  apply list_lookup_lookup_total_lt.
  assert (i / 8 < (n + 7) / 8) by (apply Z.div_lt_upper_bound; [lia|];
    pose proof (Z.mul_div_le (n + 7) 8); pose proof (Z.mod_pos_bound (n + 7) 8);
    pose proof (Z.div_mod (n + 7) 8); lia).
  assert (0 <= i / 8) by (apply Z.div_pos; lia). lia.
Qed.

Lemma NewBitmap_wf (n : Z) (b : Bitmap) :
  is_int64 n → NewBitmap n = Ret b → wf n b ∧ bits b = replicate (length (bits b)) 0.
Proof.
  unfold is_int64, NewBitmap, make. intros Hn H.
  destruct (Z.ltb_spec n 0) as [|Hn0]; [discriminate|].
  simpl in H.
  destruct (Z.ltb_spec (wrap64s (n + 7) ÷ 8) 0) as [|Hq]; [discriminate|].
  simpl in H. injection H as <-. simpl.
  assert (wrap64s (n + 7) = n + 7) as Hw.
  { unfold wrap64s in *. destruct (decide (n + 7 < 2 ^ 63)) as [Hlt|Hge].
    - rewrite Z.mod_small by lia. lia.
    - exfalso. assert ((n + 7 + 2 ^ 63) mod 2 ^ 64 = n + 7 + 2 ^ 63 - 2 ^ 64) as He.
      { symmetry. apply (Z.mod_unique _ _ 1); lia. }
      rewrite He in Hq.
      assert ((n + 7 + 2 ^ 63 - 2 ^ 64 - 2 ^ 63) ÷ 8 <= (-8) ÷ 8)
        by (apply Z.quot_le_mono; lia).
      change ((-8) ÷ 8) with (-1) in *. lia. }
  rewrite Hw in *. rewrite Z.quot_div_nonneg in * by lia.
  split; [|by rewrite length_replicate].
  assert (0 <= (n + 7) / 8) by (apply Z.div_pos; lia).
  repeat split; try done. simpl. rewrite length_replicate. lia.
Qed.

Lemma IsSet_get (n : Z) (b : Bitmap) (i : Z) :
  wf n b → 0 <= i < n → IsSet b i = Ret (get b i).
Proof.
  intros Hwf Hi. pose proof (cell_lookup n b i Hwf Hi) as Hc.
  destruct Hwf as (Hm & Hs & Hn & Hlen).
  unfold IsSet, validateIndex, Lock. rewrite Hs, Hm.
  destruct (Z.ltb_spec i 0); [lia|]. destruct (Z.geb_spec i n); [lia|].
  simpl. rewrite Z.quot_div_nonneg by lia.
  assert (0 <= i / 8) by (apply Z.div_pos; lia).
  rewrite (index_Ret _ _ _ H1 Hc). simpl.
  rewrite bit_pow2 by lia. unfold get.
  rewrite land_pow2_eqb; [done|]. apply Z.mod_pos_bound; lia.
Qed.

(** A write of [f old] into the cell of [i], as [Set] and [Clear] do. *)
Lemma update_cell (n : Z) (b : Bitmap) (i : Z) (f : Z → Z) :
  wf n b → 0 <= i < n →
  let b' := mkBitmap false (<[Z.to_nat (i / 8) := f (bits b !!! Z.to_nat (i / 8))]> (bits b)) (size b) in
  wf n b' ∧
  (∀ j, 0 <= j < n → get b' j =
     if decide (j / 8 = i / 8)
     then Z.testbit (f (bits b !!! Z.to_nat (i / 8))) (j mod 8)
     else get b j).
Proof.
  intros Hwf Hi b'. pose proof (cell_lookup n b i Hwf Hi) as Hc.
  destruct Hwf as (Hm & Hs & Hn & Hlen). split.
  - repeat split; simpl; try done. by rewrite length_insert.
  - intros j Hj. unfold get, b'. simpl.
    assert (0 <= i / 8) by (apply Z.div_pos; lia).
    assert (0 <= j / 8) by (apply Z.div_pos; lia).
    case_decide as Hij.
    + rewrite Hij. f_equal. apply list_lookup_total_insert_eq.
      by apply lookup_lt_Some in Hc.
    + f_equal. apply list_lookup_total_insert_ne. lia.
Qed.

Lemma same_cell (i j : Z) : j / 8 = i / 8 → j mod 8 = i mod 8 → j = i.
Proof. intros Hd Hm. rewrite (Z.div_mod i 8), (Z.div_mod j 8) by lia. lia. Qed.

Lemma Set_get (n : Z) (b : Bitmap) (i : Z) :
  wf n b → 0 <= i < n →
  ∃ b', Set_ b i = Ret b' ∧ wf n b' ∧
    ∀ j, 0 <= j < n → get b' j = if decide (j = i) then true else get b j.
Proof.
  intros Hwf Hi. pose proof (cell_lookup n b i Hwf Hi) as Hc.
  destruct (update_cell n b i (fun old => Z.lor old (bit i)) Hwf Hi) as [Hwf' Hget].
  destruct Hwf as (Hm & Hs & Hn & Hlen).
  eexists. split; [|split; [exact Hwf'|]].
  - unfold Set_, validateIndex, Lock. rewrite Hs, Hm.
    destruct (Z.ltb_spec i 0); [lia|]. destruct (Z.geb_spec i n); [lia|].
    simpl. rewrite Z.quot_div_nonneg by lia.
    assert (0 <= i / 8) by (apply Z.div_pos; lia).
    rewrite (index_Ret _ _ _ H1 Hc). simpl.
    rewrite (store_Ret _ _ _ _ H1 Hc). simpl. reflexivity.
  - intros j Hj. rewrite Hget by done.
    assert (0 <= i mod 8 < 8) by (apply Z.mod_pos_bound; lia).
    assert (0 <= j mod 8 < 8) by (apply Z.mod_pos_bound; lia).
    rewrite bit_pow2 by lia.
    case_decide as Hd.
    + rewrite Z.lor_spec. case_decide as Hji.
      * subst j. rewrite Z.pow2_bits_true by lia. apply orb_true_r.
      * rewrite Z.pow2_bits_false, orb_false_r.
        -- unfold get. by rewrite Hd.
        -- intros He. apply Hji, same_cell; done.
    + case_decide as Hji; [|done]. subst j. done.
Qed.

Lemma Clear_get (n : Z) (b : Bitmap) (i : Z) :
  wf n b → 0 <= i < n →
  ∃ b', Clear b i = Ret b' ∧ wf n b' ∧
    ∀ j, 0 <= j < n → get b' j = if decide (j = i) then false else get b j.
Proof.
  intros Hwf Hi. pose proof (cell_lookup n b i Hwf Hi) as Hc.
  destruct (update_cell n b i (fun old => Z.ldiff old (bit i)) Hwf Hi) as [Hwf' Hget].
  destruct Hwf as (Hm & Hs & Hn & Hlen).
  eexists. split; [|split; [exact Hwf'|]].
  - unfold Clear, validateIndex, Lock. rewrite Hs, Hm.
    destruct (Z.ltb_spec i 0); [lia|]. destruct (Z.geb_spec i n); [lia|].
    simpl. rewrite Z.quot_div_nonneg by lia.
    assert (0 <= i / 8) by (apply Z.div_pos; lia).
    rewrite (index_Ret _ _ _ H1 Hc). simpl.
    rewrite (store_Ret _ _ _ _ H1 Hc). simpl. reflexivity.
  - intros j Hj. rewrite Hget by done.
    assert (0 <= i mod 8 < 8) by (apply Z.mod_pos_bound; lia).
    assert (0 <= j mod 8 < 8) by (apply Z.mod_pos_bound; lia).
    rewrite bit_pow2 by lia.
    case_decide as Hd.
    + rewrite Z.ldiff_spec. case_decide as Hji.
      * subst j. rewrite Z.pow2_bits_true by lia. apply andb_false_r.
      * rewrite Z.pow2_bits_false, andb_true_r.
        -- unfold get. by rewrite Hd.
        -- intros He. apply Hji, same_cell; done.
    + case_decide as Hji; [|done]. subst j. done.
Qed.

Lemma Ret_in_range (n : Z) (b : Bitmap) (i : Z) (m : go Bitmap) (b' : Bitmap) :
  size b = n → (validateIndex b i ≫= λ _, m) = Ret b' → 0 <= i < n.
Proof.
  intros Hs. unfold validateIndex. rewrite Hs.
  destruct (Z.ltb_spec i 0); [discriminate|].
  destruct (Z.geb_spec i n); [discriminate|]. lia.
Qed.

Lemma constructed_wf (n : Z) (b : Bitmap) :
  is_int64 n → constructed n b → wf n b.
Proof.
  intros Hn. induction 1 as [b H|b i b' _ IH H|b i b' _ IH H].
  - by apply NewBitmap_wf.
  - assert (0 <= i < n) as Hi by (eapply Ret_in_range; [apply IH|exact H]).
    destruct (Set_get n b i IH Hi) as (b'' & Hb & Hwf & _). congruence.
  - assert (0 <= i < n) as Hi by (eapply Ret_in_range; [apply IH|exact H]).
    destruct (Clear_get n b i IH Hi) as (b'' & Hb & Hwf & _). congruence.
Qed.

Lemma fresh_get (n : Z) (b : Bitmap) (i : Z) :
  is_int64 n → NewBitmap n = Ret b → 0 <= i < n → get b i = false.
Proof.
  intros Hn Hb Hi. destruct (NewBitmap_wf n b Hn Hb) as [Hwf Hz].
  pose proof (cell_lookup n b i Hwf Hi) as Hc. unfold get.
  rewrite Hz in Hc at 1. apply lookup_replicate in Hc as [-> _].
  apply Z.bits_0.
Qed.

(** C10. A bitmap constructed with a size [n >= 0] reads [false] at
    every index in range when fresh; [Set(i)] makes [IsSet(i)] true, a
    later [Clear(i)] makes it false again, and neither changes what
    [IsSet(j)] returns for another index [j] in range; a negative size
    makes the constructor panic. *)
Theorem bitmap_set_clear_isset (n : Z) (Hn : is_int64 n) :
  (n < 0 → NewBitmap n = Panic "bitmap size must be non-negative") ∧
  (∀ b, NewBitmap n = Ret b →
     0 <= n ∧ ∀ i, 0 <= i < n → IsSet b i = Ret false) ∧
  (∀ b i, constructed n b → 0 <= i < n →
     ∃ b1, Set_ b i = Ret b1 ∧ IsSet b1 i = Ret true ∧
       (∀ j, 0 <= j < n → j ≠ i →
          returns (IsSet b j) ∧ IsSet b1 j = IsSet b j) ∧
       ∃ b2, Clear b1 i = Ret b2 ∧ IsSet b2 i = Ret false ∧
         (∀ j, 0 <= j < n → j ≠ i → IsSet b2 j = IsSet b1 j)) ∧
  (∀ b i, constructed n b → 0 <= i < n →
     ∃ b2, Clear b i = Ret b2 ∧ IsSet b2 i = Ret false ∧
       (∀ j, 0 <= j < n → j ≠ i → IsSet b2 j = IsSet b j)).
Proof.
  split; [|split; [|split]].
  - intros Hneg. unfold NewBitmap.
    destruct (Z.ltb_spec n 0); [done|lia].
  - intros b Hb. destruct (NewBitmap_wf n b Hn Hb) as [Hwf _].
    split; [by destruct Hwf as (_ & _ & ? & _)|]. intros i Hi.
    rewrite (IsSet_get n) by done. f_equal. by apply (fresh_get n).
  - intros b i Hc Hi. pose proof (constructed_wf n b Hn Hc) as Hwf.
    destruct (Set_get n b i Hwf Hi) as (b1 & Hset & Hwf1 & Hg1).
    destruct (Clear_get n b1 i Hwf1 Hi) as (b2 & Hclr & Hwf2 & Hg2).
    exists b1. split; [done|]. split; [|split].
    + rewrite (IsSet_get n), Hg1 by done. by rewrite decide_True.
    + intros j Hj Hne. rewrite !(IsSet_get n), Hg1 by done.
      rewrite decide_False by done. split; [by eexists|done].
    + exists b2. split; [done|]. split.
      * rewrite (IsSet_get n), Hg2 by done. by rewrite decide_True.
      * intros j Hj Hne. rewrite !(IsSet_get n), Hg2 by done.
        by rewrite decide_False.
  - intros b i Hc Hi. pose proof (constructed_wf n b Hn Hc) as Hwf.
    destruct (Clear_get n b i Hwf Hi) as (b2 & Hclr & Hwf2 & Hg2).
    exists b2. split; [done|]. split.
    + rewrite (IsSet_get n), Hg2 by done. by rewrite decide_True.
    + intros j Hj Hne. rewrite !(IsSet_get n), Hg2 by done.
      by rewrite decide_False.
Qed.

(** The theorem at sizes [-1] and [10], index [3]. *)
Lemma bitmap_set_clear_isset_witness :
  NewBitmap (-1) = Panic "bitmap size must be non-negative" ∧
  ∃ b, NewBitmap 10 = Ret b ∧ IsSet b 3 = Ret false ∧
    ∃ b1, Set_ b 3 = Ret b1 ∧ IsSet b1 3 = Ret true.
Proof.
  split.
  - apply (bitmap_set_clear_isset (-1)); [unfold is_int64; lia|lia].
  - assert (is_int64 10) as H10 by (unfold is_int64; lia).
    destruct (bitmap_set_clear_isset 10 H10) as (_ & Hnew & Hset & _).
    eexists. split; [reflexivity|].
    split; [apply Hnew; [reflexivity|lia]|].
    edestruct Hset as (b1 & H1 & H2 & _);
      [apply constructed_new; reflexivity| |exists b1; split; [exact H1|exact H2]].
    lia.
Defined.

(** *** More on the bitmap: what [Set] and [Clear] write, [Count], [MSet] *)

Lemma Set_Ret (n : Z) (b : Bitmap) (i : Z) :
  wf n b → 0 <= i < n →
  Set_ b i = Ret (mkBitmap false
                    (<[Z.to_nat (i / 8) :=
                         Z.lor (bits b !!! Z.to_nat (i / 8)) (2 ^ (i mod 8))]>
                       (bits b)) n).
Proof.
  intros Hwf Hi. pose proof (cell_lookup n b i Hwf Hi) as Hc.
  destruct Hwf as (Hm & Hs & Hn & Hlen).
  unfold Set_, validateIndex, Lock. rewrite Hs, Hm.
  destruct (Z.ltb_spec i 0); [lia|]. destruct (Z.geb_spec i n); [lia|].
  simpl. rewrite Z.quot_div_nonneg by lia.
  assert (0 <= i / 8) by (apply Z.div_pos; lia).
  rewrite (index_Ret _ _ _ H1 Hc). simpl.
  rewrite (store_Ret _ _ _ _ H1 Hc). simpl.
  rewrite bit_pow2 by lia. rewrite ?Hs. done.
Qed.

Lemma Clear_Ret (n : Z) (b : Bitmap) (i : Z) :
  wf n b → 0 <= i < n →
  Clear b i = Ret (mkBitmap false
                     (<[Z.to_nat (i / 8) :=
                          Z.ldiff (bits b !!! Z.to_nat (i / 8)) (2 ^ (i mod 8))]>
                        (bits b)) n).
Proof.
  intros Hwf Hi. pose proof (cell_lookup n b i Hwf Hi) as Hc.
  destruct Hwf as (Hm & Hs & Hn & Hlen).
  unfold Clear, validateIndex, Lock. rewrite Hs, Hm.
  destruct (Z.ltb_spec i 0); [lia|]. destruct (Z.geb_spec i n); [lia|].
  simpl. rewrite Z.quot_div_nonneg by lia.
  assert (0 <= i / 8) by (apply Z.div_pos; lia).
  rewrite (index_Ret _ _ _ H1 Hc). simpl.
  rewrite (store_Ret _ _ _ _ H1 Hc). simpl.
  rewrite bit_pow2 by lia. rewrite ?Hs. done.
Qed.

Lemma is_set_get (n : Z) (b : Bitmap) (i : Z) :
  wf n b → 0 <= i < n → is_set b i = get b i.
Proof.
  intros Hwf Hi. unfold is_set. rewrite (IsSet_get n) by done.
  by destruct (get b i).
Qed.

(** The sum [Count] computes. *)
Local Abbreviation total l :=
  (fold_left (λ count byteVal, count + OnesCount8 byteVal) l 0).

Lemma fold_total (l : list Z) (a : Z) :
  fold_left (λ count byteVal, count + OnesCount8 byteVal) l a = a + total l.
Proof.
  revert a. induction l as [|v l IH]; intros a; simpl; [lia|].
  rewrite (IH (a + _)), (IH (0 + _)). lia.
Qed.

Lemma total_app (l1 l2 : list Z) : total (l1 ++ l2) = total l1 + total l2.
Proof. rewrite fold_left_app, fold_total. lia. Qed.

Lemma total_insert (l : list Z) (c : nat) (old v : Z) :
  l !! c = Some old →
  total (<[c := v]> l) = total l - OnesCount8 old + OnesCount8 v.
Proof.
  intros Hc. pose proof (lookup_lt_Some _ _ _ Hc) as Hlt.
  rewrite insert_take_drop by done.
  rewrite <- (take_drop_middle l c old Hc) at 3.
  rewrite !total_app. simpl. rewrite !(fold_total _ (0 + _)). lia.
Qed.

Lemma total_replicate (k : nat) : total (replicate k 0) = 0.
Proof.
  induction k as [|k IH]; [done|]. simpl. rewrite fold_total, IH. done.
Qed.

Lemma small_cases (r : Z) :
  0 <= r < 8 → r = 0 ∨ r = 1 ∨ r = 2 ∨ r = 3 ∨ r = 4 ∨ r = 5 ∨ r = 6 ∨ r = 7.
Proof. lia. Qed.

Lemma OnesCount8_lor (old r : Z) :
  0 <= r < 8 →
  OnesCount8 (Z.lor old (2 ^ r))
  = OnesCount8 old + (if Z.testbit old r then 0 else 1).
Proof.
  intros Hr. unfold OnesCount8. rewrite !Z.lor_spec.
  destruct (small_cases r Hr) as [->|[->|[->|[->|[->|[->|[->| ->]]]]]]];
    simpl; rewrite ?orb_false_r, ?orb_true_r;
    match goal with |- context [if ?b then 0 else 1] => destruct b end;
    simpl; lia.
Qed.

Lemma OnesCount8_ldiff (old r : Z) :
  0 <= r < 8 →
  OnesCount8 (Z.ldiff old (2 ^ r))
  = OnesCount8 old - (if Z.testbit old r then 1 else 0).
Proof.
  intros Hr. unfold OnesCount8. rewrite !Z.ldiff_spec.
  destruct (small_cases r Hr) as [->|[->|[->|[->|[->|[->|[->| ->]]]]]]];
    simpl; rewrite ?andb_false_r, ?andb_true_r;
    match goal with |- context [if ?b then 1 else 0] => destruct b end;
    simpl; lia.
Qed.

(** Counting the elements of a duplicate-free list that satisfy a
    predicate, when the predicate changes at one element. *)
Lemma filter_length_change (P Q : Z → bool) (l : list Z) (i : Z) :
  NoDup l → i ∈ l → (∀ j, j ∈ l → j ≠ i → Q j = P j) →
  Z.of_nat (length (filter (λ j, Q j = true) l))
  = Z.of_nat (length (filter (λ j, P j = true) l)) + Z.b2z (Q i) - Z.b2z (P i).
Proof.
  assert (∀ l' : list Z, i ∉ l' → (∀ j, j ∈ l' → j ≠ i → Q j = P j) →
            filter (λ j, Q j = true) l' = filter (λ j, P j = true) l') as Hsame.
  { intros l' Hni Hother. induction l' as [|x l' IH]; [done|].
    apply not_elem_of_cons in Hni as [Hx Hni].
    rewrite !filter_cons, IH, (Hother x); [done|by left|done|done|].
    intros j Hj. apply Hother. by right. }
  intros Hnd. induction Hnd as [|x l Hx Hnd IH]; intros Hin Hother;
    [by apply elem_of_nil in Hin|].
  rewrite !filter_cons.
  apply elem_of_cons in Hin as [<-|Hin].
  - rewrite Hsame; [|done|intros j Hj; apply Hother; by right].
    destruct (Q i), (P i); repeat case_decide; simpl; try done; lia.
  - assert (x ≠ i) as Hne by (intros ->; done).
    rewrite (Hother x) by (done || by left).
    rewrite <- Z.add_sub_assoc.
    case_decide; simpl; rewrite ?Nat2Z.inj_succ, IH;
      try lia; try done; intros j Hj; apply Hother; by right.
Qed.

Lemma filter_ext_in (P Q : Z → bool) (l : list Z) :
  (∀ j, j ∈ l → Q j = P j) →
  filter (λ j, Q j = true) l = filter (λ j, P j = true) l.
Proof.
  intros Hext. induction l as [|x l IH]; [done|].
  rewrite !filter_cons, IH, (Hext x); [done|by left|].
  intros j Hj. apply Hext. by right.
Qed.

Lemma filter_none (P : Z → bool) (l : list Z) :
  (∀ j, j ∈ l → P j = false) → filter (λ j, P j = true) l = [].
Proof.
  intros Hno. induction l as [|x l IH]; [done|].
  rewrite filter_cons, IH, (Hno x); [by rewrite decide_False|by left|].
  intros j Hj. apply Hno. by right.
Qed.

Lemma set_indexes_length (n : Z) (b : Bitmap) :
  wf n b →
  length (set_indexes b) = length (filter (λ j, get b j = true) (seqZ 0 n)).
Proof.
  intros Hwf. unfold set_indexes.
  assert (size b = n) as -> by apply Hwf. f_equal.
  apply filter_ext_in. intros j Hj.
  apply elem_of_seqZ in Hj. apply (is_set_get n); [done|lia].
Qed.

Lemma constructed_total (n : Z) (b : Bitmap) :
  is_int64 n → constructed n b →
  total (bits b) = Z.of_nat (length (set_indexes b)).
Proof.
  intros Hn Hc. pose proof (constructed_wf n b Hn Hc) as Hwfb.
  rewrite (set_indexes_length n) by done. clear Hwfb.
  induction Hc as [b H|b i b' Hc IH H|b i b' Hc IH H].
  - destruct (NewBitmap_wf n b Hn H) as [Hwf Hz].
    rewrite Hz, total_replicate. symmetry.
    assert (filter (λ j, get b j = true) (seqZ 0 n) = []) as ->; [|done].
    apply filter_none. intros j Hj.
    apply elem_of_seqZ in Hj. apply (fresh_get n); [done|done|lia].
  - pose proof (constructed_wf n b Hn Hc) as Hwf.
    assert (0 <= i < n) as Hi by (eapply Ret_in_range; [apply Hwf|exact H]).
    assert (0 <= i mod 8 < 8) as Hr by (apply Z.mod_pos_bound; lia).
    destruct (Set_get n b i Hwf Hi) as (b1 & Hb1 & _ & Hg).
    assert (b1 = b') as -> by congruence.
    assert (bits b' = <[Z.to_nat (i / 8) :=
                          Z.lor (bits b !!! Z.to_nat (i / 8)) (2 ^ (i mod 8))]>
                        (bits b)) as ->
      by (rewrite (Set_Ret n) in H by done; by injection H as <-).
    rewrite (total_insert _ _ _ _ (cell_lookup n b i Hwf Hi)).
    rewrite OnesCount8_lor, IH by done.
    rewrite (filter_length_change (get b) (get b') _ i);
      [|apply NoDup_seqZ|apply elem_of_seqZ; lia|].
    + rewrite (Hg i), decide_True by done. fold (get b i).
      destruct (get b i); simpl; lia.
    + intros j Hj Hne. apply elem_of_seqZ in Hj.
      rewrite Hg, decide_False by (done || lia). done.
  - pose proof (constructed_wf n b Hn Hc) as Hwf.
    assert (0 <= i < n) as Hi by (eapply Ret_in_range; [apply Hwf|exact H]).
    assert (0 <= i mod 8 < 8) as Hr by (apply Z.mod_pos_bound; lia).
    destruct (Clear_get n b i Hwf Hi) as (b1 & Hb1 & _ & Hg).
    assert (b1 = b') as -> by congruence.
    assert (bits b' = <[Z.to_nat (i / 8) :=
                          Z.ldiff (bits b !!! Z.to_nat (i / 8)) (2 ^ (i mod 8))]>
                        (bits b)) as ->
      by (rewrite (Clear_Ret n) in H by done; by injection H as <-).
    rewrite (total_insert _ _ _ _ (cell_lookup n b i Hwf Hi)).
    rewrite OnesCount8_ldiff, IH by done.
    rewrite (filter_length_change (get b) (get b') _ i);
      [|apply NoDup_seqZ|apply elem_of_seqZ; lia|].
    + rewrite (Hg i), decide_True by done. fold (get b i).
      destruct (get b i); simpl; lia.
    + intros j Hj Hne. apply elem_of_seqZ in Hj.
      rewrite Hg, decide_False by (done || lia). done.
Qed.

Lemma Count_counts_set_bits_aux (n : Z) (b : Bitmap) :
  is_int64 n → constructed n b →
  Count b = Ret (Z.of_nat (length (set_indexes b))).
Proof.
  intros Hn Hc. pose proof (constructed_wf n b Hn Hc) as Hwf.
  unfold Count, Lock. destruct Hwf as (-> & _). simpl.
  f_equal. by apply (constructed_total n).
Qed.

(** X1. On every bitmap reached from [NewBitmap] by [Set] and [Clear],
    [Count] returns the number of indexes in range at which [IsSet]
    answers true; it is 0 on a fresh bitmap and never exceeds the size. *)
Theorem Count_counts_set_bits (n : Z) (b : Bitmap) :
  is_int64 n → constructed n b →
  Count b = Ret (Z.of_nat (length (set_indexes b))) ∧
  0 <= Z.of_nat (length (set_indexes b)) <= n ∧
  (NewBitmap n = Ret b → Count b = Ret 0).
Proof.
  intros Hn Hc. pose proof (constructed_wf n b Hn Hc) as Hwf.
  assert (Count b = Ret (Z.of_nat (length (set_indexes b)))) as Hcount.
  { unfold Count, Lock. destruct Hwf as (-> & _). simpl.
    f_equal. by apply (constructed_total n). }
  split; [done|]. split.
  - split; [lia|]. unfold set_indexes.
    assert (size b = n) as -> by apply Hwf.
    pose proof (length_filter (λ i, is_set b i = true) (seqZ 0 n)) as Hle.
    rewrite length_seqZ in Hle. destruct Hwf as (_ & _ & ? & _). lia.
  - intros Hnew. rewrite Hcount. f_equal.
    rewrite (set_indexes_length n) by done.
    assert (filter (λ j, get b j = true) (seqZ 0 n) = []) as ->; [|done].
    apply filter_none. intros j Hj.
    apply elem_of_seqZ in Hj. apply (fresh_get n); [done|done|lia].
Qed.

(** The theorem on a bitmap of 10 bits with bits 3 and 9 set. *)
Lemma Count_counts_set_bits_witness :
  (b ← NewBitmap 10; b ← Set_ b 3; Set_ b 9) = Ret (mkBitmap false [8; 2] 10) ∧
  Count (mkBitmap false [8; 2] 10) = Ret 2.
Proof.
  split; [reflexivity|].
  assert (is_int64 10) as H10 by (unfold is_int64; lia).
  refine (proj1 (Count_counts_set_bits 10 _ H10 _)).
  apply (constructed_set 10 (mkBitmap false [8; 0] 10) 9); [|reflexivity].
  apply (constructed_set 10 (mkBitmap false [0; 0] 10) 3); [|reflexivity].
  apply constructed_new. reflexivity.
Defined.

(** Two cell updates in either order. *)
Lemma cell_updates_commute (l : list Z) (c1 c2 : nat) (f g : Z → Z) :
  (c1 < length l)%nat → (c2 < length l)%nat →
  (c1 = c2 → f (g (l !!! c1)) = g (f (l !!! c1))) →
  <[c2 := g (<[c1 := f (l !!! c1)]> l !!! c2)]> (<[c1 := f (l !!! c1)]> l)
  = <[c1 := f (<[c2 := g (l !!! c2)]> l !!! c1)]> (<[c2 := g (l !!! c2)]> l).
Proof.
  intros H1 H2 Hfg. destruct (decide (c1 = c2)) as [->|Hne].
  - rewrite !list_lookup_total_insert_eq, !list_insert_insert_eq by done.
    by rewrite Hfg.
  - rewrite !list_lookup_total_insert_ne by done.
    by apply list_insert_insert_ne.
Qed.

Lemma lor_ldiff_pow2 (x r s : Z) :
  0 <= r → 0 <= s → r ≠ s →
  Z.lor (Z.ldiff x (2 ^ s)) (2 ^ r) = Z.ldiff (Z.lor x (2 ^ r)) (2 ^ s).
Proof.
  intros Hr Hs Hne. apply Z.bits_inj'. intros k Hk.
  rewrite Z.lor_spec, !Z.ldiff_spec, Z.lor_spec.
  rewrite !Z.pow2_bits_eqb by done.
  destruct (Z.eqb_spec r k), (Z.eqb_spec s k); try lia;
    destruct (Z.testbit x k); done.
Qed.

(** X2. On every bitmap reached from [NewBitmap] by [Set] and [Clear] and
    indexes [i], [j] in range: [Set(i)] twice leaves the bitmap as one
    [Set(i)] does, likewise [Clear(i)]; [Set(i)] and [Set(j)] give the
    same bitmap in either order, and so do [Set(i)] and [Clear(j)] for
    [i] different from [j]. *)
Theorem Set_Clear_compose (n : Z) (b : Bitmap) (i j : Z) :
  is_int64 n → constructed n b → 0 <= i < n → 0 <= j < n →
  (∃ b1, Set_ b i = Ret b1 ∧ Set_ b1 i = Ret b1) ∧
  (∃ b1, Clear b i = Ret b1 ∧ Clear b1 i = Ret b1) ∧
  (∃ b2, (Set_ b i ≫= λ b1, Set_ b1 j) = Ret b2 ∧
         (Set_ b j ≫= λ b1, Set_ b1 i) = Ret b2) ∧
  (i ≠ j → ∃ b2, (Set_ b i ≫= λ b1, Clear b1 j) = Ret b2 ∧
                 (Clear b j ≫= λ b1, Set_ b1 i) = Ret b2).
Proof.
  intros Hn Hc Hi Hj. pose proof (constructed_wf n b Hn Hc) as Hwf.
  assert (0 <= i mod 8 < 8) as Hri by (apply Z.mod_pos_bound; lia).
  assert (0 <= j mod 8 < 8) as Hrj by (apply Z.mod_pos_bound; lia).
  pose proof (lookup_lt_Some _ _ _ (cell_lookup n b i Hwf Hi)) as Hci.
  pose proof (lookup_lt_Some _ _ _ (cell_lookup n b j Hwf Hj)) as Hcj.
  assert (∀ k f, 0 <= k < n →
            wf n (mkBitmap false
                    (<[Z.to_nat (k / 8) := f (bits b !!! Z.to_nat (k / 8))]>
                       (bits b)) n)) as Hupd.
  { intros k f Hk. destruct (update_cell n b k f Hwf Hk) as [Hwf' _].
    destruct Hwf as (_ & <- & _). exact Hwf'. }
  pose proof (Hupd i (λ x, Z.lor x (2 ^ (i mod 8))) Hi) as Hsi.
  pose proof (Hupd j (λ x, Z.lor x (2 ^ (j mod 8))) Hj) as Hsj.
  pose proof (Hupd i (λ x, Z.ldiff x (2 ^ (i mod 8))) Hi) as Hki.
  pose proof (Hupd j (λ x, Z.ldiff x (2 ^ (j mod 8))) Hj) as Hkj.
  simpl in Hsi, Hsj, Hki, Hkj.
  split; [|split; [|split]].
  - eexists. split; [by apply (Set_Ret n)|].
    rewrite (Set_Ret n _ _ Hsi Hi). simpl.
    rewrite list_lookup_total_insert_eq, list_insert_insert_eq by done.
    by rewrite <- Z.lor_assoc, Z.lor_diag.
  - eexists. split; [by apply (Clear_Ret n)|].
    rewrite (Clear_Ret n _ _ Hki Hi). simpl.
    rewrite list_lookup_total_insert_eq, list_insert_insert_eq by done.
    do 3 f_equal. apply Z.bits_inj'. intros k Hk.
    rewrite !Z.ldiff_spec. by destruct (Z.testbit _ k), (Z.testbit _ k).
  - eexists. rewrite !(Set_Ret n b) by done. simpl.
    rewrite (Set_Ret n _ _ Hsi Hj), (Set_Ret n _ _ Hsj Hi). simpl.
    split; [done|]. do 2 f_equal. symmetry.
    apply (cell_updates_commute _ _ _ (λ x, Z.lor x (2 ^ (i mod 8)))
             (λ x, Z.lor x (2 ^ (j mod 8)))); [done|done|].
    intros _. rewrite <- !Z.lor_assoc. f_equal. apply Z.lor_comm.
  - intros Hne. eexists. rewrite (Set_Ret n b), (Clear_Ret n b) by done. simpl.
    rewrite (Clear_Ret n _ _ Hsi Hj), (Set_Ret n _ _ Hkj Hi). simpl.
    split; [done|]. do 2 f_equal. symmetry.
    apply (cell_updates_commute _ _ _ (λ x, Z.lor x (2 ^ (i mod 8)))
             (λ x, Z.ldiff x (2 ^ (j mod 8)))); [done|done|].
    intros Hcell. apply lor_ldiff_pow2; [lia|lia|].
    intros Hr. apply Hne. apply same_cell; [|done].
    apply (f_equal Z.of_nat) in Hcell.
    rewrite !Z2Nat.id in Hcell by (apply Z.div_pos; lia). done.
Qed.

(** The theorem on a fresh bitmap of 10 bits, indexes 3 and 9. *)
Lemma Set_Clear_compose_witness :
  (Set_ (mkBitmap false [0; 0] 10) 3 ≫= λ b1, Clear b1 9)
  = (Clear (mkBitmap false [0; 0] 10) 9 ≫= λ b1, Set_ b1 3).
Proof.
  assert (is_int64 10) as H10 by (unfold is_int64; lia).
  destruct (Set_Clear_compose 10 (mkBitmap false [0; 0] 10) 3 9 H10)
    as (_ & _ & _ & Hsc); [apply constructed_new; reflexivity|lia|lia|].
  destruct Hsc as (b2 & H1 & H2); [lia|]. by rewrite H1, H2.
Defined.

(** X3. [MSet] on a bitmap reached from [NewBitmap] by [Set] and
    [Clear]: the empty list leaves the bitmap as it is; a list whose first
    index is in range never returns, because [Set] waits for the mutex
    [MSet] holds; a list whose first index is out of range panics. *)
Theorem MSet_outcomes (n : Z) (b : Bitmap) (i : Z) (rest : list Z) :
  is_int64 n → constructed n b →
  MSet b [] = Ret b ∧
  (0 <= i < n → MSet b (i :: rest) = Blocked) ∧
  (¬ 0 <= i < n → MSet b (i :: rest) = Panic "bitmap index out of range").
Proof.
  intros Hn Hc. pose proof (constructed_wf n b Hn Hc) as Hwf.
  split; [|split].
  - destruct Hwf as (Hm & _). destruct b as [mx bs sz]. simpl in Hm.
    subst mx. reflexivity.
  - intros Hi. destruct Hwf as (Hm & Hs & _).
    unfold MSet, Lock at 1. rewrite Hm. simpl.
    unfold Set_, validateIndex, Lock. simpl. rewrite Hs.
    destruct (Z.ltb_spec i 0); [lia|].
    destruct (Z.geb_spec i n); [lia|done].
  - intros Hi. destruct Hwf as (Hm & Hs & _).
    unfold MSet, Lock at 1. rewrite Hm. simpl.
    unfold Set_, validateIndex. simpl. rewrite Hs.
    destruct (Z.ltb_spec i 0); [done|].
    destruct (Z.geb_spec i n); [done|lia].
Qed.

(** The theorem on a fresh bitmap of 10 bits. *)
Lemma MSet_outcomes_witness :
  MSet (mkBitmap false [0; 0] 10) [] = Ret (mkBitmap false [0; 0] 10) ∧
  MSet (mkBitmap false [0; 0] 10) [4; 5] = Blocked ∧
  MSet (mkBitmap false [0; 0] 10) [10; 5] = Panic "bitmap index out of range".
Proof.
  assert (is_int64 10) as H10 by (unfold is_int64; lia).
  assert (constructed 10 (mkBitmap false [0; 0] 10)) as Hc
    by (apply constructed_new; reflexivity).
  split; [apply (MSet_outcomes 10 _ 0 [] H10 Hc)|]. split.
  - apply (MSet_outcomes 10 _ 4 [5] H10 Hc). lia.
  - apply (MSet_outcomes 10 _ 10 [5] H10 Hc). lia.
Defined.

(** [Set] adds at most one index to those that are set, and removes
    none. *)
Lemma Set_set_indexes (n : Z) (b b' : Bitmap) (i : Z) :
  wf n b → Set_ b i = Ret b' →
  (length (set_indexes b) <= length (set_indexes b') <=
   S (length (set_indexes b)))%nat.
Proof.
  intros Hwf H.
  assert (0 <= i < n) as Hi by (eapply Ret_in_range; [apply Hwf|exact H]).
  destruct (Set_get n b i Hwf Hi) as (b1 & Hb1 & Hwf1 & Hg).
  assert (b1 = b') as -> by congruence.
  rewrite !(set_indexes_length n) by done.
  pose proof (filter_length_change (get b) (get b') (seqZ 0 n) i
                (NoDup_seqZ 0 n)) as Hch.
  rewrite (Hg i), decide_True in Hch by done.
  assert (Z.of_nat (length (filter (λ j, get b' j = true) (seqZ 0 n)))
          = Z.of_nat (length (filter (λ j, get b j = true) (seqZ 0 n)))
            + Z.b2z true - Z.b2z (get b i)) as Heq.
  { apply Hch; [apply elem_of_seqZ; lia|].
    intros j Hj Hne. apply elem_of_seqZ in Hj.
    rewrite Hg, decide_False by (done || lia). done. }
  destruct (get b i); simpl in Heq; lia.
Qed.

End bitmapFacts.

(** ** Package bloom *)

Module bloomFacts.

Import bitmap bloom GoFacts bitmapFacts.

Lemma umod_Ret (x m : Z) : 0 < m → umod x m = Ret (x mod m) ∧ 0 <= x mod m < m.
Proof.
  intros Hm. unfold umod. destruct (Z.eqb_spec m 0); [lia|].
  split; [done|]. by apply Z.mod_pos_bound.
Qed.

Section Loops.

(** The loops of [Add] and [Contains] for an arbitrary key type and an
    arbitrary list of hash functions; both filters instantiate them. *)
Context {K : Type}.
Variable add_loop : list (K → Z) → Bitmap → Z → K → go Bitmap.
Variable contains_loop : list (K → Z) → Bitmap → Z → K → go bool.
Hypothesis add_nil : ∀ bm m d, add_loop [] bm m d = Ret bm.
Hypothesis add_cons : ∀ fn rest bm m d,
  add_loop (fn :: rest) bm m d =
  (umod (fn d) m ≫= λ h, Set_ bm h ≫= λ bm', add_loop rest bm' m d).
Hypothesis contains_nil : ∀ bm m d, contains_loop [] bm m d = Ret true.
Hypothesis contains_cons : ∀ fn rest bm m d,
  contains_loop (fn :: rest) bm m d =
  (umod (fn d) m ≫= λ h, IsSet bm h ≫= λ b : bool,
     if b then contains_loop rest bm m d else Ret false).

Lemma add_loop_sets (fns : list (K → Z)) (bm : Bitmap) (m : Z) (d : K) :
  0 < m → wf m bm →
  ∃ bm', add_loop fns bm m d = Ret bm' ∧ wf m bm' ∧
    (∀ j, 0 <= j < m → get bm j = true → get bm' j = true) ∧
    (∀ fn, fn ∈ fns → get bm' (fn d mod m) = true).
Proof using add_nil add_cons.
  intros Hm. revert bm. induction fns as [|fn rest IH]; intros bm Hwf.
  - exists bm. rewrite add_nil. split; [done|]. split; [done|].
    split; [done|]. intros fn Hin. by apply elem_of_nil in Hin.
  - destruct (umod_Ret (fn d) m Hm) as [Hu Hr].
    destruct (Set_get m bm (fn d mod m) Hwf Hr) as (bm1 & Hset & Hwf1 & Hg1).
    destruct (IH bm1 Hwf1) as (bm' & Hloop & Hwf' & Hmono & Hall).
    exists bm'. rewrite add_cons, Hu. simpl. rewrite Hset. simpl.
    split; [done|]. split; [done|]. split.
    + intros j Hj Hb. apply Hmono; [done|]. rewrite Hg1 by done.
      case_decide; done.
    + intros fn' [->|Hin]%elem_of_cons; [|by apply Hall].
      apply Hmono; [done|]. rewrite Hg1 by done. by rewrite decide_True.
Qed.

Lemma contains_loop_true (fns : list (K → Z)) (bm : Bitmap) (m : Z) (d : K) :
  0 < m → wf m bm →
  (∀ fn, fn ∈ fns → get bm (fn d mod m) = true) →
  contains_loop fns bm m d = Ret true.
Proof using contains_nil contains_cons.
  intros Hm Hwf. induction fns as [|fn rest IH]; intros Hall.
  - apply contains_nil.
  - destruct (umod_Ret (fn d) m Hm) as [Hu Hr].
    rewrite contains_cons, Hu. simpl. rewrite (IsSet_get m) by done. simpl.
    rewrite Hall by (apply elem_of_cons; by left).
    apply IH. intros fn' Hin. apply Hall, elem_of_cons. by right.
Qed.

End Loops.

Lemma New_mk_wf (m k : Z) :
  0 <= m < 2 ^ 32 → ∃ bf, New_mk m k = Ret bf ∧ wf_filter m bf.
Proof.
  intros Hm. unfold New_mk.
  assert (is_int64 m) as Hi by (unfold is_int64; lia).
  destruct (NewBitmap m) as [bm| | |] eqn:Hb.
  - eexists. split; [reflexivity|]. split; [|done].
    simpl. by apply NewBitmap_wf.
  - exfalso. unfold NewBitmap, make in Hb.
    destruct (Z.ltb_spec m 0); [lia|]. simpl in Hb.
    destruct (_ <? 0); discriminate.
  - exfalso. unfold NewBitmap, make in Hb.
    destruct (Z.ltb_spec m 0); [lia|]. simpl in Hb.
    assert (wrap64s (m + 7) = m + 7) as Hw
      by (unfold wrap64s; rewrite Z.mod_small by lia; lia).
    rewrite Hw, Z.quot_div_nonneg in Hb by lia.
    assert (0 <= (m + 7) / 8) by (apply Z.div_pos; lia).
    destruct (Z.ltb_spec ((m + 7) / 8) 0); [lia|discriminate].
  - exfalso. unfold NewBitmap, make in Hb.
    destruct (Z.ltb_spec m 0); [lia|]. simpl in Hb.
    destruct (_ <? 0); discriminate.
Qed.

Lemma Add_wf (m : Z) (bf : BloomFilter) (d : list Byte.byte) :
  0 < m → wf_filter m bf →
  ∃ bf', Add bf d = Ret bf' ∧ wf_filter m bf' ∧ hashFunc bf' = hashFunc bf ∧
    (∀ j, 0 <= j < m → get (bitmap bf) j = true → get (bitmap bf') j = true) ∧
    (∀ fn, fn ∈ hashFunc bf → get (bitmap bf') (fn d mod m) = true).
Proof.
  intros Hm [Hwf Hs]. unfold Add. rewrite Hs.
  destruct (add_loop_sets Add_loop (λ _ _ _, eq_refl) (λ _ _ _ _ _, eq_refl)
              (hashFunc bf) (bitmap bf) m d Hm Hwf)
    as (bm' & -> & Hwf' & Hmono & Hall).
  simpl. eexists. split; [reflexivity|]. simpl.
  split; [by split|]. split; [done|]. split; assumption.
Qed.

Lemma AddAll_wf (m : Z) (ds : list (list Byte.byte)) (bf : BloomFilter) :
  0 < m → wf_filter m bf →
  ∃ bf', AddAll bf ds = Ret bf' ∧ wf_filter m bf' ∧ hashFunc bf' = hashFunc bf ∧
    (∀ j, 0 <= j < m → get (bitmap bf) j = true → get (bitmap bf') j = true).
Proof.
  intros Hm. revert bf. induction ds as [|d ds IH]; intros bf Hwf.
  - exists bf. split; [done|]. split; [done|]. split; [done|]. auto.
  - destruct (Add_wf m bf d Hm Hwf) as (bf1 & Hadd & Hwf1 & Hh1 & Hmono1 & _).
    destruct (IH bf1 Hwf1) as (bf' & Hall & Hwf' & Hh' & Hmono').
    exists bf'. simpl. rewrite Hadd. simpl. split; [done|].
    split; [done|]. split; [congruence|]. auto.
Qed.

(** Without hash functions [Add] changes nothing and [Contains] says
    yes. *)
Lemma AddAll_no_hash (bf : BloomFilter) (ds : list (list Byte.byte)) :
  hashFunc bf = [] → AddAll bf ds = Ret bf.
Proof.
  intros Hh. induction ds as [|d ds IH]; [done|].
  simpl. unfold Add. rewrite Hh. simpl.
  destruct bf as [bm fns sz]. simpl in *. by subst.
Qed.

(** C2. In a byte-keyed filter with a bit array of [m] bits and [k] hash
    functions, where [k = 0] if [m = 0] as for every pair that
    [estimateParameters] yields, after any earlier [Add] calls, once
    [Add(d)] has run, [Contains(d)] returns true, also after any further
    [Add] calls; all the calls return. *)
Theorem bloom_no_false_negative (m k : Z) (pre post : list (list Byte.byte))
    (d : list Byte.byte) :
  0 <= m < 2 ^ 32 → (m = 0 → k = 0) →
  ∃ bf0 bf1 bf2 bf3,
    New_mk m k = Ret bf0 ∧ AddAll bf0 pre = Ret bf1 ∧
    Add bf1 d = Ret bf2 ∧ AddAll bf2 post = Ret bf3 ∧
    Contains bf2 d = Ret true ∧ Contains bf3 d = Ret true.
Proof.
  intros Hm Hk. destruct (decide (m = 0)) as [->|Hm0].
  - rewrite Hk by done.
    set (bf := mkBloomFilter (mkBitmap false [] 0) [] 0).
    assert (∀ ds, AddAll bf ds = Ret bf) as Hall
      by (intros ds; by apply AddAll_no_hash).
    exists bf, bf, bf, bf. split; [done|]. split; [done|].
    split; [apply (Hall [d])|]. split; done.
  - assert (0 < m) as Hpos by lia.
    destruct (New_mk_wf m k) as (bf0 & H0 & Hwf0); [lia|].
    destruct (AddAll_wf m pre bf0 Hpos Hwf0) as (bf1 & H1 & Hwf1 & _ & _).
    destruct (Add_wf m bf1 d Hpos Hwf1) as (bf2 & H2 & Hwf2 & Hh2 & _ & Hset).
    destruct (AddAll_wf m post bf2 Hpos Hwf2) as (bf3 & H3 & Hwf3 & Hh3 & Hmono).
    exists bf0, bf1, bf2, bf3. repeat (split; [done|]).
    assert (∀ bf, wf_filter m bf → hashFunc bf = hashFunc bf1 →
              (∀ fn, fn ∈ hashFunc bf1 → get (bitmap bf) (fn d mod m) = true) →
              Contains bf d = Ret true) as Hcont.
    { intros bf [Hwf Hs] Hh Hbits. unfold Contains. rewrite Hs, Hh.
      by apply (contains_loop_true Contains_loop (λ _ _ _, eq_refl)
                  (λ _ _ _ _ _, eq_refl)). }
    split; apply Hcont; try done; try congruence.
    intros fn Hin. apply Hmono; [by apply Z.mod_pos_bound|by apply Hset].
Qed.

(** The theorem at [m = 9586], [k = 7], the parameters of
    [New(1000, 0.01)]. *)
Lemma bloom_no_false_negative_witness :
  ∃ bf0 bf1 bf2 bf3,
    New_mk 9586 7 = Ret bf0 ∧ AddAll bf0 [["h"; "i"]%byte] = Ret bf1 ∧
    Add bf1 ["y"; "o"]%byte = Ret bf2 ∧ AddAll bf2 [[]] = Ret bf3 ∧
    Contains bf2 ["y"; "o"]%byte = Ret true ∧
    Contains bf3 ["y"; "o"]%byte = Ret true.
Proof. apply (bloom_no_false_negative 9586 7); lia. Defined.

(** *** [AddMany] *)

Lemma AddMany_inner_Ret (fns : list (Z → Z)) (m d i : Z) (indexes : list Z) :
  0 < m → 0 <= i < Z.of_nat (length indexes) → in_range m indexes →
  ∃ indexes', AddMany_inner fns m d i indexes = Ret indexes' ∧
    length indexes' = length indexes ∧ in_range m indexes'.
Proof.
  intros Hm. revert indexes. induction fns as [|fn rest IH]; intros indexes Hi Hr.
  - by exists indexes.
  - destruct (umod_Ret (fn d) m Hm) as [Hu Hh].
    destruct (lookup_lt_is_Some_2 indexes (Z.to_nat i)) as [w Hw]; [lia|].
    destruct (IH (<[Z.to_nat i := fn d mod m]> indexes)) as (ix & Hix & Hlen & Hin).
    + rewrite length_insert. lia.
    + apply Forall_insert; done.
    + exists ix. simpl. rewrite (proj1 (umod_Ret (fn d) m Hm)). simpl.
      rewrite (store_Ret _ _ _ w) by (done || lia). simpl.
      rewrite Hix. split; [done|]. rewrite Hlen, length_insert. done.
Qed.

Lemma AddMany_outer_Ret (fns : list (Z → Z)) (m : Z) (data : list Z) (i : Z)
    (indexes : list Z) :
  0 < m → 0 <= i → i + Z.of_nat (length data) <= Z.of_nat (length indexes) →
  in_range m indexes →
  ∃ indexes', AddMany_outer fns m data i indexes = Ret indexes' ∧
    length indexes' = length indexes ∧ in_range m indexes'.
Proof.
  intros Hm. revert i indexes.
  induction data as [|d rest IH]; intros i indexes Hi Hlen Hr.
  - by exists indexes.
  - simpl in Hlen.
    destruct (AddMany_inner_Ret fns m d i indexes) as (ix1 & H1 & Hl1 & Hr1);
      [done|lia|done|].
    destruct (IH (i + 1) ix1) as (ix2 & H2 & Hl2 & Hr2); [lia|lia|done|].
    exists ix2. simpl. rewrite H1. simpl. rewrite H2.
    split; [done|]. split; [congruence|done].
Qed.

Lemma AddMany_indexes_Ret (m : Z) (bf : Int64BloomFilter) (data : list Z) :
  0 < m → size64 bf = m →
  ∃ indexes, AddMany_indexes bf data = Ret indexes ∧
    length indexes = length data ∧ in_range m indexes.
Proof.
  intros Hm Hs. unfold AddMany_indexes, make.
  destruct (Z.ltb_spec (Z.of_nat (length data)) 0); [lia|]. simpl.
  rewrite Nat2Z.id, Hs.
  destruct (AddMany_outer_Ret (hashFunc64 bf) m data 0
              (replicate (length data) 0)) as (ix & Hix & Hlen & Hr);
    try done.
  - rewrite length_replicate. lia.
  - apply Forall_replicate. lia.
  - exists ix. split; [done|]. by rewrite Hlen, length_replicate.
Qed.

(** A non-empty [MSet] never returns: it holds the mutex when [Set] asks
    for it. *)
Lemma MSet_blocks (m : Z) (bm : Bitmap) (index : Z) (rest : list Z) :
  wf m bm → 0 <= index < m → MSet bm (index :: rest) = Blocked.
Proof.
  intros (Hmx & Hs & _) Hi. unfold MSet, Lock at 1. rewrite Hmx. simpl.
  unfold Set_, validateIndex, Lock. simpl. rewrite Hs.
  destruct (Z.ltb_spec index 0); [lia|].
  destruct (Z.geb_spec index m); [lia|]. done.
Qed.

(** On every filter with at least one bit and every non-empty batch,
    [AddMany] blocks forever. *)
Lemma AddMany_blocks (m : Z) (bf : Int64BloomFilter) (d : Z) (ds : list Z) :
  0 < m → wf_filter64 m bf → AddMany bf (d :: ds) = Blocked.
Proof.
  intros Hm [Hwf Hs].
  destruct (AddMany_indexes_Ret m bf (d :: ds) Hm Hs) as (ix & Hix & Hlen & Hr).
  unfold AddMany. rewrite Hix. simpl.
  destruct ix as [|index rest]; [discriminate|].
  apply Forall_cons in Hr as [Hi _].
  by rewrite (MSet_blocks m).
Qed.

Lemma Add64_wf (m : Z) (bf : Int64BloomFilter) (d : Z) :
  0 < m → wf_filter64 m bf →
  ∃ bf', Add64 bf d = Ret bf' ∧ wf_filter64 m bf' ∧
    Contains64 bf' d = Ret true.
Proof.
  intros Hm [Hwf Hs]. unfold Add64. rewrite Hs.
  destruct (add_loop_sets Add64_loop (λ _ _ _, eq_refl) (λ _ _ _ _ _, eq_refl)
              (hashFunc64 bf) (bitmap64 bf) m d Hm Hwf)
    as (bm' & -> & Hwf' & Hmono & Hall).
  simpl. eexists. split; [reflexivity|]. split; [by split|].
  unfold Contains64. simpl.
  by apply (contains_loop_true Contains64_loop (λ _ _ _, eq_refl)
              (λ _ _ _ _ _, eq_refl)).
Qed.

(** C1, at the failing input: the filter of [NewInt64Bloom(1000, 0.01)]
    ([m = 9586], [k = 7]) and the batch [[1]].  [AddMany] blocks in
    [MSet]; the slice it hands over holds one index for the key, the one
    of the last hash function, and setting just that leaves [Contains(1)]
    false, whereas [Add(1)] sets all seven and [Contains(1)] is true. *)
Theorem AddMany_failing_input :
  let bf := mkInt64BloomFilter (mkBitmap false (replicate 1199 0) 9586)
              (createInt64HashFunctions 7) 9586 in
  let bm := mkBitmap false (1 :: replicate 1198 0) 9586 in
  NewInt64Bloom_mk 9586 7 = Ret bf ∧
  AddMany bf [1] = Blocked ∧
  AddMany_indexes bf [1] = Ret [0] ∧
  MSet_loop (bitmap64 bf) [0] = Ret bm ∧
  Contains64 (mkInt64BloomFilter bm (hashFunc64 bf) (size64 bf)) 1
  = Ret false ∧
  (∃ bf', AddEach bf [1] = Ret bf' ∧ Contains64 bf' 1 = Ret true).
Proof.
  intros bf bm.
  assert (wf_filter64 9586 bf) as Hwf by (repeat split; done).
  split; [reflexivity|].
  split; [by apply (AddMany_blocks 9586)|].
  split; [vm_compute; reflexivity|].
  split; [vm_compute; reflexivity|].
  split; [vm_compute; reflexivity|].
  destruct (Add64_wf 9586 bf 1) as (bf' & Hadd & _ & Hc); [done|done|].
  exists bf'. split; [|done]. unfold AddEach. by rewrite Hadd.
Qed.

(** *** More on the filters *)

Section LoopsMore.

Context {K : Type}.
Variable add_loop : list (K → Z) → Bitmap → Z → K → go Bitmap.
Variable contains_loop : list (K → Z) → Bitmap → Z → K → go bool.
Hypothesis add_nil : ∀ bm m d, add_loop [] bm m d = Ret bm.
Hypothesis add_cons : ∀ fn rest bm m d,
  add_loop (fn :: rest) bm m d =
  (umod (fn d) m ≫= λ h, Set_ bm h ≫= λ bm', add_loop rest bm' m d).
Hypothesis contains_nil : ∀ bm m d, contains_loop [] bm m d = Ret true.
Hypothesis contains_cons : ∀ fn rest bm m d,
  contains_loop (fn :: rest) bm m d =
  (umod (fn d) m ≫= λ h, IsSet bm h ≫= λ b : bool,
     if b then contains_loop rest bm m d else Ret false).

(** [Contains] answers whether all the bits of the key are set. *)
Lemma contains_loop_forallb (fns : list (K → Z)) (bm : Bitmap) (m : Z) (d : K) :
  0 < m → wf m bm →
  contains_loop fns bm m d = Ret (forallb (λ fn, get bm (fn d mod m)) fns).
Proof using contains_nil contains_cons.
  intros Hm Hwf. induction fns as [|fn rest IH]; [apply contains_nil|].
  destruct (umod_Ret (fn d) m Hm) as [Hu Hr].
  rewrite contains_cons, Hu. simpl. rewrite (IsSet_get m) by done. simpl.
  destruct (get bm (fn d mod m)); [exact IH|done].
Qed.

(** The loop of [Add] keeps the bitmap among those reached by [Set], and
    sets at most one new bit per hash function. *)
Lemma add_loop_constructed (fns : list (K → Z)) (bm bm' : Bitmap) (m : Z) (d : K) :
  is_int64 m → constructed m bm → add_loop fns bm m d = Ret bm' →
  constructed m bm' ∧
  (length (set_indexes bm) <= length (set_indexes bm') <=
   length (set_indexes bm) + length fns)%nat.
Proof using add_nil add_cons.
  intros Hm. revert bm. induction fns as [|fn rest IH]; intros bm Hc H.
  - rewrite add_nil in H. injection H as <-. split; [done|simpl; lia].
  - rewrite add_cons in H.
    destruct (umod (fn d) m) as [h| | |] eqn:Hu; try discriminate. simpl in H.
    destruct (Set_ bm h) as [bm1| | |] eqn:Hs; try discriminate. simpl in H.
    pose proof (Set_set_indexes m bm bm1 h (constructed_wf m bm Hm Hc) Hs).
    destruct (IH bm1 (constructed_set m bm h bm1 Hc Hs) H) as [Hc' Hlen].
    split; [done|simpl; lia].
Qed.

End LoopsMore.

Lemma Contains_forallb (m : Z) (bf : BloomFilter) (d : list Byte.byte) :
  0 < m → wf_filter m bf →
  Contains bf d = Ret (forallb (λ fn, get (bitmap bf) (fn d mod m)) (hashFunc bf)).
Proof.
  intros Hm [Hwf Hs]. unfold Contains. rewrite Hs.
  by apply (contains_loop_forallb Contains_loop (λ _ _ _, eq_refl)
              (λ _ _ _ _ _, eq_refl)).
Qed.

Lemma Contains64_forallb (m : Z) (bf : Int64BloomFilter) (d : Z) :
  0 < m → wf_filter64 m bf →
  Contains64 bf d
  = Ret (forallb (λ fn, get (bitmap64 bf) (fn d mod m)) (hashFunc64 bf)).
Proof.
  intros Hm [Hwf Hs]. unfold Contains64. rewrite Hs.
  by apply (contains_loop_forallb Contains64_loop (λ _ _ _, eq_refl)
              (λ _ _ _ _ _, eq_refl)).
Qed.

Lemma NewInt64Bloom_mk_wf (m k : Z) :
  0 <= m < 2 ^ 32 →
  ∃ bm, NewBitmap m = Ret bm ∧ wf m bm ∧
    NewInt64Bloom_mk m k
    = Ret (mkInt64BloomFilter bm
             (createInt64HashFunctions (if k >? 8 then 8 else k)) m).
Proof.
  intros Hm. destruct (New_mk_wf m k Hm) as (bf & Hbf & Hwf & _).
  unfold New_mk in Hbf. unfold NewInt64Bloom_mk.
  destruct (NewBitmap m) as [bm| | |] eqn:Hb; try discriminate.
  exists bm. split; [done|]. split; [|done].
  apply NewBitmap_wf; [unfold is_int64; lia|done].
Qed.

Lemma Add64_sets (m : Z) (bf : Int64BloomFilter) (d : Z) :
  0 < m → wf_filter64 m bf →
  ∃ bf', Add64 bf d = Ret bf' ∧ wf_filter64 m bf' ∧
    hashFunc64 bf' = hashFunc64 bf ∧
    (∀ j, 0 <= j < m → get (bitmap64 bf) j = true → get (bitmap64 bf') j = true) ∧
    (∀ fn, fn ∈ hashFunc64 bf → get (bitmap64 bf') (fn d mod m) = true).
Proof.
  intros Hm [Hwf Hs]. unfold Add64. rewrite Hs.
  destruct (add_loop_sets Add64_loop (λ _ _ _, eq_refl) (λ _ _ _ _ _, eq_refl)
              (hashFunc64 bf) (bitmap64 bf) m d Hm Hwf)
    as (bm' & -> & Hwf' & Hmono & Hall).
  simpl. eexists. split; [reflexivity|]. simpl.
  split; [by split|]. split; [done|]. split; assumption.
Qed.

Lemma AddEach_sets (m : Z) (ds : list Z) (bf : Int64BloomFilter) :
  0 < m → wf_filter64 m bf →
  ∃ bf', AddEach bf ds = Ret bf' ∧ wf_filter64 m bf' ∧
    hashFunc64 bf' = hashFunc64 bf ∧
    (∀ j, 0 <= j < m → get (bitmap64 bf) j = true → get (bitmap64 bf') j = true).
Proof.
  intros Hm. revert bf. induction ds as [|d ds IH]; intros bf Hwf.
  - exists bf. split; [done|]. split; [done|]. split; [done|]. auto.
  - destruct (Add64_sets m bf d Hm Hwf) as (bf1 & Hadd & Hwf1 & Hh1 & Hmono1 & _).
    destruct (IH bf1 Hwf1) as (bf' & Hall & Hwf' & Hh' & Hmono').
    exists bf'. simpl. rewrite Hadd. simpl. split; [done|].
    split; [done|]. split; [congruence|]. auto.
Qed.

Lemma AddEach_no_hash (bf : Int64BloomFilter) (ds : list Z) :
  hashFunc64 bf = [] → AddEach bf ds = Ret bf.
Proof.
  intros Hh. induction ds as [|d ds IH]; [done|].
  simpl. unfold Add64. rewrite Hh. simpl.
  destruct bf as [bm fns sz]. simpl in *. by subst.
Qed.

(** X4. In an int64-keyed filter with [m] bits and [k] hash functions,
    [k = 0] if [m = 0], after any earlier [Add] calls, once [Add(d)] has
    run, [Contains(d)] returns true, also after any further [Add] calls;
    all the calls return. *)
Theorem int64_bloom_no_false_negative (m k : Z) (pre post : list Z) (d : Z) :
  0 <= m < 2 ^ 32 → (m = 0 → k = 0) →
  ∃ bf0 bf1 bf2 bf3,
    NewInt64Bloom_mk m k = Ret bf0 ∧ AddEach bf0 pre = Ret bf1 ∧
    Add64 bf1 d = Ret bf2 ∧ AddEach bf2 post = Ret bf3 ∧
    Contains64 bf2 d = Ret true ∧ Contains64 bf3 d = Ret true.
Proof.
  intros Hm Hk. destruct (decide (m = 0)) as [->|Hm0].
  - rewrite Hk by done.
    set (bf := mkInt64BloomFilter (mkBitmap false [] 0) [] 0).
    assert (∀ ds, AddEach bf ds = Ret bf) as Hall
      by (intros ds; by apply AddEach_no_hash).
    exists bf, bf, bf, bf. split; [done|]. split; [done|].
    split; [apply (Hall [d])|]. split; done.
  - assert (0 < m) as Hpos by lia.
    destruct (NewInt64Bloom_mk_wf m k Hm) as (bm & _ & Hwfb & H0).
    set (bf0 := mkInt64BloomFilter bm
                  (createInt64HashFunctions (if k >? 8 then 8 else k)) m) in *.
    assert (wf_filter64 m bf0) as Hwf0 by (by split).
    destruct (AddEach_sets m pre bf0 Hpos Hwf0) as (bf1 & H1 & Hwf1 & _ & _).
    destruct (Add64_sets m bf1 d Hpos Hwf1) as (bf2 & H2 & Hwf2 & Hh2 & _ & Hset).
    destruct (AddEach_sets m post bf2 Hpos Hwf2) as (bf3 & H3 & Hwf3 & Hh3 & Hmono).
    exists bf0, bf1, bf2, bf3. repeat (split; [done|]).
    rewrite !(Contains64_forallb m) by done.
    split; f_equal; apply forallb_forall; intros fn Hin;
      apply list_elem_of_In in Hin.
    + apply Hset. congruence.
    + apply Hmono; [by apply Z.mod_pos_bound|]. apply Hset. congruence.
Qed.

(** The theorem at [m = 9586], [k = 7], with the keys of the package's
    test. *)
Lemma int64_bloom_no_false_negative_witness :
  ∃ bf0 bf1 bf2 bf3,
    NewInt64Bloom_mk 9586 7 = Ret bf0 ∧ AddEach bf0 [0; -1] = Ret bf1 ∧
    Add64 bf1 123456789 = Ret bf2 ∧ AddEach bf2 [2 ^ 63 - 1] = Ret bf3 ∧
    Contains64 bf2 123456789 = Ret true ∧ Contains64 bf3 123456789 = Ret true.
Proof. apply (int64_bloom_no_false_negative 9586 7); lia. Defined.

Lemma New_mk_fresh (m k : Z) :
  0 <= m < 2 ^ 32 →
  ∃ bm, NewBitmap m = Ret bm ∧ wf m bm ∧
    New_mk m k
    = Ret (mkBloomFilter bm (createHashFunctions (if k >? 8 then 8 else k)) m).
Proof.
  intros Hm. destruct (NewInt64Bloom_mk_wf m k Hm) as (bm & Hb & Hwf & _).
  exists bm. split; [done|]. split; [done|]. unfold New_mk. by rewrite Hb.
Qed.

Lemma forallb_head_false {A} (f : A → bool) (a : A) (l : list A) :
  f a = false → forallb f (a :: l) = false.
Proof. intros H. cbn [forallb]. by rewrite H. Qed.

(** X5. A filter fresh from the constructor, with at least one bit and at
    least one hash function, contains nothing: [Contains] returns false
    for every key, in the byte-keyed and in the int64-keyed filter. *)
Theorem fresh_filter_contains_nothing (m k : Z) (d : list Byte.byte) (x : Z) :
  1 <= m < 2 ^ 32 → 1 <= k →
  (∃ bf, New_mk m k = Ret bf ∧ Contains bf d = Ret false) ∧
  (∃ bf, NewInt64Bloom_mk m k = Ret bf ∧ Contains64 bf x = Ret false).
Proof.
  intros Hm Hk. assert (0 < m) as Hpos by lia.
  assert (is_int64 m) as Hi by (unfold is_int64; lia).
  set (k' := if k >? 8 then 8 else k).
  assert (seqZ 0 k' = 0 :: seqZ 1 (Z.pred k')) as Hseq.
  { apply seqZ_cons. unfold k'. destruct (Z.gtb_spec k 8); lia. }
  split.
  - destruct (New_mk_fresh m k) as (bm & Hb & Hwf & Hnew); [lia|].
    eexists. split; [exact Hnew|].
    rewrite (Contains_forallb m) by (done || by split).
    f_equal. cbn [hashFunc bitmap]. fold k'.
    unfold createHashFunctions. rewrite Hseq, fmap_cons.
    apply forallb_head_false.
    apply (fresh_get m); [done|done|by apply Z.mod_pos_bound].
  - destruct (NewInt64Bloom_mk_wf m k) as (bm & Hb & Hwf & Hnew); [lia|].
    eexists. split; [exact Hnew|].
    rewrite (Contains64_forallb m) by (done || by split).
    f_equal. cbn [hashFunc64 bitmap64]. fold k'.
    unfold createInt64HashFunctions. rewrite Hseq, fmap_cons.
    apply forallb_head_false.
    apply (fresh_get m); [done|done|by apply Z.mod_pos_bound].
Qed.

(** The theorem at the parameters of [New(100, 0.01)]. *)
Lemma fresh_filter_contains_nothing_witness :
  (∃ bf, New_mk 959 7 = Ret bf ∧
     Contains bf ["t"; "e"; "s"; "t"]%byte = Ret false) ∧
  (∃ bf, NewInt64Bloom_mk 959 7 = Ret bf ∧ Contains64 bf 42 = Ret false).
Proof. apply (fresh_filter_contains_nothing 959 7); lia. Defined.

(** X6. [Add] never takes a key out: in a filter reached from the
    constructor by [Add] calls, a key for which [Contains] returns true
    still has [Contains] return true after [Add] of any other key. *)
Theorem Add_keeps_members (m k : Z) (pre : list (list Byte.byte))
    (x y : list Byte.byte) :
  0 <= m < 2 ^ 32 → (m = 0 → k = 0) →
  ∃ bf0 bf bf', New_mk m k = Ret bf0 ∧ AddAll bf0 pre = Ret bf ∧
    Add bf y = Ret bf' ∧
    (Contains bf x = Ret true → Contains bf' x = Ret true).
Proof.
  intros Hm Hk. destruct (decide (m = 0)) as [->|Hm0].
  - rewrite Hk by done.
    set (bf := mkBloomFilter (mkBitmap false [] 0) [] 0).
    assert (∀ ds, AddAll bf ds = Ret bf) as Hall
      by (intros ds; by apply AddAll_no_hash).
    exists bf, bf, bf. split; [done|]. split; [done|].
    split; [apply (Hall [y])|done].
  - assert (0 < m) as Hpos by lia.
    destruct (New_mk_wf m k) as (bf0 & H0 & Hwf0); [lia|].
    destruct (AddAll_wf m pre bf0 Hpos Hwf0) as (bf & H1 & Hwf1 & _ & _).
    destruct (Add_wf m bf y Hpos Hwf1) as (bf' & H2 & Hwf2 & Hh2 & Hmono & _).
    exists bf0, bf, bf'. repeat (split; [done|]).
    rewrite !(Contains_forallb m), Hh2 by done.
    intros [= Hall]. f_equal. rewrite forallb_forall in Hall.
    apply forallb_forall. intros fn Hin.
    apply Hmono; [by apply Z.mod_pos_bound|by apply Hall].
Qed.

(** The theorem at the parameters of [New(100, 0.01)]. *)
Lemma Add_keeps_members_witness :
  ∃ bf0 bf bf', New_mk 959 7 = Ret bf0 ∧ AddAll bf0 [["a"]%byte] = Ret bf ∧
    Add bf ["b"]%byte = Ret bf' ∧
    (Contains bf ["a"]%byte = Ret true → Contains bf' ["a"]%byte = Ret true).
Proof. apply (Add_keeps_members 959 7); lia. Defined.

Lemma AddAll_constructed (m : Z) (ds : list (list Byte.byte)) (bf bf' : BloomFilter) :
  is_int64 m → size bf = m → constructed m (bitmap bf) →
  AddAll bf ds = Ret bf' →
  size bf' = m ∧ hashFunc bf' = hashFunc bf ∧ constructed m (bitmap bf').
Proof.
  intros Hm. revert bf. induction ds as [|d ds IH]; intros bf Hs Hc H.
  - injection H as <-. done.
  - simpl in H. destruct (Add bf d) as [bf1| | |] eqn:Ha; try discriminate.
    simpl in H. unfold Add in Ha. rewrite Hs in Ha.
    destruct (Add_loop _ _ _ _) as [bm1| | |] eqn:Hl; try discriminate.
    injection Ha as <-.
    destruct (add_loop_constructed Add_loop (λ _ _ _, eq_refl)
                (λ _ _ _ _ _, eq_refl) _ _ _ _ _ Hm Hc Hl) as [Hc1 _].
    apply (IH (mkBloomFilter bm1 (hashFunc bf) m) eq_refl Hc1 H).
Qed.

(** X7. [Add] sets at most one new bit per hash function and clears
    none: in a filter reached from the constructor by [Add] calls, the
    bitmap's [Count] after [Add(d)] is at least the [Count] before and
    exceeds it by no more than the number of hash functions, which is at
    most 8. *)
Theorem Add_sets_few_bits (m k : Z) (pre : list (list Byte.byte))
    (d : list Byte.byte) :
  1 <= m < 2 ^ 32 → 0 <= k →
  ∃ bf0 bf bf' c c', New_mk m k = Ret bf0 ∧ AddAll bf0 pre = Ret bf ∧
    Add bf d = Ret bf' ∧
    Count (bitmap bf) = Ret c ∧ Count (bitmap bf') = Ret c' ∧
    c <= c' <= c + Z.min k 8.
Proof.
  intros Hm Hk. assert (0 < m) as Hpos by lia.
  assert (is_int64 m) as Hi by (unfold is_int64; lia).
  destruct (New_mk_fresh m k) as (bm & Hb & Hwfb & Hnew); [lia|].
  set (k' := if k >? 8 then 8 else k) in *.
  set (bf0 := mkBloomFilter bm (createHashFunctions k') m) in *.
  assert (wf_filter m bf0) as Hwf0 by (by split).
  destruct (AddAll_wf m pre bf0 Hpos Hwf0) as (bf & H1 & Hwf1 & _ & _).
  destruct (Add_wf m bf d Hpos Hwf1) as (bf' & H2 & _).
  destruct (AddAll_constructed m pre bf0 bf Hi eq_refl
              (constructed_new m bm Hb) H1) as (Hs & Hh & Hc).
  pose proof H2 as H2'. unfold Add in H2'. rewrite Hs in H2'.
  destruct (Add_loop _ _ _ _) as [bm1| | |] eqn:Hl; try discriminate.
  injection H2' as <-.
  destruct (add_loop_constructed Add_loop (λ _ _ _, eq_refl)
              (λ _ _ _ _ _, eq_refl) _ _ _ _ _ Hi Hc Hl) as [Hc1 Hlen].
  pose proof (Count_counts_set_bits_aux m (bitmap bf) Hi Hc) as Hcount.
  pose proof (Count_counts_set_bits_aux m bm1 Hi Hc1) as Hcount1.
  exists bf0, bf, (mkBloomFilter bm1 (hashFunc bf) m).
  eexists _, _.
  split; [done|]. split; [done|]. split; [done|].
  split; [exact Hcount|]. split; [exact Hcount1|].
  rewrite Hh in Hlen. simpl in Hlen.
  unfold createHashFunctions in Hlen.
  rewrite length_fmap, length_seqZ in Hlen.
  unfold k' in Hlen. destruct (Z.gtb_spec k 8); lia.
Qed.

(** The theorem at the parameters of [New(100, 0.01)]. *)
Lemma Add_sets_few_bits_witness :
  ∃ bf0 bf bf' c c', New_mk 959 7 = Ret bf0 ∧
    AddAll bf0 [["a"]%byte] = Ret bf ∧ Add bf ["b"]%byte = Ret bf' ∧
    Count (bitmap bf) = Ret c ∧ Count (bitmap bf') = Ret c' ∧
    c <= c' <= c + Z.min 7 8.
Proof. apply (Add_sets_few_bits 959 7); lia. Defined.

End bloomFacts.

(** ** Package id *)

Module idFacts.

Import strconv id.

(** *** Zone packing *)

Lemma land_low_byte (a zone : Z) :
  is_uint8 zone → a mod 2 ^ 8 = 0 → Z.land a zone = 0.
Proof.
  intros Hz Ha. apply Z.bits_inj'. intros k Hk.
  rewrite Z.land_spec, Z.bits_0.
  destruct (decide (k < 8)) as [Hlt|Hge].
  - rewrite <- (Z.mod_pow2_bits_low a 8 k), Ha, Z.bits_0 by lia. done.
  - assert (Z.testbit zone k = false) as ->; [|apply andb_false_r].
    unfold is_uint8 in Hz. destruct (decide (zone = 0)) as [->|Hnz].
    + apply Z.bits_0.
    + apply Z.bits_above_log2; [lia|].
      assert (Z.log2 zone < 8) by (apply Z.log2_lt_pow2; lia). lia.
Qed.

Lemma shifted_low_byte (zoneId : Z) :
  wrap64s (Z.shiftl zoneId zoneBit) mod 2 ^ 8 = 0.
Proof.
  unfold wrap64s, zoneBit. rewrite Z.shiftl_mul_pow2 by lia.
  pose proof (Z.div_mod (zoneId * 2 ^ 8 + 2 ^ 63) (2 ^ 64)) as Hdm.
  set (q := (zoneId * 2 ^ 8 + 2 ^ 63) / 2 ^ 64) in *.
  set (r := (zoneId * 2 ^ 8 + 2 ^ 63) mod 2 ^ 64) in *.
  replace (r - 2 ^ 63) with ((zoneId - 2 ^ 56 * q) * 2 ^ 8) by lia.
  apply Z_mod_mult.
Qed.

(** C3. [CombineZoneId] is the constant 0 on [int64] x [uint8], so
    splitting what it returns gives [(0, 0)], and [SplitId] recovers the
    pair only for [(0, 0)]. *)
Theorem CombineZoneId_zero (zoneId zone : Z) :
  is_int64 zoneId → is_uint8 zone →
  CombineZoneId zoneId zone = 0 ∧
  SplitId (CombineZoneId zoneId zone) = (0, 0) ∧
  (zoneId ≠ 0 ∨ zone ≠ 0 → SplitId (CombineZoneId zoneId zone) ≠ (zoneId, zone)).
Proof.
  intros _ Hz.
  assert (CombineZoneId zoneId zone = 0) as H0
    by (apply land_low_byte; [done|apply shifted_low_byte]).
  rewrite H0. split; [done|]. split; [done|].
  intros Hne Heq. injection Heq as <- <-. destruct Hne; done.
Qed.

(** The theorem at zone id 12345 and zone 7. *)
Lemma CombineZoneId_zero_witness :
  CombineZoneId 12345 7 = 0 ∧ SplitId (CombineZoneId 12345 7) = (0, 0) ∧
  SplitId (CombineZoneId 12345 7) ≠ (12345, 7).
Proof.
  assert (is_int64 12345) as H1 by (unfold is_int64; lia).
  assert (is_uint8 7) as H2 by (unfold is_uint8; lia).
  destruct (CombineZoneId_zero 12345 7 H1 H2) as (Ha & Hb & Hc).
  split; [exact Ha|]. split; [exact Hb|]. apply Hc. left. lia.
Defined.

(** *** Decimal rendering and parsing *)

Lemma code_digit (d : Z) : 0 <= d <= 9 → code (digit d) = 48 + d.
Proof.
  intros Hd. unfold code, digit. rewrite N_ascii_embedding; lia.
Qed.

Lemma digit_not_minus (d : Z) : 0 <= d <= 9 → digit d ≠ "-"%char.
Proof.
  intros Hd He. pose proof (code_digit d Hd) as Hc. rewrite He in Hc.
  change (code "-"%char) with 45 in Hc. lia.
Qed.

Lemma append_cons (x : ascii) (a b : string) :
  String x a +:+ b = String x (a +:+ b).
Proof. reflexivity. Qed.

Lemma append_assoc (a b c : string) : (a +:+ b) +:+ c = a +:+ (b +:+ c).
Proof.
  induction a as [|x a IH]; [done|]. rewrite !append_cons. by f_equal.
Qed.

Lemma ParseUint_loop_app (s1 s2 : string) (n : Z) :
  ParseUint_loop (s1 +:+ s2) n =
  match ParseUint_loop s1 n with
  | inr n' => ParseUint_loop s2 n'
  | inl e => inl e
  end.
Proof.
  revert n. induction s1 as [|c s1 IH]; intros n; [done|].
  rewrite append_cons. simpl. destruct (_ && _); [|done].
  destruct (_ >=? _); [done|]. destruct (_ || _); [done|]. apply IH.
Qed.

Lemma formatBits_acc (fuel : nat) (u : Z) (acc : string) :
  formatBits fuel u acc = formatBits fuel u "" +:+ acc.
Proof.
  revert u acc. induction fuel as [|fuel IH]; intros u acc; [done|].
  simpl. destruct (u <? 10); [done|].
  rewrite (IH _ (String _ acc)), (IH _ (String _ "")).
  by rewrite append_assoc.
Qed.

Lemma ParseUint_loop_digit (n d : Z) :
  0 <= d <= 9 → 0 <= n → n * 10 + d < 2 ^ 64 →
  ParseUint_loop (String (digit d) "") n = inr (n * 10 + d).
Proof.
  intros Hd Hn Hlt. simpl. rewrite code_digit by done.
  destruct (Z.leb_spec 48 (48 + d)); [|lia].
  destruct (Z.leb_spec (48 + d) 57); [|lia]. simpl.
  change (maxUint64 / 10 + 1) with 1844674407370955162.
  change (2 ^ 64) with 18446744073709551616 in Hlt.
  destruct (Z.geb_spec n 1844674407370955162); [lia|].
  assert (wrap64u (n * 10) = n * 10) as ->
    by (unfold wrap64u; apply Z.mod_small; lia).
  replace (48 + d - 48) with d by lia.
  assert (wrap64u (n * 10 + d) = n * 10 + d) as ->
    by (unfold wrap64u; apply Z.mod_small; lia).
  destruct (Z.ltb_spec (n * 10 + d) (n * 10)); [lia|].
  unfold maxUint64. destruct (Z.gtb_spec (n * 10 + d) (2 ^ 64 - 1)); [lia|done].
Qed.

Lemma ParseUint_loop_formatBits (fuel : nat) (u : Z) :
  0 <= u < 2 ^ 64 → u < 10 ^ Z.of_nat fuel →
  ParseUint_loop (formatBits fuel u "") 0 = inr u.
Proof.
  revert u. induction fuel as [|fuel IH]; intros u Hu Hf.
  - simpl in *. f_equal; lia.
  - simpl. destruct (Z.ltb_spec u 10) as [Hlt|Hge].
    + rewrite ParseUint_loop_digit by lia. f_equal; lia.
    + assert (0 <= u / 10) by (apply Z.div_pos; lia).
      assert (u / 10 * 10 + u mod 10 = u) as Hdm
        by (rewrite (Z.div_mod u 10) at 3; lia).
      assert (0 <= u mod 10 < 10) by (apply Z.mod_pos_bound; lia).
      rewrite formatBits_acc, ParseUint_loop_app, IH.
      * rewrite ParseUint_loop_digit by lia. by rewrite Hdm.
      * lia.
      * rewrite Nat2Z.inj_succ, Z.pow_succ_r in Hf by lia.
        apply Z.div_lt_upper_bound; lia.
Qed.

Lemma formatBits_cons (fuel : nat) (u : Z) (c : ascii) (acc : string) :
  ∃ c' s, formatBits fuel u (String c acc) = String c' s.
Proof.
  revert u c acc. induction fuel as [|fuel IH]; intros u c acc.
  - by exists c, acc.
  - simpl. destruct (u <? 10); [by eexists _, _|]. apply IH.
Qed.

Lemma FormatUint_cons (u : Z) :
  0 <= u → ∃ c s, FormatUint u = String c s ∧ c ≠ "-"%char.
Proof.
  intros Hu. unfold FormatUint. 
  assert (∀ fuel v acc, 0 <= v →
            (∀ c s, acc = String c s → c ≠ "-"%char) →
            ∃ c s, formatBits (S fuel) v acc = String c s ∧ c ≠ "-"%char) as Hgen.
  { induction fuel as [|fuel IH]; intros v acc Hv Hacc.
    - simpl. destruct (Z.ltb_spec v 10).
      + eexists _, _. split; [done|]. apply digit_not_minus. lia.
      + eexists _, _. split; [done|]. apply digit_not_minus.
        pose proof (Z.mod_pos_bound v 10). lia.
    - change (formatBits (S (S fuel)) v acc) with
        (if v <? 10 then String (digit v) acc
         else formatBits (S fuel) (v / 10) (String (digit (v mod 10)) acc)).
      destruct (Z.ltb_spec v 10).
      + eexists _, _. split; [done|]. apply digit_not_minus. lia.
      + apply IH; [apply Z.div_pos; lia|].
        intros c s [= <- _]. apply digit_not_minus.
        pose proof (Z.mod_pos_bound v 10). lia. }
  apply Hgen; [done|]. intros c s. discriminate.
Qed.

Lemma ParseUint_FormatUint (u : Z) :
  0 <= u < 2 ^ 64 → ParseUint (FormatUint u) = inr u.
Proof.
  intros Hu. destruct (FormatUint_cons u) as (c & s & Hs & _); [lia|].
  unfold ParseUint. rewrite Hs, <- Hs. unfold FormatUint.
  apply ParseUint_loop_formatBits; [done|].
  change (2 ^ 64) with 18446744073709551616 in Hu.
  change (10 ^ Z.of_nat 20) with 100000000000000000000. lia.
Qed.

Lemma ParseInt_FormatInt_neg (x : Z) :
  is_int64 x → x < 0 → ParseInt (FormatInt x) = Ret x.
Proof.
  unfold is_int64. intros Hx Hneg. unfold FormatInt.
  destruct (Z.ltb_spec x 0); [|lia].
  assert (wrap64u (- x) = - x) as -> by (unfold wrap64u; apply Z.mod_small; lia).
  unfold ParseInt. rewrite (bool_decide_true ("-"%char = "-"%char)) by done.
  rewrite orb_true_r, ParseUint_FormatUint by lia. simpl.
  destruct (Z.gtb_spec (- x) (2 ^ 63)); [lia|]. f_equal.
  unfold wrap64s. destruct (decide (x = - 2 ^ 63)) as [->|Hne]; [done|].
  rewrite (Z.mod_small (- x + 2 ^ 63)) by lia.
  replace (- (- x + 2 ^ 63 - 2 ^ 63) + 2 ^ 63) with (x + 2 ^ 63) by lia.
  rewrite Z.mod_small by lia. lia.
Qed.

Example FormatInt_MinInt64 :
  FormatInt MinInt64 = "-9223372036854775808"%string ∧
  ParseInt "-9223372036854775808" = Ret MinInt64 ∧
  ParseInt "-9223372036854775809" = Err "strconv.ParseInt: value out of range" ∧
  ParseInt "-" = Err "strconv.ParseInt: invalid syntax".
Proof. vm_compute. done. Qed.

(** *** The id codec *)

Section CodecContract.

Variable EncodeInt64 : list Z → go string.
Variable DecodeInt64WithError : string → go (list Z).

(** What the package relies on from hashids: a single non-negative
    [int64] is encoded, over an alphabet without ['-'], to a string that
    decodes to it. *)
Hypothesis codec_reversible : ∀ x, 0 <= x < 2 ^ 63 →
  ∃ str, EncodeInt64 [x] = Ret str ∧ leading_minus str = false ∧
    DecodeInt64WithError str = Ret [x].

(** C5. For every [int64] [x], [EncodeId] returns a string and [DecodeId]
    of that string returns [x] without error: a negative [x] goes out as
    its decimal string and comes back through [ParseInt], a non-negative
    one goes through the reversible codec. *)
Theorem EncodeId_DecodeId (x : Z) :
  is_int64 x →
  ∃ str, EncodeId EncodeInt64 x = Ret str ∧
    DecodeId DecodeInt64WithError str = Ret x ∧
    (x < 0 → str = FormatInt x ∧ leading_minus str = true).
Proof using codec_reversible.
  intros Hx. unfold EncodeId, DecodeId.
  destruct (Z.ltb_spec x 0) as [Hneg|Hpos].
  - exists (FormatInt x). split; [done|].
    assert (leading_minus (FormatInt x) = true) as Hm.
    { unfold FormatInt. destruct (Z.ltb_spec x 0); [|lia]. done. }
    rewrite Hm. split; [by apply ParseInt_FormatInt_neg|done].
  - destruct (codec_reversible x) as (str & He & Hm & Hd);
      [unfold is_int64 in Hx; lia|].
    exists str. rewrite He, Hm, Hd. split; [done|]. split; [done|lia].
Qed.

End CodecContract.

Lemma plain_codec_reversible (x : Z) :
  0 <= x < 2 ^ 63 →
  ∃ str, plain_encode [x] = Ret str ∧ leading_minus str = false ∧
    plain_decode str = Ret [x].
Proof.
  intros Hx. eexists. unfold plain_encode.
  destruct (Z.ltb_spec x 0); [lia|]. split; [done|]. split; [done|].
  simpl. rewrite ParseUint_FormatUint; [done|lia].
Qed.

(** The theorem with the stand-in codec, at the two ends of [int64]. *)
Lemma EncodeId_DecodeId_witness :
  (∃ str, EncodeId plain_encode MinInt64 = Ret str ∧
     DecodeId plain_decode str = Ret MinInt64 ∧
     (MinInt64 < 0 → str = FormatInt MinInt64 ∧ leading_minus str = true)) ∧
  (∃ str, EncodeId plain_encode MaxInt64 = Ret str ∧
     DecodeId plain_decode str = Ret MaxInt64 ∧
     (MaxInt64 < 0 → str = FormatInt MaxInt64 ∧ leading_minus str = true)).
Proof.
  split;
    apply (EncodeId_DecodeId plain_encode plain_decode plain_codec_reversible);
    unfold is_int64, MinInt64, MaxInt64; lia.
Defined.

(** *** More on the id package *)

(** X8. [SplitId] takes an [int64] id apart into its quotient and
    remainder by 256: the id is [zoneId * 256 + zone] with [zone] a byte,
    and an [int64] id put together that way from a zone id and a zone
    byte splits into the two. *)
Theorem SplitId_decompose (id zoneId zone : Z) :
  is_int64 id → is_uint8 zone → is_int64 (zoneId * 256 + zone) →
  (id = (SplitId id).1 * 256 + (SplitId id).2 ∧ is_uint8 (SplitId id).2 ∧
   is_int64 (SplitId id).1) ∧
  SplitId (zoneId * 256 + zone) = (zoneId, zone) ∧ is_int64 zoneId.
Proof.
  intros Hid Hz Hcomb.
  assert (∀ x, SplitId x = (x / 256, x mod 256)) as Hsplit.
  { intros x. unfold SplitId, MaxZone, zoneBit, wrap8u.
    rewrite Z.shiftr_div_pow2 by lia.
    change (Z.shiftl 1 8 - 1) with (Z.ones 8).
    rewrite Z.land_ones by lia.
    change (2 ^ 8) with 256. by rewrite Z.mod_mod. }
  rewrite !Hsplit. simpl. unfold is_uint8, is_int64 in *.
  pose proof (Z.div_mod id 256). pose proof (Z.mod_pos_bound id 256).
  split; [split; [lia|split; [lia|]]|split].
  - change (2 ^ 63) with (256 * 2 ^ 55) in *. split.
    + apply Z.div_le_lower_bound; lia.
    + apply Z.div_lt_upper_bound; lia.
  - f_equal.
    + rewrite Z.add_comm, Z.div_add, Z.div_small by lia. lia.
    + rewrite Z.add_comm, Z.mod_add, Z.mod_small by lia. lia.
  - change (2 ^ 63) with (256 * 2 ^ 55) in *. lia.
Qed.

(** The theorem at the id 3160327 = 12345 * 256 + 7 and at the negative
    id -3160313 = -12345 * 256 + 7. *)
Lemma SplitId_decompose_witness :
  SplitId 3160327 = (12345, 7) ∧ SplitId (12345 * 256 + 7) = (12345, 7) ∧
  SplitId (-12345 * 256 + 7) = (-12345, 7).
Proof.
  assert (is_int64 3160327) as H1 by (unfold is_int64; lia).
  assert (is_uint8 7) as H2 by (unfold is_uint8; lia).
  assert (is_int64 (12345 * 256 + 7)) as H3 by (unfold is_int64; lia).
  assert (is_int64 (-12345 * 256 + 7)) as H4 by (unfold is_int64; lia).
  destruct (SplitId_decompose 3160327 12345 7 H1 H2 H3) as (_ & H & _).
  destruct (SplitId_decompose 3160327 (-12345) 7 H1 H2 H4) as (_ & H' & _).
  split; [exact H|]. split; [exact H|exact H'].
Defined.

Section CodecInjective.

Variable EncodeInt64 : list Z → go string.
Variable DecodeInt64WithError : string → go (list Z).

Hypothesis codec_reversible : ∀ x, 0 <= x < 2 ^ 63 →
  ∃ str, EncodeInt64 [x] = Ret str ∧ leading_minus str = false ∧
    DecodeInt64WithError str = Ret [x].

(** X9. With a reversible codec, [EncodeId] gives different ids different
    strings: two [int64] ids encoded to the same string are equal, and an
    id is negative exactly if its string starts with ['-']. *)
Theorem EncodeId_injective (x y : Z) (str : string) :
  is_int64 x → is_int64 y →
  EncodeId EncodeInt64 x = Ret str → EncodeId EncodeInt64 y = Ret str →
  x = y ∧ (leading_minus str = true ↔ x < 0).
Proof using codec_reversible.
  assert (∀ z s, is_int64 z → EncodeId EncodeInt64 z = Ret s →
            DecodeId DecodeInt64WithError s = Ret z ∧
            (leading_minus s = true ↔ z < 0)) as Hdec.
  { intros z s Hz He. unfold EncodeId in He. unfold DecodeId.
    destruct (Z.ltb_spec z 0) as [Hneg|Hpos].
    - injection He as <-.
      assert (leading_minus (FormatInt z) = true) as Hm.
      { unfold FormatInt. destruct (Z.ltb_spec z 0); [|lia]. done. }
      rewrite Hm. split; [by apply ParseInt_FormatInt_neg|done].
    - destruct (codec_reversible z) as (s' & Hs' & Hm & Hd);
        [unfold is_int64 in Hz; lia|].
      rewrite Hs' in He. injection He as <-. rewrite Hm, Hd.
      split; [done|]. split; [done|lia]. }
  intros Hx Hy Ex Ey.
  destruct (Hdec x str Hx Ex) as [Dx Mx].
  destruct (Hdec y str Hy Ey) as [Dy _].
  split; [congruence|done].
Qed.

End CodecInjective.

(** The theorem with the stand-in codec, at the ids -5 and 7. *)
Lemma EncodeId_injective_witness :
  (∀ y, is_int64 y → EncodeId plain_encode y = Ret "-5"%string → -5 = y) ∧
  (∀ y, is_int64 y → EncodeId plain_encode y = Ret "n7"%string → 7 = y).
Proof.
  split; intros y Hy Ey.
  - refine (proj1 (EncodeId_injective plain_encode plain_decode
                     plain_codec_reversible (-5) y "-5" _ Hy eq_refl Ey)).
    unfold is_int64. lia.
  - refine (proj1 (EncodeId_injective plain_encode plain_decode
                     plain_codec_reversible 7 y "n7" _ Hy eq_refl Ey)).
    unfold is_int64. lia.
Defined.

(** *** Strings with a leading minus *)

Section MinusStrings.

(** Whatever the hashids instance does. *)
Variable DecodeInt64WithError : string → go (list Z).

(** X29. [DecodeId] reads every string made of ['-'] and the decimal
    digits of a [uint64] [n] as a decimal number, without asking the
    hashids codec: it returns [-n] up to [n = 2^63] and an error beyond;
    so ["-0"] decodes to [0]. *)
Theorem DecodeId_minus_strings (n : Z) :
  0 <= n < 2 ^ 64 →
  (n <= 2 ^ 63 →
   DecodeId DecodeInt64WithError (String "-" (strconv.FormatUint n))
   = Ret (- n)) ∧
  (2 ^ 63 < n →
   ∃ e, DecodeId DecodeInt64WithError (String "-" (strconv.FormatUint n))
        = Err e) ∧
  DecodeId DecodeInt64WithError "-0" = Ret 0.
Proof using Type.
  intros Hn.
  assert (DecodeId DecodeInt64WithError (String "-" (strconv.FormatUint n))
          = if decide (n <= 2 ^ 63) then Ret (- n)
            else Err "strconv.ParseInt: value out of range") as Hdec.
  { unfold DecodeId. cbn [leading_minus].
    rewrite (bool_decide_true ("-"%char = "-"%char)) by done.
    unfold strconv.ParseInt.
    rewrite (bool_decide_true ("-"%char = "-"%char)) by done.
    rewrite orb_true_r, ParseUint_FormatUint by lia. simpl.
    case_decide as Hle.
    - destruct (Z.gtb_spec n (2 ^ 63)); [lia|]. f_equal.
      unfold wrap64s. destruct (decide (n = 2 ^ 63)) as [->|Hne]; [done|].
      rewrite (Z.mod_small (n + 2 ^ 63)) by lia.
      replace (- (n + 2 ^ 63 - 2 ^ 63) + 2 ^ 63) with (- n + 2 ^ 63) by lia.
      rewrite Z.mod_small by lia. lia.
    - destruct (Z.gtb_spec n (2 ^ 63)); [done|lia]. }
  split; [|split].
  - intros Hle. by rewrite Hdec, decide_True.
  - intros Hgt. rewrite Hdec, decide_False by lia. by eexists.
  - done.
Qed.

End MinusStrings.

(** The theorem at 0 and at [2^63], with the stand-in codec. *)
Lemma DecodeId_minus_strings_witness :
  DecodeId plain_decode "-0" = Ret 0 ∧
  DecodeId plain_decode "-9223372036854775808" = Ret (- 2 ^ 63).
Proof.
  split.
  - assert (0 <= 0 < 2 ^ 64) as H by lia.
    destruct (DecodeId_minus_strings plain_decode 0 H) as (Hle & _).
    apply Hle. lia.
  - assert (0 <= 2 ^ 63 < 2 ^ 64) as H by lia.
    destruct (DecodeId_minus_strings plain_decode (2 ^ 63) H) as (Hle & _).
    apply Hle. lia.
Defined.

End idFacts.

(** ** Package strmap *)

Module strmapFacts.

Import strmap GoFacts.

Section Shards.

Context {V : Type}.
Implicit Types (m : ConcurrentMap V) (key : string).

Lemma shard_index_range key : 0 <= fnv32 key mod defaultShardCount < 32.
Proof. apply Z.mod_pos_bound. done. Qed.

Lemma index_out_of_range {A} (s : list A) (i : Z) :
  Z.of_nat (length s) <= i → index s i = Panic "index out of range".
Proof.
  intros Hi. unfold index. destruct (i <? 0); [done|].
  rewrite lookup_ge_None_2; [done|lia].
Qed.

Lemma getShard_panics m key :
  Z.of_nat (length m) <= fnv32 key mod defaultShardCount →
  getShard m key = Panic "index out of range".
Proof. intros Hi. unfold getShard. by rewrite index_out_of_range. Qed.

Lemma getShard_Ret m key :
  32 <= Z.of_nat (length m) →
  ∃ shard, m !! Z.to_nat (fnv32 key mod defaultShardCount) = Some shard ∧
    getShard m key = Ret (fnv32 key mod defaultShardCount, shard).
Proof.
  intros Hlen. pose proof (shard_index_range key) as Hr.
  destruct (lookup_lt_is_Some_2 m (Z.to_nat (fnv32 key mod defaultShardCount)))
    as [shard Hs]; [lia|].
  exists shard. split; [done|]. unfold getShard.
  rewrite (index_Ret _ _ shard) by (done || lia). done.
Qed.

Lemma Count_loop_sum m (k : nat) (a c : Z) :
  0 <= a → a + Z.of_nat k <= Z.of_nat (length m) →
  Count_loop m (seqZ a (Z.of_nat k)) c =
  Ret (c + Z.of_nat (sum_list_with (λ s, size (items s))
                       (take k (drop (Z.to_nat a) m)))).
Proof.
  revert a c. induction k as [|k IH]; intros a c Ha Hlen.
  - simpl. f_equal. lia.
  - rewrite Nat2Z.inj_succ, seqZ_cons by lia.
    destruct (lookup_lt_is_Some_2 m (Z.to_nat a)) as [s Hs]; [lia|].
    simpl. rewrite (index_Ret _ _ s) by done. simpl.
    rewrite Z.pred_succ, IH by lia.
    rewrite (drop_S _ _ _ Hs). simpl.
    replace (Z.to_nat (Z.succ a)) with (S (Z.to_nat a)) by lia.
    f_equal. lia.
Qed.

(** C4. A string-keyed map holding [n] shards, as every map created with
    [ShardCount = n > 0] does.  For [n < 32] a key whose hash modulo 32 is
    at least [n] exists, and every operation on such a key panics with an
    index out of range; for [n > 32] every key selects a shard below 32,
    [Set] leaves the shards from 32 on untouched, and [Count] adds up the
    first 32 shards only. *)
Theorem getShard_uses_default_count (n : Z) m :
  0 < n → Z.of_nat (length m) = n →
  Z.of_nat (length (NewWithOptions (V := V) (mkOptions n))) = n ∧
  (n < 32 →
     (∃ key, n <= fnv32 key mod 32) ∧
     (∀ key, n <= fnv32 key mod 32 → ∀ value ucb rcb,
        Set_ m key value = Panic "index out of range" ∧
        Get m key = Panic "index out of range" ∧
        Has m key = Panic "index out of range" ∧
        Remove m key = Panic "index out of range" ∧
        GetOrSet m key value = Panic "index out of range" ∧
        Upsert m key value ucb = Panic "index out of range" ∧
        SetIfAbsent m key value = Panic "index out of range" ∧
        RemoveCb m key rcb = Panic "index out of range" ∧
        Pop m key = Panic "index out of range")) ∧
  (32 < n →
     (∀ key, ∃ i shard, getShard m key = Ret (i, shard) ∧ 0 <= i < 32) ∧
     (∀ key value, ∃ m', Set_ m key value = Ret m' ∧
        ∀ j, (32 <= j)%nat → m' !! j = m !! j) ∧
     Count m = Ret (Z.of_nat (sum_list_with (λ s, size (items s)) (take 32 m)))).
Proof.
  intros Hn Hlen. split; [|split].
  - unfold NewWithOptions. simpl. destruct (Z.gtb_spec n 0); [|lia].
    rewrite length_replicate. lia.
  - intros Hlt. split.
    + exists "key89"%string. change (fnv32 "key89" mod 32) with 31. lia.
    + intros key Hkey value ucb rcb.
      assert (getShard m key = Panic "index out of range") as Hp
        by (apply getShard_panics; unfold defaultShardCount; lia).
      unfold Set_, Get, Has, Remove, GetOrSet, Upsert, SetIfAbsent, RemoveCb, Pop.
      rewrite Hp. done.
  - intros Hgt. split; [|split].
    + intros key. destruct (getShard_Ret m key) as (shard & _ & Hg); [lia|].
      eexists _, shard. split; [exact Hg|]. apply shard_index_range.
    + intros key value.
      destruct (getShard_Ret m key) as (shard & Hs & Hg); [lia|].
      pose proof (shard_index_range key) as Hr.
      eexists. unfold Set_. rewrite Hg. simpl.
      rewrite (store_Ret _ _ _ shard) by (done || lia).
      split; [done|]. intros j Hj. apply list_lookup_insert_ne. lia.
    + unfold Count. change defaultShardCount with (Z.of_nat 32).
      rewrite Count_loop_sum by lia. simpl. by rewrite drop_0.
Qed.

End Shards.

(** The theorem at 4 shards and at 40 shards of [nat] values. *)
Lemma getShard_uses_default_count_witness :
  Get (NewWithOptions (V := nat) (mkOptions 4)) "key89"
    = Panic "index out of range" ∧
  Count (NewWithOptions (V := nat) (mkOptions 40)) = Ret 0.
Proof.
  split.
  - assert (0 < 4) as H0 by lia.
    destruct (getShard_uses_default_count (V := nat) 4
                (NewWithOptions (mkOptions 4)) H0 eq_refl) as (_ & Hsmall & _).
    destruct Hsmall as [_ Hops]; [lia|].
    apply (Hops "key89"%string); [vm_compute; discriminate|exact 0%nat| |].
    + exact (λ _ v, v).
    + exact (λ _ _, true).
  - assert (0 < 40) as H0 by lia.
    destruct (getShard_uses_default_count (V := nat) 40
                (NewWithOptions (mkOptions 40)) H0 eq_refl) as (_ & _ & Hbig).
    destruct Hbig as (_ & _ & Hc); [lia|]. exact Hc.
Defined.

(** *** The operations on a map with the default shard count *)

Section Operations.

Context {V : Type}.
Implicit Types (m : ConcurrentMap V) (key : string) (value : V).

(** The shard a key lives in. *)
Local Abbreviation idx key := (Z.to_nat (fnv32 key mod defaultShardCount)).

(** What [Get] finds, read off the shards. *)
Lemma Get_lookup m key :
  32 <= Z.of_nat (length m) →
  ∃ shard, m !! idx key = Some shard ∧
    getShard m key = Ret (fnv32 key mod defaultShardCount, shard) ∧
    Get m key = Ret (items shard !! key).
Proof.
  intros Hlen. destruct (getShard_Ret m key Hlen) as (shard & Hs & Hg).
  exists shard. split; [done|]. split; [done|]. unfold Get. by rewrite Hg.
Qed.

(** [Has] reports whether [Get] finds a value. *)
Lemma Has_Get m key (o : option V) :
  Get m key = Ret o → Has m key = Ret (bool_decide (is_Some o)).
Proof.
  unfold Get, Has. destruct (getShard m key) as [[i s]| | |]; simpl; try done.
  by intros [= ->].
Qed.

(** Writing [items'] into the shard of [key]. *)
Lemma write_shard m key shard (items' : gmap string V) :
  m !! idx key = Some shard →
  store m (fnv32 key mod defaultShardCount) (mkShard items')
  = Ret (<[idx key := mkShard items']> m).
Proof.
  intros Hs. pose proof (shard_index_range key).
  by rewrite (store_Ret _ _ _ shard) by (done || lia).
Qed.

Lemma Get_after_write m key shard (items' : gmap string V) key' :
  32 <= Z.of_nat (length m) → m !! idx key = Some shard →
  (key' ≠ key → items' !! key' = items shard !! key') →
  Get (<[idx key := mkShard items']> m) key'
  = if decide (key' = key) then Ret (items' !! key) else Get m key'.
Proof.
  intros Hlen Hs Hother.
  assert (32 <= Z.of_nat (length (<[idx key := mkShard items']> m))) as Hlen'
    by (pose proof (length_insert m (idx key) (mkShard items')) as E;
        unfold ConcurrentMap in *; lia).
  destruct (Get_lookup _ key' Hlen') as (s' & Hs' & _ & ->).
  pose proof (lookup_lt_Some _ _ _ Hs) as Hlt.
  destruct (Get_lookup m key' Hlen) as (s0 & Hs0 & _ & ->).
  unfold ConcurrentMap in *.
  case_decide as Hk.
  - subst key'. rewrite list_lookup_insert_eq in Hs' by done.
    by injection Hs' as <-.
  - destruct (decide (idx key' = idx key)) as [Hi|Hi].
    + rewrite Hi, list_lookup_insert_eq in Hs' by done.
      injection Hs' as <-. simpl. rewrite Hother by done.
      rewrite Hi in Hs0. congruence.
    + rewrite list_lookup_insert_ne in Hs' by done. congruence.
Qed.

(** X13. On a map with at least the 32 default shards: after
    [Set(key, value)], [Get(key)] returns the value and [Has(key)] true,
    and [Get] of every other key returns what it did before. *)
Theorem Set_then_Get m key value :
  32 <= Z.of_nat (length m) →
  ∃ m', Set_ m key value = Ret m' ∧ length m' = length m ∧
    Get m' key = Ret (Some value) ∧ Has m' key = Ret true ∧
    ∀ key', key' ≠ key → Get m' key' = Get m key'.
Proof.
  intros Hlen. destruct (Get_lookup m key Hlen) as (shard & Hs & Hg & _).
  exists (<[idx key := mkShard (<[key := value]> (items shard))]> m).
  unfold Set_. rewrite Hg. simpl. rewrite (write_shard _ _ shard) by done.
  split; [done|]. split; [apply length_insert|].
  assert (∀ key', Get (<[idx key := mkShard (<[key := value]> (items shard))]> m) key'
            = if decide (key' = key) then Ret (Some value) else Get m key') as HG.
  { intros key'. rewrite (Get_after_write m key shard); [|done|done|].
    - case_decide; [|done]. simpl. by rewrite lookup_insert_eq.
    - intros Hne. simpl. by rewrite lookup_insert_ne. }
  split; [by rewrite HG, decide_True|]. split.
  - apply (Has_Get _ _ (Some value)). by rewrite HG, decide_True.
  - intros key' Hne. by rewrite HG, decide_False.
Qed.

Lemma getShard_after_write m key shard (s' : mapShard V) :
  m !! idx key = Some shard →
  getShard (<[idx key := s']> m) key
  = Ret (fnv32 key mod defaultShardCount, s').
Proof.
  intros Hs. pose proof (shard_index_range key) as Hr.
  pose proof (lookup_lt_Some _ _ _ Hs) as Hlt.
  unfold getShard. rewrite (index_Ret _ _ s'); [done|lia|].
  unfold ConcurrentMap in *. by rewrite list_lookup_insert_eq.
Qed.

(** Deleting a key that is not there writes the shard back as it was. *)
Lemma write_back m key shard :
  m !! idx key = Some shard → items shard !! key = None →
  <[idx key := mkShard (delete key (items shard))]> m = m.
Proof.
  intros Hs Hnone. rewrite delete_id by done. destruct shard as [its].
  unfold ConcurrentMap in *. by apply list_insert_id.
Qed.

(** X14. On a map with at least the 32 default shards: after
    [Remove(key)], [Get(key)] finds nothing and [Has(key)] is false, [Get]
    of every other key returns what it did before, and removing a key
    that is not in the map leaves the map as it was. *)
Theorem Remove_then_Get m key :
  32 <= Z.of_nat (length m) →
  ∃ m', Remove m key = Ret m' ∧ length m' = length m ∧
    Get m' key = Ret None ∧ Has m' key = Ret false ∧
    (∀ key', key' ≠ key → Get m' key' = Get m key') ∧
    (Get m key = Ret None → m' = m).
Proof.
  intros Hlen. destruct (Get_lookup m key Hlen) as (shard & Hs & Hg & HGet).
  exists (<[idx key := mkShard (delete key (items shard))]> m).
  unfold Remove. rewrite Hg. simpl. rewrite (write_shard _ _ shard) by done.
  split; [done|]. split; [apply length_insert|].
  assert (∀ key', Get (<[idx key := mkShard (delete key (items shard))]> m) key'
            = if decide (key' = key) then Ret None else Get m key') as HG.
  { intros key'. rewrite (Get_after_write m key shard); [|done|done|].
    - case_decide; [|done]. simpl. by rewrite lookup_delete_eq.
    - intros Hne. simpl. by rewrite lookup_delete_ne. }
  split; [by rewrite HG, decide_True|]. split.
  { apply (Has_Get _ _ None). by rewrite HG, decide_True. }
  split.
  - intros key' Hne. by rewrite HG, decide_False.
  - rewrite HGet. intros [= Hnone]. by apply write_back.
Qed.

(** X15. [GetOrSet] on a map with at least the 32 default shards: it
    returns the value already stored under the key and leaves the map as
    it is, or stores the given value and returns it; afterwards [Get]
    returns the value [GetOrSet] returned, every later [GetOrSet] on the
    key returns that same value whatever value it is given and changes
    nothing, and the other keys are untouched. *)
Theorem GetOrSet_first_wins m key value :
  32 <= Z.of_nat (length m) →
  ∃ o m', Get m key = Ret o ∧
    GetOrSet m key value = Ret (default value o, m') ∧
    (is_Some o → m' = m) ∧
    Get m' key = Ret (Some (default value o)) ∧
    (∀ value', GetOrSet m' key value' = Ret (default value o, m')) ∧
    (∀ key', key' ≠ key → Get m' key' = Get m key').
Proof.
  intros Hlen. destruct (Get_lookup m key Hlen) as (shard & Hs & Hg & HGet).
  exists (items shard !! key). unfold GetOrSet at 1. rewrite Hg. simpl.
  destruct (items shard !! key) as [v0|] eqn:Hv.
  - exists m. simpl. repeat split; try done.
    intros value'. unfold GetOrSet. rewrite Hg. simpl. by rewrite Hv.
  - exists (<[idx key := mkShard (<[key := value]> (items shard))]> m).
    rewrite (write_shard _ _ shard) by done. simpl.
    assert (∀ key', Get (<[idx key := mkShard (<[key := value]> (items shard))]> m) key'
              = if decide (key' = key) then Ret (Some value) else Get m key') as HG.
    { intros key'. rewrite (Get_after_write m key shard); [|done|done|].
      - case_decide; [|done]. simpl. by rewrite lookup_insert_eq.
      - intros Hne. simpl. by rewrite lookup_insert_ne. }
    split; [done|]. split; [done|]. split; [by intros [? [=]]|].
    split; [by rewrite HG, decide_True|]. split.
    + intros value'. unfold GetOrSet.
      rewrite (getShard_after_write _ _ shard) by done. simpl.
      by rewrite lookup_insert_eq.
    + intros key' Hne. by rewrite HG, decide_False.
Qed.

(** X16. The compound calls, on a map with at least the 32 default
    shards, are a [Get] followed by a [Set] or a [Remove] of the same key:
    [SetIfAbsent] reports whether the key was missing and stores the value
    only then; [Pop] returns what [Get] finds and leaves the map as
    [Remove] does; [RemoveCb] returns what the callback answers for the
    key and what [Get] finds, and leaves the map as [Remove] does if the
    answer is true and unchanged if not; [Upsert] stores and returns what
    the callback makes of what [Get] finds and the given value. *)
Theorem compound_calls m key value (ucb : option V → V → V)
    (rcb : string → option V → bool) :
  32 <= Z.of_nat (length m) →
  ∃ o mset mrem mup,
    Get m key = Ret o ∧ Set_ m key value = Ret mset ∧
    Remove m key = Ret mrem ∧ Set_ m key (ucb o value) = Ret mup ∧
    SetIfAbsent m key value
      = Ret (match o with Some _ => (false, m) | None => (true, mset) end) ∧
    Pop m key = Ret (o, mrem) ∧
    RemoveCb m key rcb = Ret (rcb key o, if rcb key o then mrem else m) ∧
    Upsert m key value ucb = Ret (ucb o value, mup).
Proof.
  intros Hlen. destruct (Get_lookup m key Hlen) as (shard & Hs & Hg & HGet).
  exists (items shard !! key).
  exists (<[idx key := mkShard (<[key := value]> (items shard))]> m).
  exists (<[idx key := mkShard (delete key (items shard))]> m).
  exists (<[idx key := mkShard (<[key := ucb (items shard !! key) value]>
                                  (items shard))]> m).
  unfold Set_, Remove, SetIfAbsent, Pop, RemoveCb, Upsert. rewrite Hg. simpl.
  rewrite !(write_shard _ _ shard) by done. simpl.
  repeat (split; [done|]). split; [|split; [done|split; [|done]]].
  - by destruct (items shard !! key).
  - destruct (rcb key (items shard !! key)) eqn:Hcb; simpl; [|done].
    destruct (items shard !! key) as [v0|] eqn:Hv; simpl; [done|].
    by rewrite write_back.
Qed.

Lemma Count_sum m :
  32 <= Z.of_nat (length m) →
  Count m = Ret (Z.of_nat (sum_list_with (λ s, size (items s)) (take 32 m))).
Proof.
  intros Hlen. unfold Count. change defaultShardCount with (Z.of_nat 32).
  rewrite Count_loop_sum by lia. simpl. by rewrite drop_0.
Qed.

Lemma sum_list_with_insert {A} (f : A → nat) (l : list A) (i : nat) (x y : A) :
  l !! i = Some x →
  (sum_list_with f (<[i:=y]> l) + f x = sum_list_with f l + f y)%nat.
Proof.
  revert i. induction l as [|a l IH]; intros [|i] Hi; simplify_eq/=; [lia|].
  specialize (IH i Hi). lia.
Qed.

Lemma Count_after_write_shard m key shard (items' : gmap string V) :
  32 <= Z.of_nat (length m) → m !! idx key = Some shard →
  ∃ c, Count m = Ret (Z.of_nat c) ∧ (size (items shard) ≤ c)%nat ∧
    Count (<[idx key := mkShard items']> m)
    = Ret (Z.of_nat c - Z.of_nat (size (items shard)) + Z.of_nat (size items')).
Proof.
  intros Hlen Hs. pose proof (shard_index_range key) as Hr.
  exists (sum_list_with (λ s, size (items s)) (take 32 m)).
  assert (take 32 m !! idx key = Some shard) as Ht
    by (unfold ConcurrentMap in *; rewrite lookup_take_lt by lia; done).
  pose proof (sum_list_with_insert (λ s, size (items s)) (take 32 m)
                (idx key) shard (mkShard items') Ht) as Hsum.
  split; [by apply Count_sum|]. split.
  { apply (sum_list_with_in _ (λ s, size (items s))).
    by apply list_elem_of_lookup_2 in Ht. }
  rewrite Count_sum by (pose proof (length_insert m (idx key) (mkShard items'));
                        unfold ConcurrentMap in *; lia).
  f_equal. unfold ConcurrentMap in *.
  rewrite take_insert_lt by lia. simpl in Hsum. lia.
Qed.

(** X17. [Count] follows the writes, on a map with at least the 32
    default shards: [Set] of a key that [Get] does not find raises it by
    one and [Set] of a key already there leaves it; [Remove] of a key
    that is there lowers it by one and [Remove] of a missing key leaves
    it; it is never negative. *)
Theorem Count_after_Set_Remove m key value :
  32 <= Z.of_nat (length m) →
  ∃ o c mset mrem,
    Get m key = Ret o ∧ Count m = Ret c ∧
    Set_ m key value = Ret mset ∧ Remove m key = Ret mrem ∧
    Count mset = Ret (match o with Some _ => c | None => c + 1 end) ∧
    Count mrem = Ret (match o with Some _ => c - 1 | None => c end) ∧
    0 <= c ∧ (is_Some o → 1 <= c).
Proof.
  intros Hlen. destruct (Get_lookup m key Hlen) as (shard & Hs & Hg & HGet).
  destruct (Count_after_write_shard m key shard (<[key := value]> (items shard))
              Hlen Hs) as (c & Hc & Hle & Hset).
  destruct (Count_after_write_shard m key shard (delete key (items shard))
              Hlen Hs) as (c' & Hc' & _ & Hrem).
  rewrite Hc in Hc'. injection Hc' as Hcc. apply Nat2Z.inj in Hcc. subst c'.
  exists (items shard !! key), (Z.of_nat c).
  exists (<[idx key := mkShard (<[key := value]> (items shard))]> m).
  exists (<[idx key := mkShard (delete key (items shard))]> m).
  unfold Set_, Remove. rewrite Hg. simpl.
  rewrite !(write_shard _ _ shard) by done.
  rewrite Hset, Hrem, map_size_insert, map_size_delete.
  repeat (split; [done|]).
  destruct (items shard !! key) as [v0|] eqn:Hv; simpl.
  - assert (size (items shard) ≠ 0)%nat as Hpos.
    { rewrite map_size_non_empty_iff. intros He. by rewrite He in Hv. }
    repeat split; try (f_equal; lia); lia.
  - repeat split; try (f_equal; lia); try lia. by intros [? [=]].
Qed.

(** *** Runs of calls on a new map against a plain finite map *)

Lemma shards_of_length (g : gmap string V) : length (shards_of g) = 32%nat.
Proof. unfold shards_of. by rewrite length_fmap, length_seq. Qed.

Lemma shards_of_lookup (g : gmap string V) (i : nat) :
  (i < 32)%nat → shards_of g !! i = Some (shard_of g i).
Proof.
  intros Hi. unfold shards_of, ConcurrentMap.
  rewrite list_lookup_fmap.
  change (Z.to_nat defaultShardCount) with 32%nat.
  by rewrite lookup_seq_lt.
Qed.

Lemma idx_lt key : (idx key < 32)%nat.
Proof. pose proof (shard_index_range key). lia. Qed.

Lemma shard_of_lookup (g : gmap string V) key :
  items (shard_of g (idx key)) !! key = g !! key.
Proof.
  unfold shard_of. simpl. rewrite map_lookup_filter.
  destruct (g !! key) as [v|]; [|done]. simpl.
  by rewrite option_guard_True.
Qed.

Lemma New_shards_of : New = shards_of (∅ : gmap string V).
Proof.
  unfold New, shards_of, ConcurrentMap.
  change (Z.to_nat defaultShardCount) with 32%nat.
  apply list_eq. intros i. rewrite list_lookup_fmap.
  destruct (decide (i < 32)%nat) as [Hi|Hi].
  - rewrite lookup_replicate_2, lookup_seq_lt by done. simpl.
    unfold shard_of. by rewrite map_filter_empty.
  - rewrite lookup_seq_ge by lia.
    by apply lookup_replicate_None; lia.
Qed.

(** Writing the shard of [key] of [shards_of g], when the new items are
    those of the changed map [g']. *)
Lemma write_shards_of (g g' : gmap string V) key :
  (∀ i, i ≠ idx key → shard_of g' i = shard_of g i) →
  <[idx key := shard_of g' (idx key)]> (shards_of g) = shards_of g'.
Proof.
  intros Hother. pose proof (idx_lt key) as Hk.
  pose proof (shards_of_length g) as Hlen.
  unfold ConcurrentMap in *. apply list_eq. intros i.
  destruct (decide (i = idx key)) as [->|Hi].
  - rewrite list_lookup_insert_eq by lia.
    by rewrite shards_of_lookup.
  - rewrite list_lookup_insert_ne by done.
    destruct (decide (i < 32)%nat) as [Hlt|Hge].
    + rewrite !shards_of_lookup by done. by rewrite Hother.
    + rewrite !lookup_ge_None_2; [done| |];
        rewrite shards_of_length; lia.
Qed.

Lemma insert_shards_of (g : gmap string V) key value :
  <[idx key := mkShard (<[key := value]> (items (shard_of g (idx key))))]>
    (shards_of g) = shards_of (<[key := value]> g).
Proof.
  rewrite <- (write_shards_of g (<[key := value]> g) key).
  - f_equal. unfold shard_of. simpl. f_equal.
    by rewrite map_filter_insert_True.
  - intros i Hi. unfold shard_of. f_equal.
    apply map_filter_insert_not. intros y. simpl. congruence.
Qed.

Lemma delete_shards_of (g : gmap string V) key :
  <[idx key := mkShard (delete key (items (shard_of g (idx key))))]>
    (shards_of g) = shards_of (delete key g).
Proof.
  rewrite <- (write_shards_of g (delete key g) key).
  - f_equal. unfold shard_of. simpl. f_equal.
    by rewrite map_filter_delete.
  - intros i Hi. unfold shard_of. f_equal.
    apply map_filter_delete_not. intros y _. simpl. congruence.
Qed.

Lemma getShard_shards_of (g : gmap string V) key :
  getShard (shards_of g) key
  = Ret (fnv32 key mod defaultShardCount, shard_of g (idx key)).
Proof.
  pose proof (shard_index_range key) as Hr.
  unfold getShard. rewrite (index_Ret _ _ (shard_of g (idx key))); [done|lia|].
  apply shards_of_lookup, idx_lt.
Qed.

Lemma do_op_shards_of (g : gmap string V) (op : map_op V) :
  do_op (shards_of g) op = Ret (shards_of (model_op g op)).
Proof.
  destruct op as [key value|key|key value|key]; simpl;
    pose proof (shards_of_lookup g _ (idx_lt key)) as Hs;
    unfold Set_, Remove, SetIfAbsent, Pop;
    rewrite getShard_shards_of; simpl.
  - rewrite (write_shard _ _ _ _ Hs). f_equal. apply insert_shards_of.
  - rewrite (write_shard _ _ _ _ Hs). f_equal. apply delete_shards_of.
  - pose proof (shard_of_lookup g key) as Hl. simpl in Hl. rewrite Hl.
    destruct (g !! key); simpl; [done|].
    rewrite (write_shard _ _ _ _ Hs). simpl. f_equal. apply insert_shards_of.
  - rewrite (write_shard _ _ _ _ Hs). simpl. f_equal. apply delete_shards_of.
Qed.

Lemma do_ops_shards_of (g : gmap string V) (ops : list (map_op V)) :
  do_ops (shards_of g) ops = Ret (shards_of (fold_left model_op ops g)).
Proof.
  revert g. induction ops as [|op ops IH]; intros g; simpl; [done|].
  rewrite do_op_shards_of. simpl. apply IH.
Qed.

(** The sizes of the shards selected by distinct indexes add up to the
    number of keys that select one of them. *)
Lemma size_shards (g : gmap string V) (l : list nat) :
  NoDup l →
  sum_list_with (λ i, size (items (shard_of g i))) l
  = size (filter (λ kv, idx kv.1 ∈ l) g).
Proof.
  unfold shard_of. simpl.
  induction 1 as [|i l Hi Hnd IH]; simpl.
  - symmetry. apply map_size_empty_iff, map_empty_filter_2.
    intros k v _. simpl. apply not_elem_of_nil.
  - rewrite IH.
    rewrite <- map_size_disj_union.
    + f_equal. rewrite <- map_filter_or. apply map_filter_ext.
      intros k v _. simpl. rewrite elem_of_cons. naive_solver.
    + apply map_disjoint_spec. intros k v1 v2.
      rewrite !map_lookup_filter_Some. simpl. intros [_ <-] [_ Hin]. done.
Qed.

Lemma Count_shards_of (g : gmap string V) :
  Count (shards_of g) = Ret (Z.of_nat (size g)).
Proof.
  rewrite Count_sum by (rewrite shards_of_length; lia).
  rewrite take_ge by (by rewrite shards_of_length).
  do 2 f_equal.
  transitivity (sum_list_with (λ i, size (items (shard_of g i))) (seq 0 32)).
  { unfold shards_of. change (Z.to_nat defaultShardCount) with 32%nat.
    generalize (seq 0 32). intros l.
    induction l as [|a l IH]; simpl; [done|]. f_equal. apply IH. }
  rewrite size_shards by apply NoDup_seq.
  f_equal. apply map_filter_id. intros k v _.
  apply (elem_of_seq 0 32). pose proof (idx_lt k). simpl. lia.
Qed.

(** X18. A new map driven by any run of [Set], [Remove], [SetIfAbsent]
    and [Pop] calls behaves as one plain finite map driven by the same
    run: every call returns, [Get] returns what the finite map holds
    under the key, [Count] is its number of keys and [IsEmpty] tells
    whether it is empty; each key sits in the shard its hash selects. *)
Theorem run_agrees_with_model (ops : list (map_op V)) :
  ∃ m, do_ops New ops = Ret m ∧ m = shards_of (model ops) ∧
    (∀ key, Get m key = Ret (model ops !! key)) ∧
    (∀ key, Has m key = Ret (bool_decide (is_Some (model ops !! key)))) ∧
    Count m = Ret (Z.of_nat (size (model ops))) ∧
    (IsEmpty m = Ret true ↔ model ops = ∅).
Proof.
  exists (shards_of (model ops)).
  assert (∀ key, Get (shards_of (model ops)) key = Ret (model ops !! key)) as HG.
  { intros key. unfold Get. rewrite getShard_shards_of. simpl.
    pose proof (shard_of_lookup (model ops) key) as Hl. simpl in Hl.
    by rewrite Hl. }
  split; [rewrite New_shards_of; apply do_ops_shards_of|].
  split; [done|]. split; [done|]. split; [intros key; by apply Has_Get|].
  split; [apply Count_shards_of|].
  unfold IsEmpty. rewrite Count_shards_of. simpl.
  rewrite <- map_size_empty_iff. split.
  - intros [= H]. apply Z.eqb_eq in H. lia.
  - intros ->. done.
Qed.

(** *** The calls that start goroutines *)

Lemma Set_write m key value shard :
  m !! idx key = Some shard →
  Set_ m key value
  = Ret (<[idx key := mkShard (<[key := value]> (items shard))]> m).
Proof.
  intros Hs. pose proof (shard_index_range key) as Hr.
  unfold Set_, getShard. rewrite (index_Ret _ _ shard) by (done || lia).
  simpl. by apply (write_shard _ _ shard).
Qed.

Lemma Set_Get_other m key value :
  32 <= Z.of_nat (length m) →
  ∃ m', Set_ m key value = Ret m' ∧ length m' = length m ∧
    ∀ key', Get m' key'
            = if decide (key' = key) then Ret (Some value) else Get m key'.
Proof.
  intros Hlen. destruct (Get_lookup m key Hlen) as (shard & Hs & _ & _).
  eexists. split; [by apply Set_write|]. split; [apply length_insert|].
  intros key'. rewrite (Get_after_write m key shard); [|done|done|].
  - case_decide; [|done]. simpl. by rewrite lookup_insert_eq.
  - intros Hne. simpl. by rewrite lookup_insert_ne.
Qed.

(** Two [Set]s of different keys give the same map in either order. *)
Lemma Set_commute m k1 v1 k2 v2 :
  32 <= Z.of_nat (length m) → k1 ≠ k2 →
  (Set_ m k1 v1 ≫= λ m1, Set_ m1 k2 v2)
  = (Set_ m k2 v2 ≫= λ m1, Set_ m1 k1 v1).
Proof.
  intros Hlen Hne.
  destruct (Get_lookup m k1 Hlen) as (s1 & Hs1 & _ & _).
  destruct (Get_lookup m k2 Hlen) as (s2 & Hs2 & _ & _).
  pose proof (lookup_lt_Some _ _ _ Hs1) as Hlt1.
  pose proof (lookup_lt_Some _ _ _ Hs2) as Hlt2.
  rewrite (Set_write m k1 v1 s1), (Set_write m k2 v2 s2) by done. simpl.
  unfold ConcurrentMap in *.
  destruct (decide (idx k1 = idx k2)) as [Hi|Hi].
  - assert (s2 = s1) as -> by (rewrite Hi in Hs1; congruence).
    rewrite (Set_write _ k2 v2 (mkShard (<[k1 := v1]> (items s1))))
      by (rewrite <- Hi; by apply list_lookup_insert_eq).
    rewrite (Set_write _ k1 v1 (mkShard (<[k2 := v2]> (items s1))))
      by (rewrite Hi; by apply list_lookup_insert_eq).
    simpl. unfold ConcurrentMap. rewrite Hi, !list_insert_insert_eq.
    by rewrite insert_insert_ne.
  - rewrite (Set_write _ k2 v2 s2)
      by (rewrite <- Hs2; by apply list_lookup_insert_ne).
    rewrite (Set_write _ k1 v1 s1)
      by (rewrite <- Hs1; by apply list_lookup_insert_ne).
    simpl. f_equal. by apply list_insert_insert_ne.
Qed.

Lemma Set_each_perm (l1 l2 : list (string * V)) :
  l1 ≡ₚ l2 → NoDup l1.*1 →
  ∀ m, 32 <= Z.of_nat (length m) → Set_each m l1 = Set_each m l2.
Proof.
  induction 1 as [|[k v] l l' Hp IH|[k1 v1] [k2 v2] l|l l' l'' Hp1 IH1 Hp2 IH2];
    intros Hnd m Hlen.
  - done.
  - simpl. destruct (Set_Get_other m k v Hlen) as (m1 & -> & Hl1 & _). simpl.
    apply IH; [by apply NoDup_cons in Hnd as [_ ?]|lia].
  - cbn [Set_each].
    assert (k2 ≠ k1) as Hne.
    { apply NoDup_cons in Hnd as [Hnotin _]. simpl in Hnotin.
      intros ->. apply Hnotin. by left. }
    destruct (Set_Get_other m k2 v2 Hlen) as (ma & Ha & Hla & _).
    destruct (Set_Get_other m k1 v1 Hlen) as (mb & Hb & Hlb & _).
    pose proof (Set_commute m k2 v2 k1 v1 Hlen Hne) as Hc.
    rewrite Ha, Hb in Hc. simpl in Hc.
    rewrite Ha, Hb. simpl. by rewrite Hc.
  - rewrite IH1 by done. apply IH2; [|done]. by rewrite <- Hp1.
Qed.

Lemma Set_each_Get (l : list (string * V)) m :
  NoDup l.*1 → 32 <= Z.of_nat (length m) →
  ∃ m', Set_each m l = Ret m' ∧ length m' = length m ∧
    ∀ key, Get m' key = match (list_to_map l : gmap string V) !! key with
                        | Some v => Ret (Some v)
                        | None => Get m key
                        end.
Proof.
  revert m. induction l as [|[k v] l IH]; intros m Hnd Hlen.
  - exists m. by repeat split.
  - apply NoDup_cons in Hnd as [Hnotin Hnd].
    destruct (Set_Get_other m k v Hlen) as (m1 & Hset & Hl1 & HG1).
    destruct (IH m1 Hnd) as (m' & Heach & Hl' & HG'); [lia|].
    exists m'. simpl. rewrite Hset. simpl.
    split; [done|]. split; [lia|]. intros key. rewrite HG', HG1.
    destruct (decide (key = k)) as [->|Hne].
    + rewrite lookup_insert_eq.
      by rewrite (not_elem_of_list_to_map_1 l k Hnotin).
    + by rewrite lookup_insert_ne.
Qed.

(** X26. [MSet] does not depend on the schedule: on a map with at least
    the 32 default shards, the [Set]s of the entries of [data] give one
    and the same map in every order, [MSet] ends in that map, and in it
    [Get] returns the value [data] holds for a key of [data] and what it
    returned before for every other key. *)
Theorem MSet_any_schedule m (data : gmap string V) :
  32 <= Z.of_nat (length m) →
  ∃ m', MSet m data m' ∧ (∀ m'', MSet m data m'' → m'' = m') ∧
    (∀ order, order ≡ₚ map_to_list data → Set_each m order = Ret m') ∧
    length m' = length m ∧
    ∀ key, Get m' key = match data !! key with
                        | Some v => Ret (Some v)
                        | None => Get m key
                        end.
Proof.
  intros Hlen.
  pose proof (NoDup_fst_map_to_list data) as Hnd.
  destruct (Set_each_Get (map_to_list data) m Hnd Hlen)
    as (m' & Heach & Hl' & HG).
  rewrite list_to_map_to_list in HG.
  assert (∀ order, order ≡ₚ map_to_list data → Set_each m order = Ret m')
    as Hall.
  { intros order Hp. rewrite <- Heach. symmetry.
    by apply Set_each_perm. }
  exists m'. split; [by exists (map_to_list data)|].
  split; [|done].
  intros m'' (order & Hp & Ho). rewrite (Hall order Hp) in Ho. congruence.
Qed.

(** What [Get] finds, as a function of the shards. *)
Local Abbreviation find m k :=
  (m !! Z.to_nat (fnv32 k mod defaultShardCount) ≫= λ s, items s !! k)
  (k in scope string_scope).

Lemma Get_find m key :
  32 <= Z.of_nat (length m) → Get m key = Ret (find m key).
Proof.
  intros Hlen. destruct (Get_lookup m key Hlen) as (shard & Hs & _ & ->).
  by rewrite Hs.
Qed.

Lemma Get_each_spec m (keys : list string) (acc : gmap string V) :
  32 <= Z.of_nat (length m) →
  ∃ result, Get_each m keys acc = Ret result ∧
    ∀ key, result !! key
           = match (if decide (key ∈ keys) then find m key else None) with
             | Some v => Some v
             | None => acc !! key
             end.
Proof.
  intros Hlen. revert acc. induction keys as [|k keys IH]; intros acc.
  - exists acc. split; [done|]. intros key.
    rewrite decide_False by apply not_elem_of_nil. done.
  - simpl. rewrite (Get_find m k Hlen). simpl.
    destruct (IH (match find m k with
                  | Some val => <[k := val]> acc
                  | None => acc
                  end)) as (result & -> & Hres).
    exists result. split; [done|]. intros key. rewrite Hres.
    destruct (decide (key ∈ keys)) as [Hin|Hin].
    + rewrite (decide_True (P := key ∈ k :: keys)) by (by right).
      destruct (find m key) as [v|] eqn:Hf; [done|].
      destruct (decide (key = k)) as [->|Hne].
      * by rewrite Hf.
      * destruct (find m k); [by rewrite lookup_insert_ne|done].
    + destruct (decide (key = k)) as [->|Hne].
      * rewrite (decide_True (P := k ∈ k :: keys)) by (by left).
        destruct (find m k) as [v|]; [by rewrite lookup_insert_eq|done].
      * rewrite (decide_False (P := key ∈ k :: keys))
          by (rewrite elem_of_cons; tauto).
        destruct (find m k); [by rewrite lookup_insert_ne|done].
Qed.

(** X27. [MGet] does not depend on the schedule either: on a map with at
    least the 32 default shards it ends in one result, which holds
    exactly the keys asked for that [Get] finds, each with the value
    [Get] returns; and after [MSet] of [data], [MGet] of the keys of
    [data] returns [data]. *)
Theorem MGet_any_schedule m (keys : list string) (data : gmap string V) :
  32 <= Z.of_nat (length m) →
  (∃ result, MGet m keys result ∧
     (∀ result', MGet m keys result' → result' = result) ∧
     ∀ key, Ret (result !! key)
            = if decide (key ∈ keys) then Get m key else Ret None) ∧
  (∀ m', MSet m data m' → MGet m' (map_to_list data).*1 data).
Proof.
  intros Hlen.
  assert (∀ m0 ks, 32 <= Z.of_nat (length m0) →
            ∃ result, Get_each m0 ks ∅ = Ret result ∧
              ∀ key, result !! key
                     = if decide (key ∈ ks) then find m0 key else None)
    as Hspec.
  { intros m0 ks Hl0. destruct (Get_each_spec m0 ks ∅ Hl0) as (r & Hr & Hk).
    exists r. split; [done|]. intros key. rewrite Hk, lookup_empty.
    by destruct (if decide (key ∈ ks) then find m0 key else None). }
  split.
  - destruct (Hspec m keys Hlen) as (result & Hrun & Hres).
    exists result. split; [by exists keys|]. split.
    + intros result' (order & Hp & Ho).
      destruct (Hspec m order Hlen) as (r & Hr & Hk).
      rewrite Hr in Ho. injection Ho as <-.
      apply map_eq. intros key. rewrite Hk, Hres.
      destruct (decide (key ∈ keys)) as [Hin|Hin].
      * rewrite decide_True by (by rewrite Hp). done.
      * rewrite decide_False by (by rewrite Hp). done.
    + intros key. rewrite Hres. case_decide; [|done].
      by rewrite Get_find.
  - intros m' (order & Hp & Ho).
    pose proof (NoDup_fst_map_to_list data) as Hnd.
    assert (NoDup order.*1) as Hndo by (by rewrite Hp).
    destruct (Set_each_Get order m Hndo Hlen) as (m1 & Heach & Hl1 & HG).
    rewrite Heach in Ho. injection Ho as <-.
    rewrite (list_to_map_proper order (map_to_list data) Hndo Hp),
      list_to_map_to_list in HG.
    assert (32 <= Z.of_nat (length m1)) as Hlen1 by lia.
    destruct (Hspec m1 (map_to_list data).*1 Hlen1) as (result & Hrun & Hres).
    exists (map_to_list data).*1. split; [done|].
    rewrite Hrun. f_equal. apply map_eq. intros key. rewrite Hres.
    pose proof (HG key) as HGk. rewrite (Get_find m1 key Hlen1) in HGk.
    destruct (data !! key) as [v|] eqn:Hd.
    + injection HGk as ->. rewrite decide_True; [done|].
      apply list_elem_of_fmap. exists (key, v). split; [done|].
      by apply elem_of_map_to_list.
    + rewrite decide_False; [done|].
      intros ((k' & v') & -> & Hin)%list_elem_of_fmap.
      apply elem_of_map_to_list in Hin. simpl in Hd. congruence.
Qed.

Lemma empty_shards_sum (l : list (mapShard V)) :
  Forall (λ s, items s = ∅) l →
  sum_list_with (λ s, size (items s)) l = 0%nat.
Proof.
  induction 1 as [|s l Hs _ IH]; [done|]. simpl. by rewrite Hs, IH.
Qed.

(** X28. After [Clear], a map with at least the 32 default shards is
    empty and has its shards still: [Get] finds nothing under any key,
    [Count] is 0, [IsEmpty] is true, and a map of exactly 32 shards is
    again the map [New] returns. *)
Theorem Clear_empties m :
  32 <= Z.of_nat (length m) →
  length (Clear m) = length m ∧
  (∀ key, Get (Clear m) key = Ret None) ∧
  Count (Clear m) = Ret 0 ∧ IsEmpty (Clear m) = Ret true ∧
  (length m = 32%nat → Clear m = New).
Proof.
  intros Hlen.
  assert (length (Clear m) = length m) as Hl
    by (unfold Clear; apply length_fmap).
  assert (32 <= Z.of_nat (length (Clear m))) as Hlen' by lia.
  assert (Count (Clear m) = Ret 0) as Hc.
  { rewrite Count_sum by done. change 0 with (Z.of_nat 0). do 2 f_equal.
    apply empty_shards_sum. unfold Clear, ConcurrentMap.
    apply Forall_take, Forall_fmap, Forall_forall. done. }
  split; [done|]. split; [|split; [done|split]].
  - intros key. rewrite Get_find by done.
    unfold Clear, ConcurrentMap in *. rewrite list_lookup_fmap.
    destruct (m !! idx key); done.
  - unfold IsEmpty. by rewrite Hc.
  - intros H32. unfold Clear, New, ConcurrentMap.
    change (Z.to_nat defaultShardCount) with 32%nat. rewrite <- H32.
    clear. induction m as [|s m IH]; [done|]. simpl. f_equal. apply IH.
Qed.

End Operations.

Lemma MSet_any_schedule_witness :
  ∃ m', MSet (New (V := nat)) {["a" := 1%nat]} m' ∧
    (∀ m'', MSet (New (V := nat)) {["a" := 1%nat]} m'' → m'' = m') ∧
    (∀ order, order ≡ₚ map_to_list ({["a" := 1%nat]} : gmap string nat) →
       Set_each New order = Ret m') ∧
    length m' = length (New (V := nat)) ∧
    ∀ key, Get m' key
           = match ({["a" := 1%nat]} : gmap string nat) !! key with
             | Some v => Ret (Some v)
             | None => Get New key
             end.
Proof. apply MSet_any_schedule. simpl. lia. Defined.

Lemma MGet_any_schedule_witness :
  (∃ result, MGet (New (V := nat)) ["a"; "b"] result ∧
     (∀ result', MGet (New (V := nat)) ["a"; "b"] result' → result' = result) ∧
     ∀ key, Ret (result !! key)
            = if decide (key ∈ ["a"; "b"]) then Get (New (V := nat)) key
              else Ret None) ∧
  (∀ m', MSet (New (V := nat)) {["a" := 1%nat]} m' →
     MGet m' (map_to_list ({["a" := 1%nat]} : gmap string nat)).*1
       {["a" := 1%nat]}).
Proof. apply MGet_any_schedule. simpl. lia. Defined.

Lemma Clear_empties_witness :
  length (Clear (New (V := nat))) = length (New (V := nat)) ∧
  (∀ key, Get (Clear (New (V := nat))) key = Ret None) ∧
  Count (Clear (New (V := nat))) = Ret 0 ∧
  IsEmpty (Clear (New (V := nat))) = Ret true ∧
  (length (New (V := nat)) = 32%nat → Clear (New (V := nat)) = New).
Proof. apply Clear_empties. simpl. lia. Defined.

Lemma Remove_then_Get_witness :
  ∃ m', Remove (New (V := nat)) "a" = Ret m' ∧
    length m' = length (New (V := nat)) ∧
    Get m' "a" = Ret None ∧ Has m' "a" = Ret false ∧
    (∀ key', key' ≠ "a"%string → Get m' key' = Get (New (V := nat)) key') ∧
    (Get (New (V := nat)) "a" = Ret None → m' = New).
Proof. apply Remove_then_Get. simpl. lia. Defined.

Lemma GetOrSet_first_wins_witness :
  ∃ o m', Get (New (V := nat)) "a" = Ret o ∧
    GetOrSet New "a" 1%nat = Ret (default 1%nat o, m') ∧
    (is_Some o → m' = New) ∧
    Get m' "a" = Ret (Some (default 1%nat o)) ∧
    (∀ value', GetOrSet m' "a" value' = Ret (default 1%nat o, m')) ∧
    (∀ key', key' ≠ "a"%string → Get m' key' = Get New key').
Proof. apply GetOrSet_first_wins. simpl. lia. Defined.

Lemma compound_calls_witness :
  ∃ o mset mrem mup,
    Get (New (V := nat)) "a" = Ret o ∧ Set_ New "a" 1%nat = Ret mset ∧
    Remove New "a" = Ret mrem ∧
    Set_ New "a" (default 0%nat o + 1)%nat = Ret mup ∧
    SetIfAbsent New "a" 1%nat
      = Ret (match o with Some _ => (false, New) | None => (true, mset) end) ∧
    Pop New "a" = Ret (o, mrem) ∧
    RemoveCb New "a" (λ _ _, true)
      = Ret (true, if true then mrem else New) ∧
    Upsert New "a" 1%nat (λ o v, (default 0%nat o + v)%nat)
      = Ret ((default 0%nat o + 1)%nat, mup).
Proof.
  apply (compound_calls (New (V := nat)) "a" 1%nat
           (λ o v, (default 0%nat o + v)%nat) (λ _ _, true)).
  simpl. lia.
Defined.

Lemma Count_after_Set_Remove_witness :
  ∃ o c (mset mrem : ConcurrentMap nat),
    Get (New (V := nat)) "a" = Ret o ∧ Count (New (V := nat)) = Ret c ∧
    Set_ New "a" 1%nat = Ret mset ∧ Remove New "a" = Ret mrem ∧
    Count mset = Ret (match o with Some _ => c | None => c + 1 end) ∧
    Count mrem = Ret (match o with Some _ => c - 1 | None => c end) ∧
    0 <= c ∧ (is_Some o → 1 <= c).
Proof. apply Count_after_Set_Remove. simpl. lia. Defined.

Lemma Set_then_Get_witness :
  ∃ m', Set_ (New (V := nat)) "a" 1%nat = Ret m' ∧ length m' = length (New (V := nat)) ∧
    Get m' "a" = Ret (Some 1%nat) ∧ Has m' "a" = Ret true ∧
    ∀ key', key' ≠ "a"%string → Get m' key' = Get (New (V := nat)) key'.
Proof. apply Set_then_Get. simpl. lia. Defined.

End strmapFacts.

(** ** Package aes *)

Module aesFacts.

Import aes GoFacts.

Lemma xor_byte_cancel (a b : byte) : xor_byte (xor_byte a b) b = a.
Proof.
  unfold xor_byte.
  destruct (Byte.to_bits a) as (a0 & a1 & a2 & a3 & a4 & a5 & a6 & a7) eqn:Ha.
  destruct (Byte.to_bits b) as (b0 & b1 & b2 & b3 & b4 & b5 & b6 & b7) eqn:Hb.
  rewrite Byte.to_bits_of_bits.
  rewrite !xorb_assoc, !xorb_nilpotent, !xorb_false_r.
  rewrite <- Ha. apply Byte.of_bits_to_bits.
Qed.

Lemma XORBytes_length (x y : list byte) :
  length x = length y → length (XORBytes x y) = length x.
Proof.
  revert y. induction x as [|a x IH]; intros [|b y] Hl; simpl in *; try done.
  f_equal. apply IH. lia.
Qed.

Lemma XORBytes_cancel (x y : list byte) :
  length x = length y → XORBytes (XORBytes x y) y = x.
Proof.
  revert y. induction x as [|a x IH]; intros [|b y] Hl; simpl in *; try done.
  rewrite xor_byte_cancel. f_equal. apply IH. lia.
Qed.

Lemma Z_of_byte_of_Z (n : Z) : 0 <= n < 256 → Z_of_byte (byte_of_Z n) = n.
Proof.
  intros Hn. unfold Z_of_byte, byte_of_Z, wrap8u.
  rewrite Z.mod_small by lia.
  destruct (Byte.of_N (Z.to_N n)) as [b|] eqn:Hb.
  - apply Byte.to_of_N in Hb. rewrite Hb. lia.
  - apply Byte.of_N_None_iff in Hb. lia.
Qed.

(** CBC decryption undoes CBC encryption, block by block. *)
Lemma cbc_roundtrip (b : Block) (n : nat) (iv src : list byte) :
  block_valid b → length iv = 16%nat → length src = (n * 16)%nat →
  length (encrypt_blocks n b iv src) = (n * 16)%nat ∧
  decrypt_blocks n b iv (encrypt_blocks n b iv src) = src.
Proof.
  intros [Hbs Hblk]. revert iv src.
  induction n as [|n IH]; intros iv src Hiv Hsrc.
  - destruct src; [done|discriminate].
  - simpl. rewrite Hbs. change (Z.to_nat 16) with 16%nat.
    set (x := XORBytes (take 16 src) iv).
    assert (length (take 16 src) = 16%nat) as Ht by (rewrite length_take; lia).
    assert (length x = 16%nat) as Hx by (unfold x; rewrite XORBytes_length; lia).
    destruct (Hblk x Hx) as (Hc & _ & Hinv).
    destruct (IH (Encrypt_block b x) (drop 16 src)) as [Hlen Hrt];
      [done|rewrite length_drop; lia|].
    split; [rewrite length_app; lia|].
    rewrite take_app_length' by done. rewrite drop_app_length' by done.
    rewrite Hinv, Hrt. unfold x. rewrite XORBytes_cancel by lia.
    apply take_drop.
Qed.

Lemma decrypt_blocks_length (b : Block) (n : nat) (prev src : list byte) :
  block_valid b → length prev = 16%nat → length src = (n * 16)%nat →
  length (decrypt_blocks n b prev src) = (n * 16)%nat.
Proof.
  intros [Hbs Hblk]. revert prev src.
  induction n as [|n IH]; intros prev src Hp Hsrc; [done|].
  simpl. rewrite Hbs. change (Z.to_nat 16) with 16%nat.
  assert (length (take 16 src) = 16%nat) as Ht by (rewrite length_take; lia).
  destruct (Hblk _ Ht) as (_ & Hd & _).
  rewrite length_app, XORBytes_length, Hd by lia.
  rewrite IH; [lia|done|rewrite length_drop; lia].
Qed.

(** The stages of [Encrypt] and [Decrypt] for a valid block and a key of
    at least 16 bytes. *)
Lemma slice_to_16 (key : list byte) :
  (16 <= length key)%nat →
  slice_to key 16 = Ret (take 16 key) ∧ length (take 16 key) = 16%nat.
Proof.
  intros Hk. unfold slice_to.
  destruct (Z.ltb_spec (Z.of_nat (length key)) 16); [lia|].
  split; [done|]. rewrite length_take. lia.
Qed.

Lemma CryptBlocks_16 (enc : bool) (b : Block) (iv src : list byte) :
  BlockSize b = 16 →
  CryptBlocks enc (mkCbc b iv) src =
  if decide (Z.of_nat (length src) mod 16 = 0)
  then Ret (if enc then encrypt_blocks (length src / 16) b iv src
            else decrypt_blocks (length src / 16) b iv src)
  else Panic "crypto/cipher: input not full blocks".
Proof.
  intros Hbs. unfold CryptBlocks, irem. simpl. rewrite Hbs. simpl.
  rewrite Z.rem_mod_nonneg by lia.
  replace (Z.to_nat (Z.of_nat (length src) / 16)) with (length src / 16)%nat
    by (rewrite <- (Nat2Z.id (length src / 16)), Nat2Z.inj_div; done).
  case_decide as Hm.
  - rewrite Hm. done.
  - destruct (Z.eqb_spec (Z.of_nat (length src) mod 16) 0); [lia|done].
Qed.

Lemma Decrypt_stages (key ser : list byte) (block : Block) :
  block_valid block → (16 <= length key)%nat →
  Decrypt key (Some block) ser =
  if decide (Z.of_nat (length ser) mod 16 = 0)
  then pkcs7UnPadding (decrypt_blocks (length ser / 16) block (take 16 key) ser)
  else Panic "crypto/cipher: input not full blocks".
Proof.
  intros [Hbs Hblk] Hk. unfold Decrypt.
  destruct (Z.leb_spec (Z.of_nat (length key)) 0); [lia|].
  rewrite Hbs. destruct (slice_to_16 key Hk) as [-> Hiv]. simpl.
  unfold NewCBCDecrypter. rewrite Hbs, Hiv. simpl.
  rewrite CryptBlocks_16 by done. case_decide; done.
Qed.

Lemma pkcs7_roundtrip (org : list byte) :
  let p := 16 - Z.of_nat (length org) mod 16 in
  let padded := org ++ replicate (Z.to_nat p) (byte_of_Z p) in
  pkcs7Padding org 16 = Ret padded ∧
  length padded = ((length org / 16 + 1) * 16)%nat ∧
  pkcs7UnPadding padded = Ret org.
Proof.
  intros p padded.
  assert (0 <= Z.of_nat (length org) mod 16 < 16) as Hm
    by (apply Z.mod_pos_bound; lia).
  assert (1 <= p <= 16) as Hp by (unfold p; lia).
  assert (Z.of_nat (length padded) = Z.of_nat (length org) + p) as Hlen.
  { unfold padded. rewrite length_app, length_replicate. lia. }
  split; [|split].
  - unfold pkcs7Padding, irem. simpl. rewrite Z.rem_mod_nonneg by lia.
    fold p. destruct (Z.ltb_spec p 0); [lia|done].
  - apply Nat2Z.inj. rewrite Hlen. unfold p.
    rewrite Nat2Z.inj_mul, Nat2Z.inj_add, Nat2Z.inj_div. simpl.
    pose proof (Z.div_mod (Z.of_nat (length org)) 16). lia.
  - unfold pkcs7UnPadding. rewrite Hlen.
    rewrite (index_Ret _ _ (byte_of_Z p)); [|lia|].
    + simpl. rewrite Z_of_byte_of_Z by lia.
      destruct (Z.leb_spec p 0); [lia|].
      destruct (Z.gtb_spec p (Z.of_nat (length org) + p)); [lia|]. simpl.
      unfold slice_to.
      destruct (Z.ltb_spec (Z.of_nat (length org) + p - p) 0); [lia|].
      destruct (Z.ltb_spec (Z.of_nat (length padded))
                  (Z.of_nat (length org) + p - p)); [lia|]. simpl.
      f_equal. unfold padded.
      replace (Z.to_nat (Z.of_nat (length org) + p - p)) with (length org) by lia.
      apply take_app_length.
    + unfold padded. rewrite lookup_app_r by lia.
      apply lookup_replicate_2. lia.
Qed.

Section AesContract.

Variable aes_cipher : list byte → Block.

(** crypto/aes yields a valid block for every key of a supported size. *)
Hypothesis aes_cipher_valid : ∀ key,
  (length key = 16 ∨ length key = 24 ∨ length key = 32)%nat →
  block_valid (aes_cipher key).

(** C6. For a key of 16, 24 or 32 bytes, [NewBlock] returns a block; with
    it, [Encrypt] of a non-empty plaintext returns the CBC encryption,
    under the first 16 key bytes as IV, of the PKCS#7-padded plaintext,
    and [Decrypt] of that returns the plaintext; [Encrypt] of an empty
    plaintext returns an error. *)
Theorem Encrypt_Decrypt (key org : list byte) :
  (length key = 16 ∨ length key = 24 ∨ length key = 32)%nat →
  ∃ block, NewBlock aes_cipher key = Ret block ∧
    (org ≠ [] →
     let p := 16 - Z.of_nat (length org) mod 16 in
     let ser := encrypt_blocks (length org / 16 + 1) block (take 16 key)
                  (org ++ replicate (Z.to_nat p) (byte_of_Z p)) in
     Encrypt key (Some block) org = Ret ser ∧
     Decrypt key (Some block) ser = Ret org) ∧
    Encrypt key (Some block) [] = Err "[aes.Encrypt] org is empty".
Proof using aes_cipher_valid.
  intros Hkey. pose proof (aes_cipher_valid key Hkey) as Hvalid.
  assert (16 <= length key)%nat as Hk16 by lia.
  exists (aes_cipher key). split; [|split].
  - unfold NewBlock, NewCipher.
    destruct Hkey as [->| [->| ->]]; done.
  - intros Hne p ser.
    destruct (pkcs7_roundtrip org) as (Hpad & Hlen & Hunpad).
    fold p in Hpad, Hlen, Hunpad.
    set (padded := org ++ replicate (Z.to_nat p) (byte_of_Z p)) in *.
    destruct (slice_to_16 key Hk16) as [Hslice Hiv].
    destruct (cbc_roundtrip (aes_cipher key) (length org / 16 + 1)
                (take 16 key) padded Hvalid Hiv Hlen) as [Hserlen Hrt].
    fold ser in Hserlen, Hrt.
    assert (Z.of_nat (length ser) mod 16 = 0) as Hmod
      by (rewrite Hserlen, Nat2Z.inj_mul; apply Z_mod_mult).
    assert (length ser / 16 = length org / 16 + 1)%nat as Hdiv
      by (rewrite Hserlen; apply Nat.div_mul; lia).
    destruct Hvalid as [Hbs Hblk]. split.
    + unfold Encrypt.
      destruct (Z.leb_spec (Z.of_nat (length key)) 0); [lia|].
      destruct (Z.leb_spec (Z.of_nat (length org)) 0);
        [destruct org; [done|simpl in *; lia]|].
      rewrite Hbs, Hpad. simpl. rewrite Hslice. simpl.
      unfold NewCBCEncrypter. rewrite Hbs, Hiv. simpl.
      rewrite CryptBlocks_16 by done.
      assert (Z.of_nat (length padded) mod 16 = 0) as Hpm
        by (rewrite Hlen, Nat2Z.inj_mul; apply Z_mod_mult).
      rewrite decide_True by done. rewrite Hlen, Nat.div_mul by lia. done.
    + rewrite Decrypt_stages by done.
      rewrite decide_True by done. by rewrite Hdiv, Hrt.
  - unfold Encrypt. destruct (Z.leb_spec (Z.of_nat (length key)) 0); [lia|done].
Qed.

End AesContract.

Lemma XORBytes_length_16 (x y : list byte) :
  length x = 16%nat → length y = 16%nat → length (XORBytes x y) = 16%nat.
Proof. intros Hx Hy. rewrite XORBytes_length; lia. Qed.

Lemma xor_cipher_valid (key : list byte) :
  (length key = 16 ∨ length key = 24 ∨ length key = 32)%nat →
  block_valid (xor_cipher key).
Proof.
  intros Hk. split; [done|]. intros blk Hb. simpl.
  assert (length (take 16 key) = 16%nat) by (rewrite length_take; lia).
  split; [by apply XORBytes_length_16|]. split; [by apply XORBytes_length_16|].
  apply XORBytes_cancel. lia.
Qed.

(** The theorem with the stand-in cipher, a 16-byte key and a 3-byte
    plaintext. *)
Lemma Encrypt_Decrypt_witness :
  let key := replicate 16 "k"%byte in
  let org := ["a"; "b"; "c"]%byte in
  ∃ block ser, NewBlock xor_cipher key = Ret block ∧
    Encrypt key (Some block) org = Ret ser ∧
    Decrypt key (Some block) ser = Ret org ∧
    Encrypt key (Some block) [] = Err "[aes.Encrypt] org is empty".
Proof.
  intros key org.
  destruct (Encrypt_Decrypt xor_cipher xor_cipher_valid key org)
    as (block & Hnew & Hrt & Hempty); [left; reflexivity|].
  destruct Hrt as [Henc Hdec]; [discriminate|].
  exists block. eexists. split; [exact Hnew|].
  split; [exact Henc|]. split; [exact Hdec|exact Hempty].
Defined.

Lemma Decrypt_empty_panics (key : list byte) (block : Block) :
  key ≠ [] → panics (Decrypt key (Some block) []).
Proof.
  intros Hk. unfold Decrypt, panics.
  destruct (Z.leb_spec (Z.of_nat (length key)) 0);
    [destruct key; [done|simpl in *; lia]|].
  unfold slice_to. destruct (_ || _); [by eexists|]. simpl.
  unfold NewCBCDecrypter. destruct (_ =? BlockSize block); [|by eexists].
  simpl. unfold CryptBlocks, irem. simpl.
  destruct (BlockSize block =? 0); [by eexists|]. simpl.
  change (Z.rem 0 (BlockSize block)) with 0.
  change (0 / BlockSize block) with 0. simpl. by eexists.
Qed.

Lemma pkcs7UnPadding_cases (org : list byte) (c : byte) :
  last org = Some c →
  pkcs7UnPadding org =
  if decide (Z_of_byte c = 0 ∨ Z.of_nat (length org) < Z_of_byte c)
  then Err "[aes.pkcs7UnPadding] length error"
  else Ret (take (Z.to_nat (Z.of_nat (length org) - Z_of_byte c)) org).
Proof.
  intros Hl. rewrite last_lookup in Hl.
  assert (0 < length org)%nat by (destruct org; [done|simpl; lia]).
  assert (0 <= Z_of_byte c) by (unfold Z_of_byte; lia).
  unfold pkcs7UnPadding.
  rewrite (index_Ret _ _ c); [|lia|].
  - simpl. case_decide as Hc.
    + destruct (Z.leb_spec (Z_of_byte c) 0); [done|].
      destruct (Z.gtb_spec (Z_of_byte c) (Z.of_nat (length org))); [done|lia].
    + destruct (Z.leb_spec (Z_of_byte c) 0); [lia|].
      destruct (Z.gtb_spec (Z_of_byte c) (Z.of_nat (length org))); [lia|].
      simpl. unfold slice_to.
      destruct (Z.ltb_spec (Z.of_nat (length org) - Z_of_byte c) 0); [lia|].
      destruct (Z.ltb_spec (Z.of_nat (length org))
                  (Z.of_nat (length org) - Z_of_byte c)); [lia|done].
  - rewrite <- Hl. f_equal. lia.
Qed.

Lemma Decrypt_short_key_panics (key ser : list byte) (block : Block) :
  key ≠ [] → BlockSize block = 16 → (length key < 16)%nat →
  Decrypt key (Some block) ser = Panic "slice bounds out of range".
Proof.
  intros Hk Hbs Hlt. unfold Decrypt.
  destruct (Z.leb_spec (Z.of_nat (length key)) 0);
    [destruct key; [done|simpl in *; lia]|].
  rewrite Hbs. unfold slice_to.
  destruct (Z.ltb_spec (Z.of_nat (length key)) 16); [done|lia].
Qed.

(** C7. [Decrypt] on a non-empty key: an empty ciphertext makes it panic,
    whatever the block.  With a valid block, a ciphertext whose length is
    not a multiple of 16 makes it panic too, and the only error it ever
    returns is the one of the padding check.  With a key of at least 16
    bytes besides, the empty ciphertext panics on the index
    [origData[length-1]], a ciphertext that is not whole blocks panics in
    [CryptBlocks], and the error is returned exactly when the ciphertext
    is a non-empty run of whole blocks whose decryption ends in a byte
    that is 0 or exceeds the length. *)
Theorem Decrypt_not_total (key ser : list byte) (block : Block) :
  key ≠ [] →
  panics (Decrypt key (Some block) []) ∧
  (block_valid block →
   let bad_padding :=
     ser ≠ [] ∧ Z.of_nat (length ser) mod 16 = 0 ∧
     ∃ c, last (decrypt_blocks (length ser / 16) block (take 16 key) ser)
          = Some c ∧
       (Z_of_byte c = 0 ∨ Z.of_nat (length ser) < Z_of_byte c) in
   (Z.of_nat (length ser) mod 16 ≠ 0 → panics (Decrypt key (Some block) ser)) ∧
   (∀ e, Decrypt key (Some block) ser = Err e →
      e = "[aes.pkcs7UnPadding] length error"%string ∧ bad_padding) ∧
   ((16 <= length key)%nat →
    Decrypt key (Some block) [] = Panic "index out of range" ∧
    (Z.of_nat (length ser) mod 16 ≠ 0 →
     Decrypt key (Some block) ser
     = Panic "crypto/cipher: input not full blocks") ∧
    (bad_padding →
     Decrypt key (Some block) ser = Err "[aes.pkcs7UnPadding] length error"))).
Proof.
  intros Hk. split; [by apply Decrypt_empty_panics|].
  intros Hvalid bad_padding.
  destruct (decide (16 <= length key)%nat) as [Hk16|Hshort].
  2: { rewrite (Decrypt_short_key_panics key ser block), 
         (Decrypt_short_key_panics key [] block);
         [|done|apply Hvalid|lia|done|apply Hvalid|lia].
       split; [intros _; by eexists|]. split; [done|]. intros ?. lia. }
  rewrite !Decrypt_stages by done.
  assert (∀ e, (if decide (Z.of_nat (length ser) mod 16 = 0)
                then pkcs7UnPadding
                       (decrypt_blocks (length ser / 16) block (take 16 key) ser)
                else Panic "crypto/cipher: input not full blocks") = Err e ↔
               e = "[aes.pkcs7UnPadding] length error"%string ∧ bad_padding)
    as Hiff.
  { intros e. unfold bad_padding.
    case_decide as Hm; [|split; [done|intros (_ & _ & ? & _); done]].
    set (org := decrypt_blocks (length ser / 16) block (take 16 key) ser).
    assert (length org = length ser) as Hlen.
    { assert (length ser = (length ser / 16 * 16)%nat) as Hdiv.
      { apply Nat2Z.inj. rewrite Nat2Z.inj_mul, Nat2Z.inj_div. simpl.
        pose proof (Z.div_mod (Z.of_nat (length ser)) 16). lia. }
      unfold org. rewrite decrypt_blocks_length; [lia|done| |done].
      rewrite length_take. lia. }
    destruct (last org) as [c|] eqn:Hlast.
    - rewrite (pkcs7UnPadding_cases org c Hlast), Hlen.
      assert (ser ≠ []) as Hne.
      { intros ->. destruct org; [done|discriminate]. }
      case_decide as Hc.
      + split.
        * intros [= <-]. split; [done|]. split; [done|]. split; [done|].
          by exists c.
        * intros (-> & _). done.
      + split; [done|]. intros (_ & _ & _ & c' & [= <-] & Hc'). done.
    - apply last_None in Hlast. rewrite Hlast in *.
      destruct ser; [|discriminate]. split; [done|].
      intros (_ & Hne & _). done. }
  split; [|split; [|intros _; split; [|split]]].
  - intros Hm. rewrite decide_False by done. by eexists.
  - intros e He. by apply Hiff.
  - done.
  - intros Hm. by rewrite decide_False.
  - intros Hbad. by apply Hiff.
Qed.

(** The theorem with the stand-in cipher and a 16-byte key: the empty
    ciphertext and a 5-byte ciphertext both panic. *)
Lemma Decrypt_not_total_witness :
  let key := replicate 16 "k"%byte in
  panics (Decrypt key (Some (xor_cipher key)) []) ∧
  Decrypt key (Some (xor_cipher key)) [] = Panic "index out of range" ∧
  Decrypt key (Some (xor_cipher key)) (replicate 5 "c"%byte)
  = Panic "crypto/cipher: input not full blocks".
Proof.
  intros key.
  destruct (Decrypt_not_total key (replicate 5 "c"%byte) (xor_cipher key))
    as [Hempty Hrest]; [discriminate|].
  split; [exact Hempty|].
  destruct Hrest as (_ & _ & Hlong);
    [apply xor_cipher_valid; left; reflexivity|].
  destruct Hlong as (Hidx & Hpartial & _); [simpl; lia|].
  split; [exact Hidx|]. apply Hpartial. discriminate.
Defined.

(** *** Lengths, keys and shared prefixes *)

Lemma Z_of_byte_range (c : byte) : 0 <= Z_of_byte c < 256.
Proof.
  unfold Z_of_byte. pose proof (Byte.to_N_bounded c). lia.
Qed.

Lemma Encrypt_stages (key org : list byte) (block : Block) :
  block_valid block → (16 <= length key)%nat → org ≠ [] →
  let p := 16 - Z.of_nat (length org) mod 16 in
  let padded := org ++ replicate (Z.to_nat p) (byte_of_Z p) in
  length padded = ((length org / 16 + 1) * 16)%nat ∧
  Encrypt key (Some block) org
  = Ret (encrypt_blocks (length org / 16 + 1) block (take 16 key) padded).
Proof.
  intros [Hbs Hblk] Hk16 Hne p padded.
  destruct (pkcs7_roundtrip org) as (Hpad & Hlen & _).
  fold p in Hpad, Hlen. fold padded in Hpad, Hlen.
  destruct (slice_to_16 key Hk16) as [Hslice Hiv].
  split; [done|]. unfold Encrypt.
  destruct (Z.leb_spec (Z.of_nat (length key)) 0); [lia|].
  destruct (Z.leb_spec (Z.of_nat (length org)) 0);
    [destruct org; [done|simpl in *; lia]|].
  rewrite Hbs, Hpad. simpl. rewrite Hslice. simpl.
  unfold NewCBCEncrypter. rewrite Hbs, Hiv. simpl.
  rewrite CryptBlocks_16 by done.
  assert (Z.of_nat (length padded) mod 16 = 0) as Hpm
    by (rewrite Hlen, Nat2Z.inj_mul; apply Z_mod_mult).
  rewrite decide_True by done. rewrite Hlen, Nat.div_mul by lia. done.
Qed.

(** X19. The padding scheme over the block sizes: for a block size from
    1 to 256, [pkcs7Padding] returns the data followed by [p] bytes of
    value [byte(p)], [p] the distance to the next multiple of the block
    size above the length, and [pkcs7UnPadding] of that returns the data
    again, except when [p] is 256, where the pad byte is 0 and
    [pkcs7UnPadding] returns the length error; block size 0 makes
    [pkcs7Padding] panic on the division. *)
Theorem pkcs7_block_sizes (data : list byte) (bs : Z) :
  1 <= bs <= 256 →
  let p := bs - Z.of_nat (length data) mod bs in
  let padded := data ++ replicate (Z.to_nat p) (byte_of_Z p) in
  1 <= p <= bs ∧
  pkcs7Padding data bs = Ret padded ∧
  Z.of_nat (length padded) = (Z.of_nat (length data) / bs + 1) * bs ∧
  pkcs7UnPadding padded
  = (if decide (p = 256) then Err "[aes.pkcs7UnPadding] length error"
     else Ret data) ∧
  pkcs7Padding data 0 = Panic "integer divide by zero".
Proof.
  intros Hbs p padded.
  assert (0 <= Z.of_nat (length data) mod bs < bs) as Hm
    by (apply Z.mod_pos_bound; lia).
  assert (1 <= p <= bs) as Hp by (unfold p; lia).
  assert (Z.of_nat (length padded) = Z.of_nat (length data) + p) as Hlen.
  { unfold padded. rewrite length_app, length_replicate. lia. }
  split; [done|]. split; [|split; [|split; [|done]]].
  - unfold pkcs7Padding, irem.
    destruct (Z.eqb_spec bs 0); [lia|]. simpl.
    rewrite Z.rem_mod_nonneg by lia.
    fold p. destruct (Z.ltb_spec p 0); [lia|done].
  - rewrite Hlen. unfold p.
    pose proof (Z.div_mod (Z.of_nat (length data)) bs). lia.
  - unfold pkcs7UnPadding. rewrite Hlen.
    rewrite (index_Ret _ _ (byte_of_Z p)); [|lia|].
    2: { unfold padded. rewrite lookup_app_r by lia.
         apply lookup_replicate_2. lia. }
    simpl. case_decide as H256.
    + rewrite H256. change (Z_of_byte (byte_of_Z 256)) with 0. done.
    + rewrite Z_of_byte_of_Z by lia.
      destruct (Z.leb_spec p 0); [lia|].
      destruct (Z.gtb_spec p (Z.of_nat (length data) + p)); [lia|]. simpl.
      unfold slice_to.
      destruct (Z.ltb_spec (Z.of_nat (length data) + p - p) 0); [lia|].
      destruct (Z.ltb_spec (Z.of_nat (length padded))
                  (Z.of_nat (length data) + p - p)); [lia|]. simpl.
      f_equal. unfold padded.
      replace (Z.to_nat (Z.of_nat (length data) + p - p)) with (length data)
        by lia.
      apply take_app_length.
Qed.

(** The theorem at block size 16 and at block size 256, where a 256-byte
    message does not come back. *)
Lemma pkcs7_block_sizes_witness :
  (∃ padded, pkcs7Padding ["a"; "b"; "c"]%byte 16 = Ret padded ∧
     pkcs7UnPadding padded = Ret ["a"; "b"; "c"]%byte) ∧
  (∃ padded, pkcs7Padding (replicate 256 "a"%byte) 256 = Ret padded ∧
     pkcs7UnPadding padded = Err "[aes.pkcs7UnPadding] length error").
Proof.
  split.
  - assert (1 <= 16 <= 256) as H by lia.
    destruct (pkcs7_block_sizes ["a"; "b"; "c"]%byte 16 H)
      as (_ & Hpad & _ & Hun & _).
    eexists. split; [exact Hpad|exact Hun].
  - assert (1 <= 256 <= 256) as H by lia.
    destruct (pkcs7_block_sizes (replicate 256 "a"%byte) 256 H)
      as (_ & Hpad & _ & Hun & _).
    eexists. split; [exact Hpad|exact Hun].
Defined.

(** X20. Lengths, for a valid block and a key of at least 16 bytes:
    [Encrypt] of a non-empty plaintext returns a ciphertext of whole
    16-byte blocks that is 1 to 16 bytes longer than the plaintext; and
    whatever [Decrypt] returns is shorter than the ciphertext it was given,
    by 1 to 255 bytes, the ciphertext being whole blocks. *)
Theorem ciphertext_lengths (key org ser : list byte) (block : Block) :
  block_valid block → (16 <= length key)%nat →
  (org ≠ [] →
   ∃ ser', Encrypt key (Some block) org = Ret ser' ∧
     length ser' = ((length org / 16 + 1) * 16)%nat ∧
     (length org < length ser' ≤ length org + 16)%nat) ∧
  (∀ out, Decrypt key (Some block) ser = Ret out →
     (length out < length ser ≤ length out + 255)%nat ∧
     Z.of_nat (length ser) mod 16 = 0).
Proof.
  intros Hvalid Hk16. split.
  - intros Hne.
    destruct (Encrypt_stages key org block Hvalid Hk16 Hne) as [Hlen Henc].
    destruct (slice_to_16 key Hk16) as [_ Hiv].
    destruct (cbc_roundtrip block _ _ _ Hvalid Hiv Hlen) as [Hserlen _].
    eexists. split; [exact Henc|]. split; [exact Hserlen|].
    rewrite Hserlen.
    pose proof (Nat.div_mod_eq (length org) 16).
    pose proof (Nat.mod_upper_bound (length org) 16). lia.
  - intros out. rewrite Decrypt_stages by done.
    case_decide as Hm; [|done].
    set (dec := decrypt_blocks (length ser / 16) block (take 16 key) ser).
    assert (length dec = length ser) as Hlen.
    { assert (length ser = (length ser / 16 * 16)%nat) as Hdiv.
      { apply Nat2Z.inj. rewrite Nat2Z.inj_mul, Nat2Z.inj_div. simpl.
        pose proof (Z.div_mod (Z.of_nat (length ser)) 16). lia. }
      unfold dec. rewrite decrypt_blocks_length; [lia|done| |done].
      rewrite length_take. lia. }
    destruct (last dec) as [c|] eqn:Hlast.
    + rewrite (pkcs7UnPadding_cases dec c Hlast).
      pose proof (Z_of_byte_range c).
      case_decide as Hc; [done|]. intros [= <-].
      rewrite length_take. split; [lia|done].
    + apply last_None in Hlast. by rewrite Hlast.
Qed.

(** The theorem with the stand-in cipher, a 16-byte key, a 3-byte
    plaintext and a one-block ciphertext. *)
Lemma ciphertext_lengths_witness :
  let key := replicate 16 "k"%byte in
  (∃ ser', Encrypt key (Some (xor_cipher key)) ["a"; "b"; "c"]%byte = Ret ser' ∧
     length ser' = 16%nat ∧ (3 < length ser' ≤ 3 + 16)%nat) ∧
  (∀ out, Decrypt key (Some (xor_cipher key)) (replicate 16 "j"%byte) = Ret out →
     (length out < 16 ≤ length out + 255)%nat ∧ 16 mod 16 = 0).
Proof.
  intros key.
  assert (block_valid (xor_cipher key)) as Hv
    by (apply xor_cipher_valid; left; reflexivity).
  assert (16 <= length key)%nat as Hk by (simpl; lia).
  destruct (ciphertext_lengths key ["a"; "b"; "c"]%byte
              (replicate 16 "j"%byte) (xor_cipher key) Hv Hk) as [Henc Hdec].
  split; [apply Henc; discriminate|exact Hdec].
Defined.

(** X21. Which keys [Encrypt] takes, for a valid block, a non-empty
    plaintext and a key slice whose capacity is its length: the nil block
    is reported first; an empty key is an error; a key of 1 to 15 bytes
    passes the check and panics when the IV is cut from it; every key of
    16 bytes or more gives a ciphertext, the bytes after the first 16
    playing no part. *)
Theorem Encrypt_key_lengths (key org : list byte) (block : Block) :
  block_valid block → org ≠ [] →
  Encrypt key None org = Err "[aes.Encrypt] block is nil" ∧
  (key = [] → Encrypt key (Some block) org = Err "[aes.Encrypt] key is empty") ∧
  (key ≠ [] → (length key < 16)%nat →
   Encrypt key (Some block) org = Panic "slice bounds out of range") ∧
  ((16 <= length key)%nat →
   ∃ ser, Encrypt key (Some block) org = Ret ser ∧
     Encrypt (take 16 key) (Some block) org = Ret ser).
Proof.
  intros Hvalid Hne. split; [done|]. split; [by intros ->|]. split.
  - intros Hk Hlt. destruct Hvalid as [Hbs _]. unfold Encrypt.
    destruct (Z.leb_spec (Z.of_nat (length key)) 0);
      [destruct key; [done|simpl in *; lia]|].
    destruct (Z.leb_spec (Z.of_nat (length org)) 0);
      [destruct org; [done|simpl in *; lia]|].
    rewrite Hbs. destruct (pkcs7_roundtrip org) as (-> & _). simpl.
    unfold slice_to.
    destruct (Z.ltb_spec (Z.of_nat (length key)) 16); [done|lia].
  - intros Hk16.
    destruct (Encrypt_stages key org block Hvalid Hk16 Hne) as [_ Henc].
    assert (16 <= length (take 16 key))%nat as Hk16'
      by (rewrite length_take; lia).
    destruct (Encrypt_stages (take 16 key) org block Hvalid Hk16' Hne)
      as [_ Henc'].
    eexists. split; [exact Henc|].
    rewrite Henc'. by rewrite take_take, Nat.min_id.
Qed.

(** The theorem with the stand-in cipher and keys of 0, 5 and 20 bytes. *)
Lemma Encrypt_key_lengths_witness :
  let block := xor_cipher (replicate 16 "k"%byte) in
  let org := ["a"; "b"; "c"]%byte in
  Encrypt [] (Some block) org = Err "[aes.Encrypt] key is empty" ∧
  Encrypt (replicate 5 "k"%byte) (Some block) org
  = Panic "slice bounds out of range" ∧
  ∃ ser, Encrypt (replicate 20 "k"%byte) (Some block) org = Ret ser.
Proof.
  intros block org.
  assert (block_valid block) as Hv
    by (apply xor_cipher_valid; left; reflexivity).
  assert (org ≠ []) as Hne by discriminate.
  split; [|split].
  - destruct (Encrypt_key_lengths [] org block Hv Hne) as (_ & He & _).
    by apply He.
  - destruct (Encrypt_key_lengths (replicate 5 "k"%byte) org block Hv Hne)
      as (_ & _ & Hp & _).
    apply Hp; [discriminate|simpl; lia].
  - destruct (Encrypt_key_lengths (replicate 20 "k"%byte) org block Hv Hne)
      as (_ & _ & _ & Hr).
    destruct Hr as (ser & Hser & _); [simpl; lia|].
    exists ser. exact Hser.
Defined.

(** The first [j] blocks of a CBC encryption depend on the first [j]
    blocks of the input only. *)
Lemma encrypt_blocks_prefix (b : Block) (j n : nat) (iv p s : list byte) :
  block_valid b → length iv = 16%nat → length p = (j * 16)%nat →
  (j ≤ n)%nat →
  take (j * 16) (encrypt_blocks n b iv (p ++ s)) = encrypt_blocks j b iv p ∧
  length (encrypt_blocks j b iv p) = (j * 16)%nat.
Proof.
  intros [Hbs Hblk]. revert n iv p.
  induction j as [|j IH]; intros n iv p Hiv Hp Hjn.
  - simpl. by rewrite take_0.
  - destruct n as [|n]; [lia|]. cbn [encrypt_blocks]. rewrite Hbs.
    change (Z.to_nat 16) with 16%nat.
    change (S j * 16)%nat with (16 + j * 16)%nat.
    rewrite (take_app_le p), (drop_app_le p) by lia.
    set (c := Encrypt_block b (XORBytes (take 16 p) iv)).
    assert (length (take 16 p) = 16%nat) as Ht by (rewrite length_take; lia).
    assert (length c = 16%nat) as Hc.
    { unfold c. apply Hblk. rewrite XORBytes_length; lia. }
    destruct (IH n c (drop 16 p)) as [Htake Hlen];
      [done|rewrite length_drop; lia|lia|].
    split.
    + rewrite take_app_add' by done. by rewrite Htake.
    + rewrite length_app. lia.
Qed.

(** X22. The IV is cut from the key, so it is the same for every
    message: with a valid block and a key of at least 16 bytes, two
    plaintexts that share their first [j] 16-byte blocks are encrypted to
    ciphertexts that share their first [j] blocks. *)
Theorem Encrypt_common_prefix (key p s1 s2 : list byte) (block : Block)
    (j : nat) :
  block_valid block → (16 <= length key)%nat → length p = (j * 16)%nat →
  p ++ s1 ≠ [] → p ++ s2 ≠ [] →
  ∃ ser1 ser2,
    Encrypt key (Some block) (p ++ s1) = Ret ser1 ∧
    Encrypt key (Some block) (p ++ s2) = Ret ser2 ∧
    take (j * 16) ser1 = take (j * 16) ser2 ∧
    length (take (j * 16) ser1) = (j * 16)%nat.
Proof.
  intros Hvalid Hk16 Hp Hne1 Hne2.
  destruct (Encrypt_stages key _ block Hvalid Hk16 Hne1) as [_ Henc1].
  destruct (Encrypt_stages key _ block Hvalid Hk16 Hne2) as [_ Henc2].
  destruct (slice_to_16 key Hk16) as [_ Hiv].
  assert (∀ s, j ≤ length (p ++ s) / 16 + 1)%nat as Hj.
  { intros s. rewrite length_app, Hp.
    replace (j * 16 + length s)%nat with (length s + j * 16)%nat by lia.
    rewrite Nat.div_add by lia. lia. }
  eexists _, _. split; [exact Henc1|]. split; [exact Henc2|].
  rewrite <- !(assoc_L (++)).
  destruct (encrypt_blocks_prefix block j (length (p ++ s1) / 16 + 1)
              (take 16 key) p
              (s1 ++ replicate
                 (Z.to_nat (16 - Z.of_nat (length (p ++ s1)) mod 16))
                 (byte_of_Z (16 - Z.of_nat (length (p ++ s1)) mod 16)))
              Hvalid Hiv Hp (Hj s1)) as [-> Hlen].
  destruct (encrypt_blocks_prefix block j (length (p ++ s2) / 16 + 1)
              (take 16 key) p
              (s2 ++ replicate
                 (Z.to_nat (16 - Z.of_nat (length (p ++ s2)) mod 16))
                 (byte_of_Z (16 - Z.of_nat (length (p ++ s2)) mod 16)))
              Hvalid Hiv Hp (Hj s2)) as [-> _].
  done.
Qed.

(** The theorem with the stand-in cipher: two messages sharing one
    block. *)
Lemma Encrypt_common_prefix_witness :
  let key := replicate 16 "k"%byte in
  let p := replicate 16 "p"%byte in
  ∃ ser1 ser2,
    Encrypt key (Some (xor_cipher key)) (p ++ ["a"]%byte) = Ret ser1 ∧
    Encrypt key (Some (xor_cipher key)) (p ++ ["b"; "c"]%byte) = Ret ser2 ∧
    take (1 * 16) ser1 = take (1 * 16) ser2 ∧
    length (take (1 * 16) ser1) = (1 * 16)%nat.
Proof.
  intros key p.
  apply (Encrypt_common_prefix key p ["a"]%byte ["b"; "c"]%byte
           (xor_cipher key) 1).
  - apply xor_cipher_valid. left. reflexivity.
  - simpl. lia.
  - reflexivity.
  - discriminate.
  - discriminate.
Defined.

End aesFacts.

(** ** Package consistenthash *)

Module consistenthashFacts.

Import consistenthash GoFacts.

(** *** Binary search *)

Section SearchSpec.

Variable n : Z.
Variable f : Z → go bool.
Variable p : Z → bool.
Hypothesis n_int : 0 <= n < 2 ^ 63.
Hypothesis f_p : ∀ k, 0 <= k < n → f k = Ret (p k).
Hypothesis p_mono : ∀ a b, 0 <= a <= b → b < n → p a = true → p b = true.

Lemma midpoint (i j : Z) :
  0 <= i < j → j <= n →
  Z.shiftr (wrap64u (i + j)) 1 = (i + j) / 2 ∧ i <= (i + j) / 2 < j.
Proof using n_int.
  intros Hi Hj. unfold wrap64u.
  rewrite Z.mod_small by lia. rewrite Z.shiftr_div_pow2 by lia.
  change (2 ^ 1) with 2. split; [done|].
  split; [apply Z.div_le_lower_bound; lia|apply Z.div_lt_upper_bound; lia].
Qed.

Lemma Search_loop_spec (fuel : nat) (i j : Z) :
  0 <= i <= j → j <= n → j - i <= Z.of_nat fuel →
  (∀ k, 0 <= k < i → p k = false) →
  (∀ k, j <= k < n → p k = true) →
  ∃ r, Search_loop fuel f i j = Ret r ∧ i <= r <= j ∧
    (∀ k, 0 <= k < r → p k = false) ∧ (∀ k, r <= k < n → p k = true).
Proof using n_int f_p p_mono.
  revert i j. induction fuel as [|fuel IH]; intros i j Hij Hjn Hfuel Hlo Hhi.
  - exists i. simpl. assert (i = j) as -> by lia. by repeat split; try lia.
  - simpl. destruct (Z.ltb_spec i j) as [Hlt|Hge].
    + destruct (midpoint i j) as [-> Hh]; [lia|lia|].
      set (h := (i + j) / 2) in *.
      rewrite f_p by lia. simpl. destruct (p h) eqn:Hp.
      * destruct (IH i h) as (r & Hr & Hrange & Hfalse & Htrue); try lia; try done.
        { intros k Hk. apply (p_mono h k); [lia|lia|done]. }
        exists r. repeat split; try done; lia.
      * destruct (IH (h + 1) j) as (r & Hr & Hrange & Hfalse & Htrue); try lia; try done.
        { intros k Hk. destruct (p k) eqn:Hpk; [|done].
          rewrite (p_mono k h) in Hp; [done|lia|lia|done]. }
        exists r. repeat split; try done; lia.
    + exists i. assert (i = j) as -> by lia. by repeat split; try lia.
Qed.

Lemma Search_spec :
  ∃ r, Search n f = Ret r ∧ 0 <= r <= n ∧
    (∀ k, 0 <= k < r → p k = false) ∧ (∀ k, r <= k < n → p k = true).
Proof using n_int f_p p_mono.
  unfold Search. apply Search_loop_spec; try lia.
Qed.

End SearchSpec.

(** *** Routing over a sorted list of positions *)

Lemma sorted_lookup {N} (hash : N → Z) (l : list N) (a b : nat) (x y : N) :
  StronglySorted (λ a b, hash a <= hash b) l →
  (a <= b)%nat → l !! a = Some x → l !! b = Some y → hash x <= hash y.
Proof.
  intros Hs. revert a b.
  induction Hs as [|z l Hs IH Hall]; intros a b Hab Ha Hb; [done|].
  destruct a as [|a], b as [|b]; simpl in *; try lia.
  - assert (x = y) as -> by congruence. lia.
  - injection Ha as <-. rewrite Forall_forall in Hall.
    apply Hall. by eapply list_elem_of_lookup_2.
  - apply (IH a b); [lia|done|done].
Qed.

Section Routing.

(** Both rings: nodes of type [N] with a hash and an owner name. *)
Context {N : Type}.
Variable hash : N → Z.
Variable nodeName : N → string.
Variable nodes : list N.
Variable target : Z.

Local Abbreviation pairs := ((λ nd, (hash nd, nodeName nd)) <$> nodes).

Hypothesis nodes_sorted : StronglySorted (λ a b, hash a <= hash b) nodes.
Hypothesis nodes_int : Z.of_nat (length nodes) < 2 ^ 63.

Lemma route :
  nodes ≠ [] →
  ∃ idx nd,
    (idx' ← Search (Z.of_nat (length nodes))
              (λ i, n ← index nodes i; Ret (hash n >=? target));
     let idx := if idx' =? Z.of_nat (length nodes) then 0 else idx' in
     n ← index nodes idx; Ret (nodeName n, true))
    = Ret (nodeName nd, true) ∧
    nodes !! idx = Some nd ∧ owner_of pairs target (nodeName nd).
Proof using nodes_sorted nodes_int.
  intros Hne.
  set (len := Z.of_nat (length nodes)).
  assert (0 < len) as Hlen by (unfold len; destruct nodes; [done|simpl; lia]).
  set (p := λ k : Z, match nodes !! Z.to_nat k with
                     | Some nd => hash nd >=? target
                     | None => false
                     end).
  destruct (Search_spec len
              (λ i, n ← index nodes i; Ret (hash n >=? target)) p)
    as (r & -> & Hr & Hfalse & Htrue).
  - lia.
  - intros k Hk. unfold p.
    destruct (lookup_lt_is_Some_2 nodes (Z.to_nat k)) as [nd Hnd]; [lia|].
    rewrite (index_Ret _ _ nd) by (done || lia). by rewrite Hnd.
  - intros a b Hab Hb. unfold p.
    destruct (lookup_lt_is_Some_2 nodes (Z.to_nat a)) as [x Hx]; [lia|].
    destruct (lookup_lt_is_Some_2 nodes (Z.to_nat b)) as [y Hy]; [lia|].
    rewrite Hx, Hy. intros Hp.
    pose proof (sorted_lookup hash nodes (Z.to_nat a) (Z.to_nat b) x y nodes_sorted) as Hs.
    apply Z.geb_le. apply Z.geb_le in Hp.
    etrans; [exact Hp|]. apply Hs; [lia|done|done].
  - simpl.
    set (idx := if r =? len then 0 else r).
    assert (0 <= idx < len) as Hidx
      by (unfold idx; destruct (Z.eqb_spec r len); lia).
    destruct (lookup_lt_is_Some_2 nodes (Z.to_nat idx)) as [nd Hnd]; [lia|].
    exists (Z.to_nat idx), nd.
    rewrite (index_Ret _ _ nd) by (done || lia). simpl.
    split; [done|]. split; [done|].
    exists (hash nd). split.
    { apply list_elem_of_fmap. exists nd. split; [done|].
      by eapply list_elem_of_lookup_2. }
    assert (∀ k nd', nodes !! k = Some nd' →
              p (Z.of_nat k) = (hash nd' >=? target)) as Hp.
    { intros k nd' Hk. unfold p. by rewrite Nat2Z.id, Hk. }
    case_bool_decide as Hex.
    + (* some node is at or after the target *)
      apply Exists_exists in Hex as ((h' & o') & Hin & Hge). simpl in Hge.
      apply list_elem_of_fmap in Hin as (nd' & [= -> ->] & Hin').
      apply list_elem_of_lookup in Hin' as [k Hk].
      pose proof (lookup_lt_Some _ _ _ Hk) as Hklt.
      assert (r < len) as Hrlt.
      { destruct (decide (r = len)) as [->|]; [|lia].
        rewrite <- Z.geb_le, <- (Hp k nd' Hk), Hfalse in Hge; [done|lia]. }
      assert (idx = r) as Hir
        by (unfold idx; destruct (Z.eqb_spec r len); lia).
      rewrite Hir in *. split.
      * apply Z.geb_le. rewrite <- (Hp (Z.to_nat r) nd Hnd).
        rewrite Z2Nat.id by lia. apply Htrue. lia.
      * apply Forall_forall. intros (h'' & o'') Hin'' Hge''. simpl in *.
        apply list_elem_of_fmap in Hin'' as (nd'' & [= -> ->] & Hin'').
        apply list_elem_of_lookup in Hin'' as [k'' Hk''].
        pose proof (lookup_lt_Some _ _ _ Hk'') as Hk''lt.
        apply (sorted_lookup hash nodes (Z.to_nat r) k'' nd nd'' nodes_sorted); [|done|done].
        destruct (decide (Z.to_nat r <= k'')%nat) as [|Hgt]; [done|].
        rewrite <- Z.geb_le, <- (Hp k'' nd'' Hk''), Hfalse in Hge''; [done|lia].
    + (* no node is: wrap around to the first *)
      assert (r = len) as Hrl.
      { destruct (decide (r = len)) as [|Hn]; [done|]. exfalso. apply Hex.
        destruct (lookup_lt_is_Some_2 nodes (Z.to_nat r)) as [x Hx]; [lia|].
        apply Exists_exists. exists (hash x, nodeName x). split.
        - apply list_elem_of_fmap. exists x. split; [done|].
          by eapply list_elem_of_lookup_2.
        - simpl. apply Z.geb_le. rewrite <- (Hp (Z.to_nat r) x Hx).
          rewrite Z2Nat.id by lia. apply Htrue. lia. }
      assert (idx = 0) as Hi0
        by (unfold idx; destruct (Z.eqb_spec r len); lia).
      rewrite Hi0 in *.
      apply Forall_forall. intros (h'' & o'') Hin''. simpl.
      apply list_elem_of_fmap in Hin'' as (nd'' & [= -> ->] & Hin'').
      apply list_elem_of_lookup in Hin'' as [k'' Hk''].
      apply (sorted_lookup hash nodes 0 k'' nd nd'' nodes_sorted); [lia|done|done].
Qed.

End Routing.

Lemma StronglySorted_filter {A} (R : relation A) (P : A → Prop)
    `{∀ x, Decision (P x)} (l : list A) :
  StronglySorted R l → StronglySorted R (filter P l).
Proof.
  induction 1 as [|x l Hs IH Hall]; [constructor|].
  rewrite filter_cons. case_decide; [|done].
  constructor; [done|]. rewrite Forall_forall in Hall.
  apply Forall_forall. intros y [_ Hy]%list_elem_of_filter. by apply Hall.
Qed.

Section Rings.

Variable Sum64 : string → Z.
Variable Sort : list HashRing.ringNode → list HashRing.ringNode.
Variable Sort64 :
  list Int64HashRing.int64RingNode → list Int64HashRing.int64RingNode.

(** [sort.Sort] leaves the slice ordered by [Less]. *)
Hypothesis Sort_sorted : ∀ l, StronglySorted HashRing.hash_le (Sort l).
Hypothesis Sort64_sorted : ∀ l, StronglySorted Int64HashRing.hash_le (Sort64 l).

Lemma run_sorted (vs : Z) (ops : list ring_op) :
  StronglySorted HashRing.hash_le
    (HashRing.nodes (HashRing.run Sum64 Sort vs ops)).
Proof using Sort_sorted.
  unfold HashRing.run.
  assert (StronglySorted HashRing.hash_le
            (HashRing.nodes (HashRing.NewRing vs))) as H0 by constructor.
  revert H0. generalize (HashRing.NewRing vs).
  induction ops as [|op ops IH]; intros h Hh; [done|].
  simpl. apply IH. destruct op; simpl; [apply Sort_sorted|].
  by apply StronglySorted_filter.
Qed.

Lemma run64_sorted (vs : Z) (ops : list ring_op) :
  StronglySorted Int64HashRing.hash_le
    (Int64HashRing.nodes (Int64HashRing.run Sum64 Sort64 vs ops)).
Proof using Sort64_sorted.
  unfold Int64HashRing.run.
  assert (StronglySorted Int64HashRing.hash_le
            (Int64HashRing.nodes (Int64HashRing.NewInt64Ring vs))) as H0
    by constructor.
  revert H0. generalize (Int64HashRing.NewInt64Ring vs).
  induction ops as [|op ops IH]; intros h Hh; [done|].
  simpl. apply IH. destruct op; simpl; [apply Sort64_sorted|].
  by apply StronglySorted_filter.
Qed.

(** C8. A ring reached from the constructor by any run of [AddNode] and
    [RemoveNode] calls is sorted by hash, and on it [GetNode] returns
    [("", false)] when the ring has no virtual node, and otherwise
    [(owner, true)] where [owner] is the name of a virtual node of least
    hash among those whose hash is at least the key's position, or of
    least hash overall when there is none; for both the string-keyed and
    the int64-keyed ring. *)
Theorem GetNode_routes (vs : Z) (ops : list ring_op) :
  let h := HashRing.run Sum64 Sort vs ops in
  let h64 := Int64HashRing.run Sum64 Sort64 vs ops in
  Z.of_nat (length (HashRing.nodes h)) < 2 ^ 63 →
  Z.of_nat (length (Int64HashRing.nodes h64)) < 2 ^ 63 →
  StronglySorted HashRing.hash_le (HashRing.nodes h) ∧
  StronglySorted Int64HashRing.hash_le (Int64HashRing.nodes h64) ∧
  (∀ key,
     if decide (HashRing.nodes h = [])
     then HashRing.GetNode Sum64 h key = Ret (""%string, false)
     else ∃ owner, HashRing.GetNode Sum64 h key = Ret (owner, true) ∧
            owner_of (ring_pairs h) (HashRing.position Sum64 key) owner) ∧
  (∀ key,
     if decide (Int64HashRing.nodes h64 = [])
     then Int64HashRing.GetNode h64 key = Ret (""%string, false)
     else ∃ owner, Int64HashRing.GetNode h64 key = Ret (owner, true) ∧
            owner_of (int64_ring_pairs h64) (wrap64u key) owner).
Proof using Sort_sorted Sort64_sorted.
  intros h h64 Hlen Hlen64.
  split; [apply run_sorted|]. split; [apply run64_sorted|].
  split; intros key; case_decide as Hnil.
  - unfold HashRing.GetNode. by rewrite Hnil.
  - destruct (route HashRing.hash HashRing.nodeName (HashRing.nodes h)
                (HashRing.position Sum64 key) (run_sorted vs ops) Hlen Hnil)
      as (idx & nd & Hget & _ & Hown).
    exists (HashRing.nodeName nd). split; [|exact Hown].
    unfold HashRing.GetNode.
    destruct (Z.eqb_spec (Z.of_nat (length (HashRing.nodes h))) 0) as [H0|_];
      [destruct (HashRing.nodes h); [done|simpl in H0; lia]|].
    exact Hget.
  - unfold Int64HashRing.GetNode. by rewrite Hnil.
  - destruct (route Int64HashRing.hash Int64HashRing.nodeName
                (Int64HashRing.nodes h64) (wrap64u key)
                (run64_sorted vs ops) Hlen64 Hnil)
      as (idx & nd & Hget & _ & Hown).
    exists (Int64HashRing.nodeName nd). split; [|exact Hown].
    unfold Int64HashRing.GetNode.
    destruct (Z.eqb_spec (Z.of_nat (length (Int64HashRing.nodes h64))) 0)
      as [H0|_];
      [destruct (Int64HashRing.nodes h64); [done|simpl in H0; lia]|].
    exact Hget.
Qed.

End Rings.

#[local] Instance ring_hash_le_trans : Transitive HashRing.hash_le.
Proof. intros a b c. unfold HashRing.hash_le. lia. Qed.

#[local] Instance ring_hash_le_total : Total HashRing.hash_le.
Proof. intros a b. unfold HashRing.hash_le. lia. Qed.

#[local] Instance int64_ring_hash_le_trans : Transitive Int64HashRing.hash_le.
Proof. intros a b c. unfold Int64HashRing.hash_le. lia. Qed.

#[local] Instance int64_ring_hash_le_total : Total Int64HashRing.hash_le.
Proof. intros a b. unfold Int64HashRing.hash_le. lia. Qed.

(** The theorem with the stand-in hash and merge sort: two virtual spots,
    nodes "a" and "b" added and "a" removed again. *)
Lemma GetNode_routes_witness :
  let ops := [OpAddNode "a"; OpAddNode "b"; OpRemoveNode "a"] in
  let h := HashRing.run fnv64 (merge_sort HashRing.hash_le) 2 ops in
  let h64 := Int64HashRing.run fnv64 (merge_sort Int64HashRing.hash_le) 2 ops in
  StronglySorted HashRing.hash_le (HashRing.nodes h) ∧
  StronglySorted Int64HashRing.hash_le (Int64HashRing.nodes h64) ∧
  (∀ key,
     if decide (HashRing.nodes h = [])
     then HashRing.GetNode fnv64 h key = Ret (""%string, false)
     else ∃ owner, HashRing.GetNode fnv64 h key = Ret (owner, true) ∧
            owner_of (ring_pairs h) (HashRing.position fnv64 key) owner) ∧
  (∀ key,
     if decide (Int64HashRing.nodes h64 = [])
     then Int64HashRing.GetNode h64 key = Ret (""%string, false)
     else ∃ owner, Int64HashRing.GetNode h64 key = Ret (owner, true) ∧
            owner_of (int64_ring_pairs h64) (wrap64u key) owner).
Proof.
  intros ops h h64.
  apply (GetNode_routes fnv64 (merge_sort HashRing.hash_le)
           (merge_sort Int64HashRing.hash_le)
           (StronglySorted_merge_sort HashRing.hash_le)
           (StronglySorted_merge_sort Int64HashRing.hash_le) 2 ops).
  - vm_compute. reflexivity.
  - vm_compute. reflexivity.
Defined.

(** The run of the witness, evaluated. *)
Example GetNode_run :
  let ops := [OpAddNode "a"; OpAddNode "b"; OpRemoveNode "a"] in
  HashRing.GetNode fnv64
    (HashRing.run fnv64 (merge_sort HashRing.hash_le) 2 ops) "user123"
  = Ret ("b"%string, true) ∧
  Int64HashRing.GetNode
    (Int64HashRing.run fnv64 (merge_sort Int64HashRing.hash_le) 2 ops) 42
  = Ret ("b"%string, true) ∧
  Int64HashRing.GetNode
    (Int64HashRing.run fnv64 (merge_sort Int64HashRing.hash_le) 2 []) 42
  = Ret (""%string, false).
Proof. vm_compute. done. Qed.

(** *** The node [GetNode] settles on *)

Section Pick.

Context {N : Type}.
Variable hash : N → Z.
Variable nodeName : N → string.

Lemma route_pick (nodes : list N) (target : Z) :
  StronglySorted (λ a b, hash a <= hash b) nodes →
  Z.of_nat (length nodes) < 2 ^ 63 → nodes ≠ [] →
  ∃ nd, pick hash nodes target = Some nd ∧
    (idx' ← Search (Z.of_nat (length nodes))
              (λ i, n ← index nodes i; Ret (hash n >=? target));
     let idx := if idx' =? Z.of_nat (length nodes) then 0 else idx' in
     n ← index nodes idx; Ret (nodeName n, true))
    = Ret (nodeName nd, true).
Proof using Type.
  intros Hsorted Hint Hne.
  set (len := Z.of_nat (length nodes)).
  assert (0 < len) as Hlen by (unfold len; destruct nodes; [done|simpl; lia]).
  set (p := λ k : Z, match nodes !! Z.to_nat k with
                     | Some nd => hash nd >=? target
                     | None => false
                     end).
  destruct (Search_spec len
              (λ i, n ← index nodes i; Ret (hash n >=? target)) p)
    as (r & -> & Hr & Hfalse & Htrue).
  - lia.
  - intros k Hk. unfold p.
    destruct (lookup_lt_is_Some_2 nodes (Z.to_nat k)) as [nd Hnd]; [lia|].
    rewrite (index_Ret _ _ nd) by (done || lia). by rewrite Hnd.
  - intros a b Hab Hb. unfold p.
    destruct (lookup_lt_is_Some_2 nodes (Z.to_nat a)) as [x Hx]; [lia|].
    destruct (lookup_lt_is_Some_2 nodes (Z.to_nat b)) as [y Hy]; [lia|].
    rewrite Hx, Hy. intros Hp.
    pose proof (sorted_lookup hash nodes (Z.to_nat a) (Z.to_nat b) x y Hsorted)
      as Hs.
    apply Z.geb_le. apply Z.geb_le in Hp.
    etrans; [exact Hp|]. apply Hs; [lia|done|done].
  - simpl.
    assert (∀ k nd', nodes !! k = Some nd' →
              p (Z.of_nat k) = (hash nd' >=? target)) as Hp.
    { intros k nd' Hk. unfold p. by rewrite Nat2Z.id, Hk. }
    destruct (Z.eqb_spec r len) as [Hrl|Hrl].
    + destruct (lookup_lt_is_Some_2 nodes 0) as [nd Hnd]; [lia|].
      exists nd. rewrite (index_Ret _ _ nd) by (done || lia). simpl.
      split; [|done]. unfold pick.
      assert (list_find (λ nd, target <= hash nd) nodes = None) as ->.
      { apply list_find_None, Forall_forall. intros x Hx Hge.
        apply list_elem_of_lookup in Hx as [k Hk].
        pose proof (lookup_lt_Some _ _ _ Hk).
        apply Z.geb_le in Hge. rewrite <- (Hp k x Hk), Hfalse in Hge; [done|lia]. }
      by rewrite head_lookup.
    + destruct (lookup_lt_is_Some_2 nodes (Z.to_nat r)) as [nd Hnd]; [lia|].
      exists nd. rewrite (index_Ret _ _ nd) by (done || lia). simpl.
      split; [|done]. unfold pick.
      assert (list_find (λ nd, target <= hash nd) nodes
              = Some (Z.to_nat r, nd)) as ->; [|done].
      apply list_find_Some. split; [done|]. split.
      * apply Z.geb_le. rewrite <- (Hp _ _ Hnd), Z2Nat.id by lia.
        apply Htrue. lia.
      * intros j y Hj Hlt Hge. apply Z.geb_le in Hge.
        rewrite <- (Hp j y Hj), Hfalse in Hge; [done|lia].
Qed.

Lemma pick_elem_of (nodes : list N) (target : Z) (nd : N) :
  pick hash nodes target = Some nd → nd ∈ nodes.
Proof using Type.
  unfold pick.
  destruct (list_find _ nodes) as [[i x]|] eqn:Hf.
  - intros [= ->]. apply list_find_Some in Hf as (Hi & _).
    by eapply list_elem_of_lookup_2.
  - rewrite head_lookup. apply list_elem_of_lookup_2.
Qed.

Lemma list_find_filter_keep (Q P : N → Prop) `{∀ x, Decision (Q x)}
    `{∀ x, Decision (P x)} (l : list N) (i : nat) (nd : N) :
  list_find Q l = Some (i, nd) → P nd →
  ∃ i', list_find Q (filter P l) = Some (i', nd).
Proof using Type.
  intros Hf HP. revert i Hf.
  induction l as [|x l IH]; intros i Hf; [done|].
  rewrite filter_cons. cbn [list_find] in Hf.
  destruct (decide (Q x)) as [HQ|HQ].
  - injection Hf as <- <-. rewrite decide_True by done.
    exists 0%nat. cbn [list_find]. by rewrite decide_True.
  - destruct (list_find Q l) as [[i0 y]|] eqn:Hl; [|done].
    injection Hf as <- ->. destruct (IH i0 eq_refl) as [i' Hi'].
    case_decide.
    + exists (S i'). cbn [list_find]. rewrite decide_False by done.
      by rewrite Hi'.
    + by exists i'.
Qed.

(** Dropping other nodes does not change the node settled on. *)
Lemma pick_filter_keep (P : N → Prop) `{∀ x, Decision (P x)}
    (nodes : list N) (target : Z) (nd : N) :
  pick hash nodes target = Some nd → P nd →
  pick hash (filter P nodes) target = Some nd.
Proof using Type.
  unfold pick.
  destruct (list_find _ nodes) as [[i x]|] eqn:Hf.
  - intros [= ->] HP.
    destruct (list_find_filter_keep _ P nodes i nd Hf HP) as [i' ->]. done.
  - intros Hhead HP.
    assert (list_find (λ nd, target <= hash nd) (filter P nodes) = None) as ->.
    { apply list_find_None. apply list_find_None in Hf.
      rewrite Forall_forall in *. intros x [_ Hx]%list_elem_of_filter.
      by apply Hf. }
    destruct nodes as [|x l]; [done|]. injection Hhead as ->.
    rewrite filter_cons. by rewrite decide_True.
Qed.

(** On a list ordered by hash, the node settled on has the least hash at
    or above the target, or the least of all when no hash is above. *)
Lemma pick_least (nodes : list N) (target : Z) (nd : N) :
  StronglySorted (λ a b, hash a <= hash b) nodes →
  pick hash nodes target = Some nd →
  (target <= hash nd ∧
   ∀ x, x ∈ nodes → target <= hash x → hash nd <= hash x) ∨
  ((∀ x, x ∈ nodes → hash x < target) ∧
   ∀ x, x ∈ nodes → hash nd <= hash x).
Proof using Type.
  intros Hsorted. unfold pick.
  destruct (list_find _ nodes) as [[i y]|] eqn:Hf.
  - intros [= ->]. apply list_find_Some in Hf as (Hi & Hge & Hbefore).
    left. split; [done|]. intros x Hx Hxge.
    apply list_elem_of_lookup in Hx as [k Hk].
    destruct (decide (i ≤ k)%nat) as [Hik|Hik].
    + by apply (sorted_lookup hash nodes i k nd x Hsorted).
    + destruct (Hbefore k x Hk); [lia|done].
  - rewrite head_lookup. intros H0. right.
    apply list_find_None in Hf. rewrite Forall_forall in Hf. split.
    + intros x Hx. specialize (Hf x Hx). lia.
    + intros x Hx. apply list_elem_of_lookup in Hx as [k Hk].
      apply (sorted_lookup hash nodes 0 k nd x Hsorted); [lia|done|done].
Qed.

(** Adding nodes: the node settled on is one of the added, or the one
    settled on before, the hashes being distinct. *)
Lemma pick_grow (old nodes : list N) (target : Z) (nd : N) :
  StronglySorted (λ a b, hash a <= hash b) old →
  StronglySorted (λ a b, hash a <= hash b) nodes →
  NoDup (hash <$> nodes) →
  (∀ x, x ∈ old → x ∈ nodes) →
  pick hash nodes target = Some nd → nd ∈ old →
  pick hash old target = Some nd.
Proof using Type.
  intros Hso Hsn Hnd Hsub Hpick Hin.
  assert (∃ nd0, pick hash old target = Some nd0) as [nd0 Hpick0].
  { unfold pick. destruct (list_find _ old) as [[i y]|]; [by eexists|].
    destruct old; [by apply elem_of_nil in Hin|by eexists]. }
  pose proof (pick_elem_of _ _ _ Hpick0) as Hin0.
  assert (hash nd0 = hash nd) as Hh.
  { destruct (pick_least _ _ _ Hso Hpick0) as [[Hge0 Hmin0]|[Hlt0 Hmin0]],
      (pick_least _ _ _ Hsn Hpick) as [[Hge Hmin]|[Hlt Hmin]].
    - pose proof (Hmin0 nd Hin Hge). pose proof (Hmin nd0 (Hsub _ Hin0) Hge0).
      lia.
    - pose proof (Hlt nd0 (Hsub _ Hin0)). lia.
    - pose proof (Hlt0 nd Hin). lia.
    - pose proof (Hmin0 nd Hin). pose proof (Hmin nd0 (Hsub _ Hin0)). lia. }
  rewrite Hpick0. f_equal.
  apply Hsub in Hin0. apply pick_elem_of in Hpick.
  apply list_elem_of_lookup in Hin0 as [i Hi].
  apply list_elem_of_lookup in Hpick as [j Hj].
  assert (i = j) as ->; [|congruence].
  apply (NoDup_lookup (hash <$> nodes) i j (hash nd)); [done| |].
  - by rewrite list_lookup_fmap, Hi, <- Hh.
  - by rewrite list_lookup_fmap, Hj.
Qed.

Lemma names_filter (name : string) (nodes : list N) :
  nodeName <$> filter (λ n, nodeName n ≠ name) nodes
  = filter (λ n, n ≠ name) (nodeName <$> nodes).
Proof using Type.
  induction nodes as [|x l IH]; [done|].
  rewrite fmap_cons, !filter_cons. case_decide; [|done].
  by rewrite fmap_cons, IH.
Qed.

End Pick.

Lemma fmap_const_replicate {A B} (f : A → B) (l : list A) (b : B) :
  (∀ a, f a = b) → f <$> l = replicate (length l) b.
Proof.
  intros Hf. induction l as [|a l IH]; [done|].
  rewrite fmap_cons, Hf, IH. done.
Qed.

Lemma filter_bind_replicate (k : nat) (name : string) (l : list string) :
  filter (λ n, n ≠ name) (l ≫= replicate k)
  = filter (λ n, n ≠ name) l ≫= replicate k.
Proof.
  induction l as [|x l IH]; [done|].
  rewrite bind_cons, filter_app, IH, filter_cons.
  assert (filter (λ n, n ≠ name) (replicate k x)
          = if decide (x ≠ name) then replicate k x else []) as ->.
  { clear IH. induction k as [|k IHk]; simpl; [by case_decide|].
    rewrite filter_cons, IHk. by case_decide. }
  case_decide; [by rewrite bind_cons|done].
Qed.

Lemma bind_singleton {A B} (f : A → list B) (x : A) : [x] ≫= f = f x.
Proof. simpl. apply app_nil_r. Qed.

Lemma length_bind_replicate (k : nat) (l : list string) :
  length (l ≫= replicate k) = (k * length l)%nat.
Proof.
  induction l as [|x l IH]; [simpl; lia|].
  rewrite bind_cons, length_app, length_replicate, IH. simpl. lia.
Qed.

Section RingRuns.

Variable Sum64 : string → Z.
Variable Sort : list HashRing.ringNode → list HashRing.ringNode.
Variable Sort64 :
  list Int64HashRing.int64RingNode → list Int64HashRing.int64RingNode.

(** [sort.Sort] orders the slice by [Less] and keeps its elements. *)
Hypothesis Sort_sorted : ∀ l, StronglySorted HashRing.hash_le (Sort l).
Hypothesis Sort64_sorted : ∀ l, StronglySorted Int64HashRing.hash_le (Sort64 l).
Hypothesis Sort_perm : ∀ l, Sort l ≡ₚ l.
Hypothesis Sort64_perm : ∀ l, Sort64 l ≡ₚ l.

Lemma GetNode_pick (h : HashRing.HashRing) (key : string) :
  StronglySorted HashRing.hash_le (HashRing.nodes h) →
  Z.of_nat (length (HashRing.nodes h)) < 2 ^ 63 →
  HashRing.GetNode Sum64 h key
  = match pick HashRing.hash (HashRing.nodes h)
            (HashRing.position Sum64 key) with
    | Some nd => Ret (HashRing.nodeName nd, true)
    | None => Ret (""%string, false)
    end.
Proof using Type.
  intros Hs Hlen. unfold HashRing.GetNode.
  destruct (decide (HashRing.nodes h = [])) as [Hnil|Hne].
  - by rewrite Hnil.
  - destruct (route_pick HashRing.hash HashRing.nodeName (HashRing.nodes h)
                (HashRing.position Sum64 key) Hs Hlen Hne) as (nd & -> & Hb).
    destruct (Z.eqb_spec (Z.of_nat (length (HashRing.nodes h))) 0) as [H0|_];
      [destruct (HashRing.nodes h); [done|simpl in H0; lia]|].
    exact Hb.
Qed.

Lemma GetNode64_pick (h : Int64HashRing.Int64HashRing) (key : Z) :
  StronglySorted Int64HashRing.hash_le (Int64HashRing.nodes h) →
  Z.of_nat (length (Int64HashRing.nodes h)) < 2 ^ 63 →
  Int64HashRing.GetNode h key
  = match pick Int64HashRing.hash (Int64HashRing.nodes h) (wrap64u key) with
    | Some nd => Ret (Int64HashRing.nodeName nd, true)
    | None => Ret (""%string, false)
    end.
Proof using Type.
  intros Hs Hlen. unfold Int64HashRing.GetNode.
  destruct (decide (Int64HashRing.nodes h = [])) as [Hnil|Hne].
  - by rewrite Hnil.
  - destruct (route_pick Int64HashRing.hash Int64HashRing.nodeName
                (Int64HashRing.nodes h) (wrap64u key) Hs Hlen Hne)
      as (nd & -> & Hb).
    destruct (Z.eqb_spec (Z.of_nat (length (Int64HashRing.nodes h))) 0)
      as [H0|_];
      [destruct (Int64HashRing.nodes h); [done|simpl in H0; lia]|].
    exact Hb.
Qed.

(** The names on the ring after a run. *)
Lemma run_names (vs : Z) (ops : list ring_op) :
  let h := HashRing.run Sum64 Sort vs ops in
  let spots := HashRing.virtualSpots (HashRing.NewRing vs) in
  HashRing.virtualSpots h = spots ∧
  HashRing.nodeName <$> HashRing.nodes h
    ≡ₚ live ops ≫= replicate (Z.to_nat spots).
Proof using Sort_perm.
  unfold HashRing.run, live. simpl.
  set (spots := if vs <=? 0 then DefaultVirtualSpots else vs).
  assert (HashRing.virtualSpots (HashRing.NewRing vs) = spots ∧
          HashRing.nodeName <$> HashRing.nodes (HashRing.NewRing vs)
            ≡ₚ [] ≫= replicate (Z.to_nat spots)) as H0 by done.
  revert H0. generalize (HashRing.NewRing vs) ([] : list string).
  induction ops as [|op ops IH]; intros h names [Hvs Hn]; [done|].
  simpl. apply IH. destruct op as [name|name]; simpl.
  - split; [done|]. rewrite Sort_perm, fmap_app, Hn, bind_app, Hvs.
    apply Permutation_app; [done|].
    rewrite bind_singleton, <- list_fmap_compose.
    rewrite (fmap_const_replicate _ _ name) by done.
    by rewrite length_seqZ.
  - split; [done|].
    rewrite (names_filter HashRing.nodeName), Hn.
    by rewrite filter_bind_replicate.
Qed.

Lemma run64_names (vs : Z) (ops : list ring_op) :
  let h := Int64HashRing.run Sum64 Sort64 vs ops in
  let spots := Int64HashRing.virtualSpots (Int64HashRing.NewInt64Ring vs) in
  Int64HashRing.virtualSpots h = spots ∧
  Int64HashRing.nodeName <$> Int64HashRing.nodes h
    ≡ₚ live ops ≫= replicate (Z.to_nat spots).
Proof using Sort64_perm.
  unfold Int64HashRing.run, live. simpl.
  set (spots := if vs <=? 0 then DefaultVirtualSpots else vs).
  assert (Int64HashRing.virtualSpots (Int64HashRing.NewInt64Ring vs) = spots ∧
          Int64HashRing.nodeName <$>
            Int64HashRing.nodes (Int64HashRing.NewInt64Ring vs)
            ≡ₚ [] ≫= replicate (Z.to_nat spots)) as H0 by done.
  revert H0. generalize (Int64HashRing.NewInt64Ring vs) ([] : list string).
  induction ops as [|op ops IH]; intros h names [Hvs Hn]; [done|].
  simpl. apply IH. destruct op as [name|name]; simpl.
  - split; [done|]. rewrite Sort64_perm, fmap_app, Hn, bind_app, Hvs.
    apply Permutation_app; [done|].
    rewrite bind_singleton, <- list_fmap_compose.
    rewrite (fmap_const_replicate _ _ name) by done.
    by rewrite length_seqZ.
  - split; [done|].
    rewrite (names_filter Int64HashRing.nodeName), Hn.
    by rewrite filter_bind_replicate.
Qed.

Lemma spots_pos (vs : Z) : 0 < HashRing.virtualSpots (HashRing.NewRing vs).
Proof using Type.
  simpl. destruct (Z.leb_spec vs 0); [done|lia].
Qed.

(** What [GetNode] answers, from the names on the ring. *)
Lemma answer_live {N} (hash : N → Z) (nodeName : N → string)
    (nodes : list N) (names : list string) (spots target : Z) :
  0 < spots →
  nodeName <$> nodes ≡ₚ names ≫= replicate (Z.to_nat spots) →
  Z.of_nat (length nodes) = spots * Z.of_nat (length names) ∧
  if decide (names = [])
  then pick hash nodes target = None
  else ∃ nd, pick hash nodes target = Some nd ∧ nodeName nd ∈ names.
Proof using Type.
  intros Hpos Hperm.
  assert (Z.of_nat (length nodes) = spots * Z.of_nat (length names)) as Hlen.
  { rewrite <- (length_fmap nodeName), Hperm, length_bind_replicate. lia. }
  split; [done|]. case_decide as Hnames.
  - subst names. destruct nodes; [done|simpl in Hlen; lia].
  - assert (nodes ≠ []) as Hne.
    { intros ->. destruct names; [done|simpl in Hlen; lia]. }
    assert (∃ nd, pick hash nodes target = Some nd) as [nd Hnd].
    { unfold pick. destruct (list_find _ nodes) as [[i y]|]; [by eexists|].
      destruct nodes; [done|by eexists]. }
    exists nd. split; [done|].
    apply pick_elem_of in Hnd.
    assert (nodeName nd ∈ names ≫= replicate (Z.to_nat spots)) as Hin
      by (rewrite <- Hperm; by apply list_elem_of_fmap_2).
    apply list_elem_of_bind in Hin as (n & Hrep & Hn).
    apply elem_of_replicate in Hrep as [-> _]. done.
Qed.

(** X23. After any run of [AddNode] and [RemoveNode] calls, both rings
    hold [virtualSpots] virtual nodes for each name added and not removed
    since, a name added twice counting twice; [GetNode] answers
    [("", false)] exactly when no such name is left and names one of them
    otherwise, so never a removed node. *)
Theorem ring_holds_live_names (vs : Z) (ops : list ring_op) :
  let h := HashRing.run Sum64 Sort vs ops in
  let h64 := Int64HashRing.run Sum64 Sort64 vs ops in
  let spots := HashRing.virtualSpots (HashRing.NewRing vs) in
  Z.of_nat (length (HashRing.nodes h)) < 2 ^ 63 →
  Z.of_nat (length (Int64HashRing.nodes h64)) < 2 ^ 63 →
  0 < spots ∧
  HashRing.nodeName <$> HashRing.nodes h
    ≡ₚ live ops ≫= replicate (Z.to_nat spots) ∧
  Int64HashRing.nodeName <$> Int64HashRing.nodes h64
    ≡ₚ live ops ≫= replicate (Z.to_nat spots) ∧
  Z.of_nat (length (HashRing.nodes h)) = spots * Z.of_nat (length (live ops)) ∧
  Z.of_nat (length (Int64HashRing.nodes h64))
    = spots * Z.of_nat (length (live ops)) ∧
  (∀ key,
     if decide (live ops = [])
     then HashRing.GetNode Sum64 h key = Ret (""%string, false)
     else ∃ owner, HashRing.GetNode Sum64 h key = Ret (owner, true) ∧
            owner ∈ live ops) ∧
  (∀ key,
     if decide (live ops = [])
     then Int64HashRing.GetNode h64 key = Ret (""%string, false)
     else ∃ owner, Int64HashRing.GetNode h64 key = Ret (owner, true) ∧
            owner ∈ live ops).
Proof using Sort_sorted Sort64_sorted Sort_perm Sort64_perm.
  intros h h64 spots Hlen Hlen64.
  pose proof (spots_pos vs) as Hpos. fold spots in Hpos.
  destruct (run_names vs ops) as [_ Hn]. fold h spots in Hn.
  destruct (run64_names vs ops) as [_ Hn64]. fold h64 in Hn64.
  change (Int64HashRing.virtualSpots (Int64HashRing.NewInt64Ring vs))
    with spots in Hn64.
  split; [done|]. split; [done|]. split; [done|].
  split; [by apply (answer_live HashRing.hash HashRing.nodeName _ _ _ 0)|].
  split; [by apply (answer_live Int64HashRing.hash Int64HashRing.nodeName
                      _ _ _ 0)|].
  split; intros key.
  - rewrite GetNode_pick by (done || apply run_sorted, Sort_sorted).
    destruct (answer_live HashRing.hash HashRing.nodeName _ _ _
                (HashRing.position Sum64 key) Hpos Hn) as [_ Hp].
    case_decide; [by rewrite Hp|].
    destruct Hp as (nd & -> & Hin). by eexists.
  - rewrite GetNode64_pick by (done || apply run64_sorted, Sort64_sorted).
    destruct (answer_live Int64HashRing.hash Int64HashRing.nodeName _ _ _
                (wrap64u key) Hpos Hn64) as [_ Hp].
    case_decide; [by rewrite Hp|].
    destruct Hp as (nd & -> & Hin). by eexists.
Qed.

(** X24. Removing a node moves only the keys that node owned: on a ring
    reached by any run, a key that [GetNode] gives to an owner other than
    the removed name is given to the same owner after [RemoveNode], and
    no key is given to the removed name; for both rings. *)
Theorem RemoveNode_keeps_other_owners (vs : Z) (ops : list ring_op)
    (name : string) :
  let h := HashRing.run Sum64 Sort vs ops in
  let h64 := Int64HashRing.run Sum64 Sort64 vs ops in
  Z.of_nat (length (HashRing.nodes h)) < 2 ^ 63 →
  Z.of_nat (length (Int64HashRing.nodes h64)) < 2 ^ 63 →
  (∀ key owner,
     HashRing.GetNode Sum64 h key = Ret (owner, true) → owner ≠ name →
     HashRing.GetNode Sum64 (HashRing.RemoveNode h name) key
     = Ret (owner, true)) ∧
  (∀ key, HashRing.GetNode Sum64 (HashRing.RemoveNode h name) key
          ≠ Ret (name, true)) ∧
  (∀ key owner,
     Int64HashRing.GetNode h64 key = Ret (owner, true) → owner ≠ name →
     Int64HashRing.GetNode (Int64HashRing.RemoveNode h64 name) key
     = Ret (owner, true)) ∧
  (∀ key, Int64HashRing.GetNode (Int64HashRing.RemoveNode h64 name) key
          ≠ Ret (name, true)).
Proof using Sort_sorted Sort64_sorted.
  intros h h64 Hlen Hlen64.
  pose proof (run_sorted Sum64 Sort Sort_sorted vs ops) as Hs. fold h in Hs.
  pose proof (run64_sorted Sum64 Sort64 Sort64_sorted vs ops) as Hs64.
  fold h64 in Hs64.
  assert (StronglySorted HashRing.hash_le
            (HashRing.nodes (HashRing.RemoveNode h name))) as Hs'
    by (by apply StronglySorted_filter).
  assert (StronglySorted Int64HashRing.hash_le
            (Int64HashRing.nodes (Int64HashRing.RemoveNode h64 name))) as Hs64'
    by (by apply StronglySorted_filter).
  assert (Z.of_nat (length (HashRing.nodes (HashRing.RemoveNode h name)))
          < 2 ^ 63) as Hlen'.
  { simpl. pose proof (length_filter (λ n, HashRing.nodeName n ≠ name)
                         (HashRing.nodes h)). lia. }
  assert (Z.of_nat (length (Int64HashRing.nodes
                              (Int64HashRing.RemoveNode h64 name)))
          < 2 ^ 63) as Hlen64'.
  { simpl. pose proof (length_filter (λ n, Int64HashRing.nodeName n ≠ name)
                         (Int64HashRing.nodes h64)). lia. }
  split; [|split; [|split]].
  - intros key owner. rewrite !GetNode_pick by done.
    destruct (pick HashRing.hash (HashRing.nodes h) _) as [nd|] eqn:Hp;
      [|done].
    intros [= <-] Hne. simpl.
    by rewrite (pick_filter_keep HashRing.hash _ _ _ nd Hp Hne).
  - intros key. rewrite GetNode_pick by done.
    destruct (pick HashRing.hash _ _) as [nd|] eqn:Hp; [|done].
    intros [= Hname]. apply pick_elem_of in Hp. simpl in Hp.
    by apply list_elem_of_filter in Hp as [Hne _].
  - intros key owner. rewrite !GetNode64_pick by done.
    destruct (pick Int64HashRing.hash (Int64HashRing.nodes h64) _)
      as [nd|] eqn:Hp; [|done].
    intros [= <-] Hne. simpl.
    by rewrite (pick_filter_keep Int64HashRing.hash _ _ _ nd Hp Hne).
  - intros key. rewrite GetNode64_pick by done.
    destruct (pick Int64HashRing.hash _ _) as [nd|] eqn:Hp; [|done].
    intros [= Hname]. apply pick_elem_of in Hp. simpl in Hp.
    by apply list_elem_of_filter in Hp as [Hne _].
Qed.

(** X25. Adding a node moves keys to that node only: on a ring reached by
    any run, if the hashes of the virtual nodes after [AddNode] are all
    different, every key is given either to the added name or to the
    owner it had before; for both rings. *)
Theorem AddNode_moves_keys_to_new_node (vs : Z) (ops : list ring_op)
    (name : string) :
  let h := HashRing.run Sum64 Sort vs ops in
  let h' := HashRing.AddNode Sum64 Sort h name in
  let h64 := Int64HashRing.run Sum64 Sort64 vs ops in
  let h64' := Int64HashRing.AddNode Sum64 Sort64 h64 name in
  Z.of_nat (length (HashRing.nodes h')) < 2 ^ 63 →
  Z.of_nat (length (Int64HashRing.nodes h64')) < 2 ^ 63 →
  NoDup (HashRing.hash <$> HashRing.nodes h') →
  NoDup (Int64HashRing.hash <$> Int64HashRing.nodes h64') →
  (∀ key, ∃ owner,
     HashRing.GetNode Sum64 h' key = Ret (owner, true) ∧
     (owner = name ∨ HashRing.GetNode Sum64 h key = Ret (owner, true))) ∧
  (∀ key, ∃ owner,
     Int64HashRing.GetNode h64' key = Ret (owner, true) ∧
     (owner = name ∨ Int64HashRing.GetNode h64 key = Ret (owner, true))).
Proof using Sort_sorted Sort64_sorted Sort_perm Sort64_perm.
  intros h h' h64 h64' Hlen' Hlen64' Hnd Hnd64.
  pose proof (run_sorted Sum64 Sort Sort_sorted vs ops) as Hs. fold h in Hs.
  pose proof (run64_sorted Sum64 Sort64 Sort64_sorted vs ops) as Hs64.
  fold h64 in Hs64.
  destruct (run_names vs ops) as [Hvs _]. fold h in Hvs.
  destruct (run64_names vs ops) as [Hvs64 _]. fold h64 in Hvs64.
  pose proof (spots_pos vs) as Hpos.
  split; intros key.
  - assert (HashRing.nodes h' ≡ₚ HashRing.nodes h ++
              (HashRing.virtualNode Sum64 name <$>
                 seqZ 0 (HashRing.virtualSpots h))) as Hperm
      by apply Sort_perm.
    assert (Z.of_nat (length (HashRing.nodes h)) < 2 ^ 63) as Hlen.
    { rewrite Hperm, length_app in Hlen'. lia. }
    assert (HashRing.nodes h' ≠ []) as Hne.
    { intros Hnil. rewrite Hnil in Hperm.
      apply Permutation_length in Hperm.
      rewrite length_app, length_fmap, length_seqZ, Hvs in Hperm.
      simpl in Hperm. simpl in Hpos. lia. }
    rewrite !GetNode_pick by (done || apply Sort_sorted).
    destruct (route_pick HashRing.hash HashRing.nodeName (HashRing.nodes h')
                (HashRing.position Sum64 key) (Sort_sorted _) Hlen' Hne)
      as (nd & Hp & _).
    rewrite Hp. exists (HashRing.nodeName nd). split; [done|].
    pose proof (pick_elem_of _ _ _ _ Hp) as Hin.
    rewrite Hperm in Hin. apply elem_of_app in Hin as [Hold|Hnew].
    + right.
      rewrite (pick_grow HashRing.hash (HashRing.nodes h) (HashRing.nodes h')
                 _ nd Hs (Sort_sorted _) Hnd); [done| |done|done].
      intros x Hx. rewrite Hperm. apply elem_of_app. by left.
    + left. apply list_elem_of_fmap in Hnew as (i & -> & _). done.
  - assert (Int64HashRing.nodes h64' ≡ₚ Int64HashRing.nodes h64 ++
              (Int64HashRing.virtualNode Sum64 name <$>
                 seqZ 0 (Int64HashRing.virtualSpots h64))) as Hperm
      by apply Sort64_perm.
    assert (Z.of_nat (length (Int64HashRing.nodes h64)) < 2 ^ 63) as Hlen.
    { rewrite Hperm, length_app in Hlen64'. lia. }
    assert (Int64HashRing.nodes h64' ≠ []) as Hne.
    { intros Hnil. rewrite Hnil in Hperm.
      apply Permutation_length in Hperm.
      rewrite length_app, length_fmap, length_seqZ, Hvs64 in Hperm.
      simpl in Hperm. simpl in Hpos. lia. }
    rewrite !GetNode64_pick by (done || apply Sort64_sorted).
    destruct (route_pick Int64HashRing.hash Int64HashRing.nodeName
                (Int64HashRing.nodes h64') (wrap64u key)
                (Sort64_sorted _) Hlen64' Hne) as (nd & Hp & _).
    rewrite Hp. exists (Int64HashRing.nodeName nd). split; [done|].
    pose proof (pick_elem_of _ _ _ _ Hp) as Hin.
    rewrite Hperm in Hin. apply elem_of_app in Hin as [Hold|Hnew].
    + right.
      rewrite (pick_grow Int64HashRing.hash (Int64HashRing.nodes h64)
                 (Int64HashRing.nodes h64') _ nd Hs64 (Sort64_sorted _) Hnd64);
        [done| |done|done].
      intros x Hx. rewrite Hperm. apply elem_of_app. by left.
    + left. apply list_elem_of_fmap in Hnew as (i & -> & _). done.
Qed.

End RingRuns.

(** The theorem with the stand-in hash and merge sort: two virtual spots,
    nodes "a" and "b" added and "a" removed again. *)
Lemma ring_holds_live_names_witness :
  let ops := [OpAddNode "a"; OpAddNode "b"; OpRemoveNode "a"] in
  let h := HashRing.run fnv64 (merge_sort HashRing.hash_le) 2 ops in
  let h64 := Int64HashRing.run fnv64 (merge_sort Int64HashRing.hash_le) 2 ops in
  let spots := HashRing.virtualSpots (HashRing.NewRing 2) in
  0 < spots ∧
  HashRing.nodeName <$> HashRing.nodes h
    ≡ₚ live ops ≫= replicate (Z.to_nat spots) ∧
  Int64HashRing.nodeName <$> Int64HashRing.nodes h64
    ≡ₚ live ops ≫= replicate (Z.to_nat spots) ∧
  Z.of_nat (length (HashRing.nodes h)) = spots * Z.of_nat (length (live ops)) ∧
  Z.of_nat (length (Int64HashRing.nodes h64))
    = spots * Z.of_nat (length (live ops)) ∧
  (∀ key,
     if decide (live ops = [])
     then HashRing.GetNode fnv64 h key = Ret (""%string, false)
     else ∃ owner, HashRing.GetNode fnv64 h key = Ret (owner, true) ∧
            owner ∈ live ops) ∧
  (∀ key,
     if decide (live ops = [])
     then Int64HashRing.GetNode h64 key = Ret (""%string, false)
     else ∃ owner, Int64HashRing.GetNode h64 key = Ret (owner, true) ∧
            owner ∈ live ops).
Proof.
  intros ops h h64 spots.
  apply (ring_holds_live_names fnv64 (merge_sort HashRing.hash_le)
           (merge_sort Int64HashRing.hash_le)
           (StronglySorted_merge_sort HashRing.hash_le)
           (StronglySorted_merge_sort Int64HashRing.hash_le)
           (merge_sort_Permutation HashRing.hash_le)
           (merge_sort_Permutation Int64HashRing.hash_le) 2 ops).
  - vm_compute. reflexivity.
  - vm_compute. reflexivity.
Defined.

(** The theorem with the stand-in hash and merge sort: nodes "a" and "b"
    on the ring, "b" removed; the keys of "a" stay with "a". *)
Lemma RemoveNode_keeps_other_owners_witness :
  let ops := [OpAddNode "a"; OpAddNode "b"] in
  let h := HashRing.run fnv64 (merge_sort HashRing.hash_le) 2 ops in
  let h64 := Int64HashRing.run fnv64 (merge_sort Int64HashRing.hash_le) 2 ops in
  HashRing.GetNode fnv64 (HashRing.RemoveNode h "b") "user123"
  = Ret ("a"%string, true) ∧
  Int64HashRing.GetNode (Int64HashRing.RemoveNode h64 "b") 42
  = Ret ("a"%string, true).
Proof.
  intros ops h h64.
  destruct (RemoveNode_keeps_other_owners fnv64 (merge_sort HashRing.hash_le)
              (merge_sort Int64HashRing.hash_le)
              (StronglySorted_merge_sort HashRing.hash_le)
              (StronglySorted_merge_sort Int64HashRing.hash_le) 2 ops "b")
    as (Hkeep & _ & Hkeep64 & _).
  - vm_compute. reflexivity.
  - vm_compute. reflexivity.
  - split.
    + apply Hkeep; [vm_compute; reflexivity|discriminate].
    + apply Hkeep64; [vm_compute; reflexivity|discriminate].
Defined.

(** The theorem with the stand-in hash and merge sort: node "c" added to
    a ring of "a" and "b". *)
Lemma AddNode_moves_keys_to_new_node_witness :
  let ops := [OpAddNode "a"; OpAddNode "b"] in
  let h := HashRing.run fnv64 (merge_sort HashRing.hash_le) 2 ops in
  let h' := HashRing.AddNode fnv64 (merge_sort HashRing.hash_le) h "c" in
  let h64 := Int64HashRing.run fnv64 (merge_sort Int64HashRing.hash_le) 2 ops in
  let h64' :=
    Int64HashRing.AddNode fnv64 (merge_sort Int64HashRing.hash_le) h64 "c" in
  (∀ key, ∃ owner,
     HashRing.GetNode fnv64 h' key = Ret (owner, true) ∧
     (owner = "c"%string ∨ HashRing.GetNode fnv64 h key = Ret (owner, true))) ∧
  (∀ key, ∃ owner,
     Int64HashRing.GetNode h64' key = Ret (owner, true) ∧
     (owner = "c"%string ∨ Int64HashRing.GetNode h64 key = Ret (owner, true))).
Proof.
  intros ops h h' h64 h64'.
  apply (AddNode_moves_keys_to_new_node fnv64 (merge_sort HashRing.hash_le)
           (merge_sort Int64HashRing.hash_le)
           (StronglySorted_merge_sort HashRing.hash_le)
           (StronglySorted_merge_sort Int64HashRing.hash_le)
           (merge_sort_Permutation HashRing.hash_le)
           (merge_sort_Permutation Int64HashRing.hash_le) 2 ops "c").
  - vm_compute. reflexivity.
  - vm_compute. reflexivity.
  - apply (bool_decide_unpack _). vm_compute. exact I.
  - apply (bool_decide_unpack _). vm_compute. exact I.
Defined.

End consistenthashFacts.

(** ** Package sync: the stopper *)

Module syncFacts.

Import sync GoFacts.

Lemma strconv_append_cons (x : ascii) (a b : string) :
  String x a +:+ b = String x (a +:+ b).
Proof. reflexivity. Qed.

Lemma ParseUint_FormatUint_loop (u : Z) :
  0 <= u < 2 ^ 64 →
  strconv.ParseUint_loop (strconv.FormatUint u) 0 = inr u.
Proof.
  intros Hu. apply idFacts.ParseUint_loop_formatBits; [done|].
  change (2 ^ 64) with 18446744073709551616 in Hu.
  change (10 ^ Z.of_nat 20) with 100000000000000000000. lia.
Qed.

Lemma occurrences_app (e : effect) (tr1 tr2 : list effect) :
  occurrences e (tr1 ++ tr2) = (occurrences e tr1 + occurrences e tr2)%nat.
Proof. unfold occurrences. by rewrite filter_app, length_app. Qed.

Lemma invocations_app (tr1 tr2 : list effect) :
  invocations (tr1 ++ tr2) = invocations tr1 ++ invocations tr2.
Proof. unfold invocations. apply omap_app. Qed.

Lemma NewStopper_consistent (t : Z) : consistent (NewStopper t).
Proof. by repeat split. Qed.

(** [TriggerStop] on a consistent stopper. *)
Lemma TriggerStop_spec (w : world) :
  consistent w →
  ∃ w1, TriggerStop w = Ret w1 ∧ consistent w1 ∧
    stopTriggered w1.1 = true ∧ isStopping w1.1 = isStopping w.1 ∧
    invocations w1.2 = invocations w.2 ∧
    (if stopTriggered w.1 then w1 = w
     else stopTrigger w1.1 = true ∧ w1.2 = w.2 ++ [CloseStopTrigger]).
Proof.
  destruct w as [s tr]. intros (H1 & H2 & H3 & H4 & H5 & H6 & H7).
  unfold TriggerStop, isStopTriggered. simpl.
  destruct (stopTriggered s) eqn:Ht.
  - exists (s, tr). simpl. rewrite Ht.
    split; [done|]. split; [by repeat split; rewrite ?Ht|done].
  - rewrite H1. simpl. eexists. split; [done|]. simpl.
    rewrite !occurrences_app, invocations_app, length_app, H4, H5, H6, H7.
    change (invocations [CloseStopTrigger]) with (@nil StopFn).
    rewrite app_nil_r. destruct (isStopping s); by repeat split.
Qed.

(** [DoStop] on a consistent stopper. *)
Lemma DoStop_spec (w : world) (f : StopFn) :
  consistent w →
  ∃ w1, DoStop w f = Ret w1 ∧ consistent w1 ∧
    isStopping w1.1 = true ∧ stopTriggered w1.1 = stopTriggered w.1 ∧
    (if isStopping w.1 then w1 = w
     else stoppingChan w1.1 = true ∧ stoppedChan w1.1 = true ∧
          invocations w1.2 = invocations w.2 ++ [f] ∧
          w1.2 = w.2 ++ [CloseStoppingChan; Invoke f] ++
                 (if fn_in_time f then [] else [LogTimeout]) ++
                 [CloseStoppedChan]).
Proof.
  destruct w as [s tr]. intros (H1 & H2 & H3 & H4 & H5 & H6 & H7).
  unfold DoStop, IsStopping. simpl.
  destruct (isStopping s) eqn:Hs.
  - exists (s, tr). simpl. rewrite Hs.
    split; [done|]. split; [by repeat split; rewrite ?Hs|done].
  - rewrite H2. simpl. rewrite H3. simpl. eexists. split; [done|]. simpl.
    rewrite !occurrences_app, !invocations_app, !length_app, H4, H5, H6, H7.
    destruct (fn_in_time f); simpl; rewrite ?app_nil_r, <- ?app_assoc;
      repeat split; try done; destruct (stopTriggered s); done.
Qed.

Lemma calls_spec (cs : list call) (w0 : world) :
  consistent w0 →
  ∃ w, calls w0 cs = Ret w ∧ consistent w ∧
    stopTriggered w.1
    = stopTriggered w0.1 || bool_decide (CallTriggerStop ∈ cs) ∧
    isStopping w.1 = isStopping w0.1 || bool_decide (requested cs ≠ []) ∧
    invocations w.2
    = invocations w0.2 ++ (if isStopping w0.1 then [] else take 1 (requested cs)).
Proof.
  revert w0. induction cs as [|c cs IH]; intros w0 Hc.
  - exists w0. simpl. rewrite !orb_false_r.
    destruct (isStopping w0.1); by rewrite ?app_nil_r.
  - destruct c as [|f].
    + destruct (TriggerStop_spec w0 Hc) as (w1 & Hw1 & Hc1 & Ht1 & Hs1 & Hi1 & _).
      destruct (IH w1 Hc1) as (w & Hw & Hcw & Ht & Hs & Hi).
      exists w. simpl. rewrite Hw1. simpl. split; [done|]. split; [done|].
      rewrite Ht, Hs, Hi, Ht1, Hs1, Hi1.
      by rewrite orb_true_r.
    + destruct (DoStop_spec w0 f Hc) as (w1 & Hw1 & Hc1 & Hs1 & Ht1 & Hcase).
      destruct (IH w1 Hc1) as (w & Hw & Hcw & Ht & Hs & Hi).
      exists w. simpl. rewrite Hw1. simpl. split; [done|]. split; [done|].
      rewrite Ht, Hs, Hi, Ht1, Hs1. simpl.
      rewrite orb_true_r, app_nil_r, take_0. split; [|split; [done|]].
      * f_equal. apply bool_decide_ext. split.
        -- intros Hin. by right.
        -- intros [?|?]%elem_of_cons; done.
      * destruct (isStopping w0.1); [by subst; rewrite app_nil_r|].
        by destruct Hcase as (_ & _ & -> & _).
Qed.

(** Calls made one after the other.  After any run of [TriggerStop] and
    [DoStop] calls on a new stopper, each returning before the next
    begins: the trigger channel has been closed
    once if [TriggerStop] was called and not at all otherwise; the
    stopping and the stopped channel have each been closed once, and the
    function of the first [DoStop] and no other has been invoked, if
    [DoStop] was called, and nothing of this has happened otherwise.  A
    further [TriggerStop] closes the trigger channel and sets the flag if
    it is the first, and returns the stopper as it is if not; a further
    [DoStop] closes the stopping channel, invokes its function and closes
    the stopped channel if it is the first, and returns the stopper as it
    is, its function not invoked, if not. *)
Theorem stopper_one_shot (t : Z) (history : list call) :
  ∃ w, calls (NewStopper t) history = Ret w ∧
    occurrences CloseStopTrigger w.2
    = (if bool_decide (CallTriggerStop ∈ history) then 1 else 0)%nat ∧
    occurrences CloseStoppingChan w.2 = length (take 1 (requested history)) ∧
    occurrences CloseStoppedChan w.2 = length (take 1 (requested history)) ∧
    invocations w.2 = take 1 (requested history) ∧
    (∃ w1, TriggerStop w = Ret w1 ∧
       (if bool_decide (CallTriggerStop ∈ history) then w1 = w
        else stopTrigger w1.1 = true ∧ stopTriggered w1.1 = true ∧
             w1.2 = w.2 ++ [CloseStopTrigger]) ∧
       TriggerStop w1 = Ret w1) ∧
    (∀ f, ∃ w1, DoStop w f = Ret w1 ∧
       (if bool_decide (requested history ≠ []) then w1 = w
        else stoppingChan w1.1 = true ∧ isStopping w1.1 = true ∧
             stoppedChan w1.1 = true ∧
             w1.2 = w.2 ++ [CloseStoppingChan; Invoke f] ++
                    (if fn_in_time f then [] else [LogTimeout]) ++
                    [CloseStoppedChan]) ∧
       ∀ g, DoStop w1 g = Ret w1).
Proof.
  destruct (calls_spec history (NewStopper t) (NewStopper_consistent t))
    as (w & Hw & Hc & Ht & Hs & Hi).
  simpl in Ht, Hs, Hi. exists w. split; [done|].
  assert (length (take 1 (requested history))
          = if isStopping w.1 then 1%nat else 0%nat) as Hlen.
  { rewrite Hs. destruct (requested history); done. }
  pose proof Hc as Hc'. destruct w as [s tr].
  destruct Hc' as (H1 & H2 & H3 & H4 & H5 & H6 & H7). simpl in *.
  rewrite Hlen, <- Ht. repeat (split; [done|]). split.
  - destruct (TriggerStop_spec (s, tr) Hc) as (w1 & Hw1 & Hc1 & Ht1 & _ & _ & Hcase).
    exists w1. split; [done|]. simpl in Hcase. split.
    + destruct (stopTriggered s); [done|]. by destruct Hcase.
    + destruct (TriggerStop_spec w1 Hc1) as (w2 & Hw2 & _ & _ & _ & _ & Hcase2).
      rewrite Ht1 in Hcase2. by subst.
  - intros f.
    destruct (DoStop_spec (s, tr) f Hc) as (w1 & Hw1 & Hc1 & Hs1 & _ & Hcase).
    exists w1. split; [done|]. simpl in Hcase. rewrite <- Hs. split.
    + destruct (isStopping s); [done|]. by destruct Hcase as (? & ? & _ & ?).
    + intros g.
      destruct (DoStop_spec w1 g Hc1) as (w2 & Hw2 & _ & _ & _ & Hcase2).
      rewrite Hs1 in Hcase2. by subst.
Qed.

(** A run, evaluated: the second [DoStop] and the second [TriggerStop]
    leave no trace. *)
Example stopper_run :
  let f := mkStopFn "flush" true in
  let g := mkStopFn "late" false in
  calls (NewStopper 5) [CallDoStop f; CallTriggerStop; CallDoStop g; CallTriggerStop]
  = Ret (mkStopper true true true true true 5,
         [CloseStoppingChan; Invoke f; CloseStoppedChan; CloseStopTrigger]).
Proof. reflexivity. Qed.

(** *** [DoStop] called from several goroutines *)

(** A goroutine alone in [DoStop], stepped to its end, does what the call
    made at once does. *)
Lemma DoStop_as_steps (w : world) (f : StopFn) :
  interleave (start w [f]) (replicate 8 0%nat)
  = (w' ← DoStop w f;
     Ret (mkSystem w'.1 false w'.2 [mkGoroutine f Returned])).
Proof.
  destruct w as [[c1 b1 c2 b2 c3 t] tr], f as [name in_time].
  destruct b2, c2, c3, in_time; cbn; rewrite <- ?app_assoc; reflexivity.
Qed.

(** C9. [TriggerStop] and [DoStop] are meant to act once however often
    and from however many goroutines they are called.  Two goroutines
    call [DoStop(f)] and [DoStop(g)] on a new stopper.  One after the
    other the calls are as the claim says: [f] is invoked and [g] is not.
    But let the goroutine of [g] pass the first check, the goroutine of
    [f] run to its end, and the goroutine of [g] go on: under the lock it
    finds the flag set, but the [return] there leaves only the closure,
    so [g] is invoked as well, and the second [close] of the stopped
    channel panics. *)
Theorem DoStop_race_failing_input (t : Z) (f g : StopFn) :
  let sys0 := start (NewStopper t) [f; g] in
  let g_checks_f_runs := [1; 0; 0; 0; 0; 0; 0; 0; 0]%nat in
  let g_goes_on := [1; 1; 1; 1]%nat in
  (∃ w, calls (NewStopper t) [CallDoStop f; CallDoStop g] = Ret w ∧
     invocations w.2 = [f] ∧ occurrences CloseStoppedChan w.2 = 1%nat) ∧
  ∃ sys1 sys2,
    interleave sys0 g_checks_f_runs = Ret sys1 ∧
    goroutines sys1 = [mkGoroutine f Returned; mkGoroutine g AtLock] ∧
    IsStopping (sys_stopper sys1) = true ∧
    invocations (sys_trace sys1) = [f] ∧
    occurrences CloseStoppedChan (sys_trace sys1) = 1%nat ∧
    interleave sys1 g_goes_on = Ret sys2 ∧
    goroutines sys2 = [mkGoroutine f Returned; mkGoroutine g AtCloseStopped] ∧
    invocations (sys_trace sys2) = [f; g] ∧
    step sys2 1 = Panic "close of closed channel" ∧
    interleave sys0 (g_checks_f_runs ++ g_goes_on ++ [1%nat])
    = Panic "close of closed channel".
Proof.
  intros sys0 g_checks_f_runs g_goes_on.
  set (s1 := mkStopper false false true true true t).
  set (tr1 := [CloseStoppingChan; Invoke f] ++
              (if fn_in_time f then [] else [LogTimeout]) ++
              [CloseStoppedChan]).
  set (tr2 := tr1 ++ [Invoke g] ++
              (if fn_in_time g then [] else [LogTimeout])).
  split.
  - exists (s1, tr1). subst sys0 s1 tr1 tr2.
    destruct f as [fname []]; repeat split; vm_compute; reflexivity.
  - exists (mkSystem s1 false tr1
              [mkGoroutine f Returned; mkGoroutine g AtLock]).
    exists (mkSystem s1 false tr2
              [mkGoroutine f Returned; mkGoroutine g AtCloseStopped]).
    subst sys0 g_checks_f_runs g_goes_on s1 tr1 tr2.
    destruct f as [fname []], g as [gname []];
      repeat split; vm_compute; reflexivity.
Qed.

(** *** Waiting for the stop *)

(** X12. After any run of [TriggerStop] and [DoStop] calls on a new
    stopper, [WaitStopped] returns if the run holds a [DoStop] and blocks
    if it holds none; the channel of [Stopping] is closed in the same
    case, and the channel of [StopTriggered] is closed exactly if the run
    holds a [TriggerStop]. *)
Theorem WaitStopped_after_DoStop (t : Z) (history : list call) :
  ∃ w, calls (NewStopper t) history = Ret w ∧
    WaitStopped w = (if bool_decide (requested history ≠ [])
                     then Ret tt else Blocked) ∧
    Stopping w = bool_decide (requested history ≠ []) ∧
    IsStopping w.1 = bool_decide (requested history ≠ []) ∧
    StopTriggered w = bool_decide (CallTriggerStop ∈ history).
Proof.
  destruct (calls_spec history (NewStopper t) (NewStopper_consistent t))
    as (w & Hw & Hc & Ht & Hs & _).
  simpl in Ht, Hs. exists w. split; [done|].
  destruct w as [s tr]. destruct Hc as (H1 & H2 & H3 & _).
  unfold WaitStopped, Stopping, StopTriggered, IsStopping. simpl in *.
  rewrite H1, H2, H3, Ht, Hs. by repeat split.
Qed.

(** *** The goroutine id *)

Lemma after_prefix_app (p s : string) : after_prefix p (p +:+ s) = Some s.
Proof.
  induction p as [|c p IH]; [by destruct s|].
  rewrite strconv_append_cons. simpl. by rewrite bool_decide_true.
Qed.

Lemma after_prefix_Some (p s s' : string) :
  after_prefix p s = Some s' → s = p +:+ s'.
Proof.
  revert s. induction p as [|c p IH]; intros s H.
  - destruct s; by injection H as <-.
  - destruct s as [|x s]; [done|]. simpl in H.
    case_bool_decide as Hx; [|done]. subst x.
    rewrite strconv_append_cons. f_equal. by apply IH.
Qed.

Lemma prefix_of_length_app (s t : string) :
  prefix_of_length (String.length s) (s +:+ t) = s.
Proof.
  induction s as [|c s IH]; [by destruct t|].
  rewrite strconv_append_cons. simpl. by rewrite IH.
Qed.

(** A string the decimal parser accepts holds digits only: it has no
    space, and the loop of [RoutineId] reads the same number from it. *)
Lemma digits_no_space (s rest : string) (n v : Z) :
  strconv.ParseUint_loop s n = inr v →
  IndexByte (s +:+ String " " rest) " " = Z.of_nat (String.length s).
Proof.
  revert n. induction s as [|c s IH]; intros n H.
  - reflexivity.
  - rewrite strconv_append_cons. simpl in *.
    destruct (Z.leb_spec 48 (strconv.code c)); [|done]. simpl in H.
    destruct (_ <=? 57); [|done].
    destruct (_ >=? _); [done|]. destruct (_ || _); [done|].
    rewrite bool_decide_false.
    + rewrite (IH _ H). destruct (Z.ltb_spec (Z.of_nat (String.length s)) 0); lia.
    + intros ->. change (strconv.code " ") with 32 in *. lia.
Qed.

Lemma digits_routine_digits (s : string) (n v : Z) :
  0 <= n < 2 ^ 64 → strconv.ParseUint_loop s n = inr v →
  routine_digits s n = Some v.
Proof.
  revert n. induction s as [|c s IH]; intros n Hn H.
  - simpl in *. by injection H as <-.
  - simpl in *.
    destruct (Z.leb_spec 48 (strconv.code c)) as [H48|]; [|done]. simpl in H.
    destruct (Z.leb_spec (strconv.code c) 57) as [H57|]; [|done].
    change (strconv.maxUint64 / 10 + 1) with 1844674407370955162 in H.
    change (2 ^ 64) with 18446744073709551616 in Hn.
    destruct (Z.geb_spec n 1844674407370955162); [done|].
    destruct (_ || _); [done|].
    destruct (Z.ltb_spec (strconv.code c) 48); [lia|].
    destruct (Z.gtb_spec (strconv.code c) 57); [lia|]. simpl.
    assert (wrap64u (n * 10) = n * 10) as Hw10
      by (unfold wrap64u; apply Z.mod_small; lia).
    assert (wrap8u (strconv.code c - 48) = strconv.code c - 48) as Hwd
      by (unfold wrap8u; apply Z.mod_small; lia).
    rewrite Hw10 in H. rewrite Hwd. apply IH; [|done].
    unfold wrap64u. apply Z.mod_pos_bound. lia.
Qed.

(** X10. [RoutineId] reads the goroutine id off a well-formed stack
    header: on the text "goroutine ", the decimal digits of a [uint64]
    [n], a space and anything after it, it returns [n]. *)
Theorem RoutineId_reads_id (n : Z) (rest : string) :
  0 <= n < 2 ^ 64 →
  RoutineId ("goroutine " +:+ strconv.FormatUint n +:+ String " " rest) = n.
Proof.
  intros Hn. unfold RoutineId. rewrite after_prefix_app.
  pose proof (ParseUint_FormatUint_loop n Hn) as Hp.
  rewrite (digits_no_space _ _ 0 n Hp).
  destruct (Z.eqb_spec (Z.of_nat (String.length (strconv.FormatUint n))) (-1));
    [lia|].
  rewrite Nat2Z.id, prefix_of_length_app.
  by rewrite (digits_routine_digits _ 0 n) by (done || lia).
Qed.

(** The theorem at the id 18, the header of a running goroutine. *)
Lemma RoutineId_reads_id_witness :
  RoutineId "goroutine 18 [running]:" = 18.
Proof. apply (RoutineId_reads_id 18 "[running]:"). lia. Defined.

Lemma IndexByte_split (s : string) (c : ascii) :
  IndexByte s c ≠ -1 →
  0 <= IndexByte s c ∧
  ∃ rest, s = prefix_of_length (Z.to_nat (IndexByte s c)) s +:+ String c rest ∧
    IndexByte (prefix_of_length (Z.to_nat (IndexByte s c)) s) c = -1.
Proof.
  induction s as [|x s IH]; [done|]. simpl.
  case_bool_decide as Hx.
  - intros _. split; [lia|]. exists s. subst x. done.
  - destruct (Z.ltb_spec (IndexByte s c) 0) as [Hneg|Hpos]; [done|].
    intros _. destruct IH as (H0 & rest & Hs & Hno); [lia|].
    split; [lia|]. exists rest.
    replace (Z.to_nat (IndexByte s c + 1)) with (S (Z.to_nat (IndexByte s c)))
      by lia.
    simpl. rewrite strconv_append_cons, <- Hs. split; [done|].
    rewrite bool_decide_false by done. rewrite Hno. done.
Qed.

(** X11. [RoutineId] returns 0 on everything else: whenever it returns a
    number other than 0, the text is "goroutine ", a run of decimal
    digits free of spaces, a space, and a rest, and the number is what
    the digit loop reads from the run. *)
Theorem RoutineId_nonzero_well_formed (stack : string) :
  RoutineId stack ≠ 0 →
  ∃ digits rest,
    stack = "goroutine " +:+ digits +:+ String " " rest ∧
    IndexByte digits " " = -1 ∧
    routine_digits digits 0 = Some (RoutineId stack).
Proof.
  unfold RoutineId. intros H.
  destruct (after_prefix "goroutine " stack) as [stack'|] eqn:Hp; [|done].
  apply after_prefix_Some in Hp.
  destruct (Z.eqb_spec (IndexByte stack' " ") (-1)) as [|Hidx]; [done|].
  destruct (IndexByte_split stack' " " Hidx) as (_ & rest & Hs & Hno).
  set (digits := prefix_of_length (Z.to_nat (IndexByte stack' " ")) stack') in *.
  destruct (routine_digits digits 0) as [id|] eqn:Hd; [|done].
  exists digits, rest. by rewrite <- Hs.
Qed.

(** The theorem at a header. *)
Lemma RoutineId_nonzero_well_formed_witness :
  ∃ digits rest,
    "goroutine 7 [running]:"%string
    = "goroutine " +:+ digits +:+ String " " rest ∧
    IndexByte digits " " = -1 ∧
    routine_digits digits 0 = Some (RoutineId "goroutine 7 [running]:").
Proof. apply RoutineId_nonzero_well_formed. vm_compute. discriminate. Defined.

End syncFacts.
